(** * Image ingestion pipeline and blob read service

    A shallow embedding of [upload_images.js] (the ingestion script:
    [uploadBufferToGridFS], [processFile], [walkAndUpload]) and of the
    [/api/file/:fileId] and [/api/metadata] routes of [server/server.js].

    The script's collaborators (the file system, the sharp codec, the
    GridFS bucket, the [imagesMeta] collection, the console) are modelled
    as an explicit state threaded through an error-and-state monad; what
    the outside world decides (whether a buffer decodes, whether a store
    operation faults) is read from a [world] record. *)

From stdpp Require Import gmap strings list sorting.
From Stdlib Require Import ZArith Ascii String.
From Stdlib Require Import Strings.Byte.
From Stdlib Require OrderedTypeEx.

Open Scope string_scope.
Open Scope list_scope.
Open Scope Z_scope.
Set Warnings "-register-all".

(** ** Strings: the image-extension pattern *)

Module Pattern.

(** ASCII lower-casing; the [i] flag of a non-unicode JS pattern folds
    only the letters [A-Z]. *)
Definition lower_ascii (c : ascii) : ascii :=
  let n := nat_of_ascii c in
  if ((65 <=? n) && (n <=? 90))%nat then ascii_of_nat (n + 32) else c.

Fixpoint lower (s : string) : string :=
  match s with
  | EmptyString => EmptyString
  | String c s' => String (lower_ascii c) (lower s')
  end.

(** The alternatives of [/\.(jpg|jpeg|png|webp)$/i], dot included. *)
Definition image_exts : list string := [".jpg"; ".jpeg"; ".png"; ".webp"].

Definition is_image_ext (t : string) : bool :=
  existsb (String.eqb (lower t)) image_exts.

(** [strip_image_ext s] scans the start positions from the left, as the
    pattern matcher does, and returns the text before the match. *)
Fixpoint strip_image_ext (s : string) : option string :=
  if is_image_ext s then Some EmptyString
  else match s with
       | EmptyString => None
       | String c s' => String c <$> strip_image_ext s'
       end.

(** [/\.(jpg|jpeg|png|webp)$/i.test(f)] *)
Definition test (f : string) : bool := bool_decide (is_Some (strip_image_ext f)).

(** [f.replace(/\.(jpg|jpeg|png|webp)$/i, empty)]: the name without the
    matched extension. *)
Definition replace_ext (f : string) : string := default f (strip_image_ext f).

End Pattern.

(** ** The file system *)

Definition buffer := list byte.
Definition path := list string.

(** A directory holds its entries in whatever order the disk keeps them.
    A file holds its bytes, or nothing when reading it fails.  Every
    entry is a file or a directory: an entry [statSync] cannot follow is
    not represented. *)
Inductive node :=
| File (content : option buffer)
| Dir (entries : list (string * node)).

Fixpoint assoc {A} (k : string) (l : list (string * A)) : option A :=
  match l with
  | [] => None
  | (k', v) :: l' => if String.eqb k k' then Some v else assoc k l'
  end.

Fixpoint resolve (n : node) (p : path) : option node :=
  match p with
  | [] => Some n
  | x :: p' =>
      match n with
      | Dir es => match assoc x es with
                  | Some c => resolve c p'
                  | None => None
                  end
      | File _ => None
      end
  end.

(** [path.join(dir, name)] for a directory entry name, and [path.basename]. *)
Definition join (dir : path) (name : string) : path := dir ++ [name].
Definition basename (p : path) : string := List.last p EmptyString.

Inductive fsError := ENOENT | ENOTDIR | EISDIR | EACCES.

Inductive error :=
| FsError (e : fsError) (p : path)
| SharpError (input : buffer)
| UploadStreamError (filename : string)
| UploadNoMetadata (filename : string)
| IndexWriteError
| HeadersSent.

Inductive result (A : Type) :=
| Ok (a : A)
| Throw (e : error).
Arguments Ok {A} a.
Arguments Throw {A} e.

(** The order of [strcmp]: byte by byte, a proper prefix first. *)
Definition name_le (a b : string) : Prop := String.leb a b = true.

#[global] Instance name_le_dec (a b : string) : Decision (name_le a b).
Proof. unfold name_le; apply _. Defined.

Definition sort_names (l : list string) : list string := merge_sort name_le l.

Module Fs.

(** [fs.readdirSync(p)] as Node answers it on a POSIX system: libuv
    scans the directory and sorts the names with [strcmp]. *)
Definition readdirSync (fs : node) (p : path) : result (list string) :=
  match resolve fs p with
  | Some (Dir es) => Ok (sort_names (map fst es))
  | Some (File _) => Throw (FsError ENOTDIR p)
  | None => Throw (FsError ENOENT p)
  end.

(** [fs.statSync(p).isDirectory()] *)
Definition isDirectory (fs : node) (p : path) : result bool :=
  match resolve fs p with
  | Some (Dir _) => Ok true
  | Some (File _) => Ok false
  | None => Throw (FsError ENOENT p)
  end.

Definition readFileSync (fs : node) (p : path) : result buffer :=
  match resolve fs p with
  | Some (File (Some b)) => Ok b
  | Some (File None) => Throw (FsError EACCES p)
  | Some (Dir _) => Throw (FsError EISDIR p)
  | None => Throw (FsError ENOENT p)
  end.

End Fs.

(** ** The sharp codec

    [sharp(input)] builds a pipeline lazily; [metadata()] and [toBuffer()]
    run it.  [metadata()] rejects when the header of the input does not
    read; [toBuffer()] rejects when the input does not decode and when
    the image it is asked to produce does not fit the output format, so
    of several pipelines over one input some may return and others
    reject.  An output buffer is kept symbolically: the options it was
    produced under and the size the resize step gives it (only a width is
    ever requested, the height follows the aspect ratio). *)

Module Sharp.

Record metadata := { width : Z; height : Z; format : string }.

(** What the codec finds in an input buffer. *)
Inductive probe :=
| Undecodable
| HeaderOnly (m : metadata)
| Decodable (m : metadata).

Record resizeOptions := { target_width : Z; withoutEnlargement : bool }.

Record pipeline := {
  input : buffer;
  resizeOpt : option resizeOptions;
  blurSigma : option Z;
  webpQuality : option Z
}.

Definition sharp (b : buffer) : pipeline :=
  {| input := b; resizeOpt := None; blurSigma := None; webpQuality := None |}.

Definition resize (o : resizeOptions) (p : pipeline) : pipeline :=
  {| input := input p; resizeOpt := Some o;
     blurSigma := blurSigma p; webpQuality := webpQuality p |}.

Definition blur (sigma : Z) (p : pipeline) : pipeline :=
  {| input := input p; resizeOpt := resizeOpt p;
     blurSigma := Some sigma; webpQuality := webpQuality p |}.

Definition webp (quality : Z) (p : pipeline) : pipeline :=
  {| input := input p; resizeOpt := resizeOpt p;
     blurSigma := blurSigma p; webpQuality := Some quality |}.

(** The width a resize to [target_width] gives an image [w] wide: with
    [withoutEnlargement] an image already narrower than the target is
    left as it is, otherwise the image is scaled to the target. *)
Definition resized_width (o : option resizeOptions) (w : Z) : Z :=
  match o with
  | None => w
  | Some o => if withoutEnlargement o && (w <? target_width o)
              then w else target_width o
  end.

(** The height that goes with it: an image whose width is kept keeps its
    height; otherwise the height is scaled by the same factor, to the
    nearest pixel and to one pixel at least. *)
Definition resized_height (o : option resizeOptions) (w h : Z) : Z :=
  match o with
  | None => h
  | Some o => if withoutEnlargement o && (w <? target_width o)
              then h else Z.max 1 ((2 * h * target_width o + w) / (2 * w))
  end.

(** A WebP image has at most 16383 pixels a side; the encoder rejects a
    larger one. *)
Definition webp_limit : Z := 16383.

Definition output_fits (p : pipeline) (m : metadata) : bool :=
  match webpQuality p with
  | Some _ =>
      (resized_width (resizeOpt p) (width m) <=? webp_limit)
      && (resized_height (resizeOpt p) (width m) (height m) <=? webp_limit)
  | None => true
  end.

Record image := {
  out_width : Z;
  out_height : Z;
  out_quality : option Z;
  out_blur : option Z;
  out_of : buffer
}.

Section Codec.
Variable codec : buffer -> probe.

Definition get_metadata (p : pipeline) : result metadata :=
  match codec (input p) with
  | Undecodable => Throw (SharpError (input p))
  | HeaderOnly m | Decodable m => Ok m
  end.

Definition toBuffer (p : pipeline) : result image :=
  match codec (input p) with
  | Undecodable | HeaderOnly _ => Throw (SharpError (input p))
  | Decodable m =>
      if output_fits p m then
        Ok {| out_width := resized_width (resizeOpt p) (width m);
              out_height := resized_height (resizeOpt p) (width m) (height m);
              out_quality := webpQuality p;
              out_blur := blurSigma p;
              out_of := input p |}
      else Throw (SharpError (input p))
  end.

End Codec.
End Sharp.

(** ** Base64, as [Buffer.prototype.toString("base64")] *)

Module Base64.

Definition alphabet : string :=
  "ABCDEFGHIJKLMNOPQRSTUVWXYZabcdefghijklmnopqrstuvwxyz0123456789+/".

Definition digit (n : N) : ascii :=
  default "="%char (String.get (N.to_nat n) alphabet).

Definition pad : ascii := "="%char.

Fixpoint encode (bs : list byte) : string :=
  match bs with
  | [] => EmptyString
  | [a] =>
      let n := (Byte.to_N a * 65536)%N in
      String (digit (n / 262144)) (String (digit (n / 4096 mod 64))
        (String pad (String pad EmptyString)))
  | [a; b] =>
      let n := (Byte.to_N a * 65536 + Byte.to_N b * 256)%N in
      String (digit (n / 262144)) (String (digit (n / 4096 mod 64))
        (String (digit (n / 64 mod 64)) (String pad EmptyString)))
  | a :: b :: c :: rest =>
      let n := (Byte.to_N a * 65536 + Byte.to_N b * 256 + Byte.to_N c)%N in
      String (digit (n / 262144)) (String (digit (n / 4096 mod 64))
        (String (digit (n / 64 mod 64)) (String (digit (n mod 64))
          (encode rest))))
  end.

(** The reader of such text: four digits give three bytes, padding marks
    a last group of one or two bytes. *)
Fixpoint index_of (c : ascii) (s : string) (i : N) : option N :=
  match s with
  | EmptyString => None
  | String c' s' => if Ascii.eqb c c' then Some i else index_of c s' (i + 1)%N
  end.

Definition value (c : ascii) : option N := index_of c alphabet 0%N.

Fixpoint decode (s : string) : option (list byte) :=
  match s with
  | EmptyString => Some []
  | String c1 (String c2 (String c3 (String c4 rest))) =>
      match value c1, value c2 with
      | Some d1, Some d2 =>
          if Ascii.eqb c4 pad then
            match rest with
            | EmptyString =>
                if Ascii.eqb c3 pad then
                  match Byte.of_N ((d1 * 64 + d2) / 16)%N with
                  | Some a => Some [a]
                  | None => None
                  end
                else
                  match value c3 with
                  | Some d3 =>
                      let n := ((d1 * 64 + d2) * 64 + d3)%N in
                      match Byte.of_N (n / 1024)%N, Byte.of_N (n / 4 mod 256)%N with
                      | Some a, Some b => Some [a; b]
                      | _, _ => None
                      end
                  | None => None
                  end
            | String _ _ => None
            end
          else
            match value c3, value c4, decode rest with
            | Some d3, Some d4, Some bs =>
                let n := (((d1 * 64 + d2) * 64 + d3) * 64 + d4)%N in
                match Byte.of_N (n / 65536)%N, Byte.of_N (n / 256 mod 256)%N,
                      Byte.of_N (n mod 256)%N with
                | Some a, Some b, Some c => Some (a :: b :: c :: bs)
                | _, _, _ => None
                end
            | _, _, _ => None
            end
      | _, _ => None
      end
  | _ => None
  end.

Fixpoint strip_prefix (p s : string) : option string :=
  match p with
  | EmptyString => Some s
  | String a p' =>
      match s with
      | String b s' => if Ascii.eqb a b then strip_prefix p' s' else None
      | EmptyString => None
      end
  end.

(** The bytes a [data:image/webp;base64,] string stands for. *)
Definition webp_of_data_uri (s : string) : option (list byte) :=
  match strip_prefix "data:image/webp;base64," s with
  | Some text => decode text
  | None => None
  end.

End Base64.

(** ** The stores *)

Definition oid := N.

(** The tag set an upload carries as GridFS [metadata]. *)
Record tags := {
  tag_category : string;
  tag_subcategory : option string;
  tag_subsubcategory : option string;
  tag_variant : string
}.

(** A document of [images.files] together with the bytes of its chunks. *)
Record gridFile := {
  file_id : oid;
  file_name : string;
  file_contentType : string;
  file_metadata : tags;
  file_data : Sharp.image
}.

Record variantIds := { thumbnailId : oid; fullId : oid }.

Record original := {
  orig_width : option Z;
  orig_height : option Z;
  orig_format : option string
}.

Record metaDoc := {
  filename : string;
  alt : string;
  category : string;
  subcategory : option string;
  subsubcategory : option string;
  variants : variantIds;
  lqip : string;
  original_ : original;
  createdAt : Z
}.

Inductive uploadOutcome :=
| Flushed          (* the pipeline completes and 'finish' hands over the file *)
| StreamFault      (* the pipeline rejects *)
| SilentFinish.    (* the pipeline completes, 'finish' hands over nothing *)

(** What the script asked of the stores, oldest first. *)
Inductive storeOp :=
| OpUpload (name : string) (t : tags) (data : Sharp.image) (r : uploadOutcome)
| OpInsert (d : metaDoc) (ok : bool).

(** What the script writes to the console, one constructor per message:
    the connection notice, the progress line before each file, the
    could-not-read line of a skipped file, the success line after an
    insert, the completion line, the fatal-connection report and the
    fatal-script report with the raw error. *)
Inductive logLine :=
| LogConnected
| LogProcessing (f category : string) (subcat subsub : option string)
| LogReadFailed (filename : string) (e : error)
| LogSuccess (filename : string)
| LogComplete
| LogFatalConnection
| LogFatalScript (e : error).

Record state := {
  gridfs : gmap N gridFile;
  imagesMeta : list (oid * metaDoc);
  next_oid : oid;
  console : list logLine;
  journal : list storeOp
}.

(** Decisions of the outside world.  Store outcomes and the clock are
    indexed by the number of store operations already asked for. *)
Record world := {
  codec : buffer -> Sharp.probe;
  webp_bytes : Sharp.image -> buffer;
  connect_ok : bool;
  upload_outcome : nat -> uploadOutcome;
  insert_outcome : nat -> bool;
  date_now : nat -> Z
}.

(** ** The monad of the script *)

Definition ST (S A : Type) : Type := S -> result A * S.

Definition ret {S A} (a : A) : ST S A := fun s => (Ok a, s).
Definition throw {S A} (e : error) : ST S A := fun s => (Throw e, s).
Definition bind {S A B} (m : ST S A) (k : A -> ST S B) : ST S B :=
  fun s => match m s with
           | (Ok a, s') => k a s'
           | (Throw e, s') => (Throw e, s')
           end.
Definition lift {S A} (r : result A) : ST S A := fun s => (r, s).

Abbreviation M := (ST state).

Definition rbind {A B} (r : result A) (k : A -> result B) : result B :=
  match r with Ok a => k a | Throw e => Throw e end.

Declare Scope js_scope.
Delimit Scope js_scope with js.
Notation "'let!' x ':=' m 'in' k" := (bind m (fun x => k))
  (at level 10, x name, m at level 100, k at level 200) : js_scope.
Notation "m ';;' k" := (bind m (fun _ => k))
  (at level 100, k at level 200, right associativity) : js_scope.
Notation "'let?' x ':=' r 'in' k" := (rbind r (fun x => k))
  (at level 10, x name, r at level 100, k at level 200) : js_scope.
Open Scope js_scope.

(** [for (const x of l) await body(x)] *)
Fixpoint for_of {S A} (l : list A) (body : A -> ST S unit) : ST S unit :=
  match l with
  | [] => ret tt
  | x :: l' => body x ;; for_of l' body
  end.

Definition logged (l : logLine) (s : state) : state :=
  {| gridfs := gridfs s; imagesMeta := imagesMeta s; next_oid := next_oid s;
     console := console s ++ [l]; journal := journal s |}.

(** [console.log] and [console.error] *)
Definition console_log (l : logLine) : M unit := fun s => (Ok tt, logged l s).

(** [x || null] *)
Definition or_null_Z (x : Z) : option Z := if x =? 0 then None else Some x.
Definition or_null_string (x : string) : option string :=
  if String.eqb x EmptyString then None else Some x.
Definition or_null (x : option string) : option string :=
  match x with Some v => or_null_string v | None => None end.

Definition BUCKET_NAME : string := "images".

(** ** The ingestion script *)

Section Ingest.

Variable w : world.
Variable fs : node.
Variable BASE_IMAGES_DIR : path.

Definition record_op (op : storeOp) (s : state) : state :=
  {| gridfs := gridfs s; imagesMeta := imagesMeta s; next_oid := next_oid s;
     console := console s; journal := journal s ++ [op] |}.

Definition store_file (f : gridFile) (s : state) : state :=
  {| gridfs := <[file_id f := f]> (gridfs s); imagesMeta := imagesMeta s;
     next_oid := N.succ (next_oid s); console := console s;
     journal := journal s |}.

Definition store_doc (d : metaDoc) (s : state) : state :=
  {| gridfs := gridfs s; imagesMeta := imagesMeta s ++ [(next_oid s, d)];
     next_oid := N.succ (next_oid s); console := console s;
     journal := journal s |}.

(** [uploadBufferToGridFS(bucket, buffer, filename, metadata, contentType)]:
    the file is in the bucket once the pipeline has completed; the call
    throws when the pipeline rejects and when 'finish' delivered no file. *)
Definition uploadBufferToGridFS (buf : Sharp.image) (name : string)
    (metadata : tags) (contentType : string) : M gridFile :=
  fun s =>
    let r := upload_outcome w (List.length (journal s)) in
    let file := {| file_id := next_oid s; file_name := name;
                   file_contentType := contentType;
                   file_metadata := metadata; file_data := buf |} in
    let s1 := record_op (OpUpload name metadata buf r) s in
    match r with
    | StreamFault => (Throw (UploadStreamError name), s1)
    | SilentFinish => (Throw (UploadNoMetadata name), store_file file s1)
    | Flushed => (Ok file, store_file file s1)
    end.

(** [db.collection("imagesMeta").insertOne(doc)], giving [insertedId]. *)
Definition insertOne (d : metaDoc) : M oid :=
  fun s =>
    let ok := insert_outcome w (List.length (journal s)) in
    let s1 := record_op (OpInsert d ok) s in
    if ok then (Ok (next_oid s), store_doc d s1)
    else (Throw IndexWriteError, s1).

(** [new Date()] *)
Definition new_Date : M Z := fun s => (Ok (date_now w (List.length (journal s))), s).

Definition thumbPipeline (b : buffer) : Sharp.pipeline :=
  Sharp.webp 75
    (Sharp.resize {| Sharp.target_width := 600; Sharp.withoutEnlargement := true |}
       (Sharp.sharp b)).

Definition fullPipeline (b : buffer) : Sharp.pipeline :=
  Sharp.webp 82
    (Sharp.resize {| Sharp.target_width := 1600; Sharp.withoutEnlargement := true |}
       (Sharp.sharp b)).

Definition lqipPipeline (b : buffer) : Sharp.pipeline :=
  Sharp.webp 30
    (Sharp.blur 1
       (Sharp.resize {| Sharp.target_width := 20; Sharp.withoutEnlargement := false |}
          (Sharp.sharp b))).

Definition dataUri (lqipBuffer : Sharp.image) : string :=
  "data:image/webp;base64," +:+ Base64.encode (webp_bytes w lqipBuffer).

Definition processFile (filePath : path) (category : string)
    (subcategory subsubcategory : option string) : M (option oid) :=
  let filename := basename filePath in
  match Fs.readFileSync fs filePath with
  | Throw readErr =>
      console_log (LogReadFailed filename readErr) ;;
      ret None
  | Ok originalBuffer =>
      let! sharpMeta := lift (Sharp.get_metadata (codec w) (Sharp.sharp originalBuffer)) in
      let! thumbBuffer := lift (Sharp.toBuffer (codec w) (thumbPipeline originalBuffer)) in
      let! fullBuffer := lift (Sharp.toBuffer (codec w) (fullPipeline originalBuffer)) in
      let! lqipBuffer := lift (Sharp.toBuffer (codec w) (lqipPipeline originalBuffer)) in
      let lqipDataUri := dataUri lqipBuffer in
      let! thumbFile :=
        uploadBufferToGridFS thumbBuffer (filename +:+ "-thumb.webp")
          {| tag_category := category; tag_subcategory := subcategory;
             tag_subsubcategory := subsubcategory; tag_variant := "thumbnail" |}
          "image/webp" in
      let! fullFile :=
        uploadBufferToGridFS fullBuffer (filename +:+ "-full.webp")
          {| tag_category := category; tag_subcategory := subcategory;
             tag_subsubcategory := subsubcategory; tag_variant := "full" |}
          "image/webp" in
      let! now := new_Date in
      let metaDoc :=
        {| filename := filename;
           alt := Pattern.replace_ext filename;
           category := category;
           subcategory := subcategory;
           subsubcategory := or_null subsubcategory;
           variants := {| thumbnailId := file_id thumbFile;
                          fullId := file_id fullFile |};
           lqip := lqipDataUri;
           original_ :=
             {| orig_width := or_null_Z (Sharp.width sharpMeta);
                orig_height := or_null_Z (Sharp.height sharpMeta);
                orig_format := or_null_string (Sharp.format sharpMeta) |};
           createdAt := now |} in
      let! insertedId := insertOne metaDoc in
      console_log (LogSuccess filename) ;;
      ret (Some insertedId)
  end.

(** [fs.readdirSync(dir).filter(f => fs.statSync(path.join(dir, f)).isDirectory())] *)
Fixpoint keep_dirs (dir : path) (names : list string) : result (list string) :=
  match names with
  | [] => Ok []
  | f :: rest =>
      let? d := Fs.isDirectory fs (join dir f) in
      let? ds := keep_dirs dir rest in
      Ok (if d then f :: ds else ds)
  end.

Definition list_dirs (dir : path) : result (list string) :=
  let? names := Fs.readdirSync fs dir in keep_dirs dir names.

(** [fs.readdirSync(dir).filter(f => /\.(jpg|jpeg|png|webp)$/i.test(f))] *)
Definition list_images (dir : path) : result (list string) :=
  let? names := Fs.readdirSync fs dir in Ok (List.filter Pattern.test names).

Definition process_files (dir : path) (category : string)
    (subcat subsub : option string) (files : list string) : M unit :=
  for_of files (fun f =>
    console_log (LogProcessing f category subcat subsub) ;;
    let! _ := processFile (join dir f) category subcat subsub in
    ret tt).

(** The body of [walkAndUpload] once the client is connected. *)
Definition walk_loops : M unit :=
  let! categories := lift (list_dirs BASE_IMAGES_DIR) in
  for_of categories (fun category =>
    let categoryPath := join BASE_IMAGES_DIR category in
    let! subcategories := lift (list_dirs categoryPath) in
    if (List.length subcategories =? 0)%nat then
      let! files := lift (list_images categoryPath) in
      process_files categoryPath category None None files
    else
      for_of subcategories (fun subcat =>
        let subcatPath := join categoryPath subcat in
        let! subsubdirs := lift (list_dirs subcatPath) in
        if (0 <? List.length subsubdirs)%nat then
          for_of subsubdirs (fun subsub =>
            let subsubPath := join subcatPath subsub in
            let! files := lift (list_images subsubPath) in
            process_files subsubPath category (Some subcat) (Some subsub) files)
        else
          let! files := lift (list_images subcatPath) in
          process_files subcatPath category (Some subcat) None files)).

(** How a run ends: the script returns, it throws, or [process.exit] is
    called on the spot. *)
Inductive ending :=
| Returned
| Rejected (e : error)
| Exited (code : Z).

Definition walkAndUpload (s : state) : ending * state :=
  if connect_ok w then
    match (console_log LogConnected ;; walk_loops ;; console_log LogComplete) s with
    | (Ok _, s') => (Returned, s')
    | (Throw e, s') => (Rejected e, s')
    end
  else
    match console_log LogFatalConnection s with
    | (_, s') => (Exited 1, s')
    end.

(** [walkAndUpload().catch(err => { ...; process.exit(1); })] and the exit
    status of the process. *)
Definition main (s : state) : Z * state :=
  match walkAndUpload s with
  | (Returned, s') => (0, s')
  | (Exited c, s') => (c, s')
  | (Rejected e, s') =>
      match console_log (LogFatalScript e) s' with
      | (_, s'') => (1, s'')
      end
  end.

(** The walker on its own: the tuples the loops hand to [processFile],
    in the order they do. *)
Definition tuple : Type := path * string * option string * option string.

Definition tuples_in (dir : path) (category : string)
    (subcat subsub : option string) (files : list string) : list tuple :=
  map (fun f => (join dir f, category, subcat, subsub)) files.

Fixpoint concat_results {A} (l : list (result (list A))) : result (list A) :=
  match l with
  | [] => Ok []
  | r :: l' => let? x := r in let? xs := concat_results l' in Ok (x ++ xs)
  end.

Definition walk_subsub (category subcat : string) (subcatPath : path)
    (subsub : string) : result (list tuple) :=
  let subsubPath := join subcatPath subsub in
  let? files := list_images subsubPath in
  Ok (tuples_in subsubPath category (Some subcat) (Some subsub) files).

Definition walk_subcat (category : string) (categoryPath : path)
    (subcat : string) : result (list tuple) :=
  let subcatPath := join categoryPath subcat in
  let? subsubdirs := list_dirs subcatPath in
  if (0 <? List.length subsubdirs)%nat then
    concat_results (map (walk_subsub category subcat subcatPath) subsubdirs)
  else
    let? files := list_images subcatPath in
    Ok (tuples_in subcatPath category (Some subcat) None files).

Definition walk_category (category : string) : result (list tuple) :=
  let categoryPath := join BASE_IMAGES_DIR category in
  let? subcategories := list_dirs categoryPath in
  if (List.length subcategories =? 0)%nat then
    let? files := list_images categoryPath in
    Ok (tuples_in categoryPath category None None files)
  else
    concat_results (map (walk_subcat category categoryPath) subcategories).

Definition walk : result (list tuple) :=
  let? categories := list_dirs BASE_IMAGES_DIR in
  concat_results (map walk_category categories).

End Ingest.

(** ** The read side: [GET /api/file/:fileId]

    The response follows Node's [ServerResponse] as Express wraps it:
    headers can be set until the head is written; the first write of the
    body writes the head with the status code current at that moment;
    setting a header after that throws. *)

Module Server.

(** The field of an [images.files] document the route reads.  The
    collection answers every [findOne]; a store that fails there is not
    represented. *)
Record fileDoc := { contentType : option string }.

(** What a download stream does once it is piped: the chunks it emits,
    followed by ['end'] or by ['error']. *)
Record download := { chunks : list buffer; faults : bool }.

Record env := {
  parseObjectId : string -> option oid;
  files : gmap N fileDoc;
  openDownloadStream : oid -> download
}.

(** The response object.  [head] is the status line and the headers as
    they went out to the client; nothing can be set once it is there. *)
Record response := {
  statusCode : Z;
  headers : gmap string string;
  head : option (Z * gmap string string);
  body : buffer;
  ended : bool
}.

Definition fresh : response :=
  {| statusCode := 200; headers := ∅; head := None; body := []; ended := false |}.

Abbreviation R := (ST response).

Definition status (code : Z) : R unit :=
  fun r => (Ok tt, {| statusCode := code; headers := headers r; head := head r;
                      body := body r; ended := ended r |}).

Definition setHeader (name value : string) : R unit :=
  fun r =>
    match head r with
    | Some _ => (Throw HeadersSent, r)
    | None => (Ok tt, {| statusCode := statusCode r;
                         headers := <[Pattern.lower name := value]> (headers r);
                         head := None; body := body r; ended := ended r |})
    end.

(** [res.write(chunk)]: the first write sends the head. *)
Definition write (chunk : buffer) : R unit :=
  fun r => (Ok tt, {| statusCode := statusCode r; headers := headers r;
                      head := Some (default (statusCode r, headers r) (head r));
                      body := body r ++ chunk; ended := ended r |}).

Definition end_ : R unit :=
  fun r => (Ok tt, {| statusCode := statusCode r; headers := headers r;
                      head := Some (default (statusCode r, headers r) (head r));
                      body := body r; ended := true |}).

Definition bytes_of (s : string) : buffer := list_byte_of_string s.

(** [res.send(text)]: a content type is set unless one is there already. *)
Definition send (text : string) : R unit :=
  let! _ := (fun r => match headers r !! "content-type" with
                      | Some _ => match head r with
                                  | Some _ => (Throw HeadersSent, r)
                                  | None => (Ok tt, r)
                                  end
                      | None => setHeader "Content-Type" "text/html; charset=utf-8" r
                      end) in
  write (bytes_of text) ;; end_.

Definition status_message (code : Z) : string :=
  if code =? 500 then "Internal Server Error" else EmptyString.

(** [res.sendStatus(code)] *)
Definition sendStatus (code : Z) : R unit :=
  status code ;;
  setHeader "Content-Type" "text/plain; charset=utf-8" ;;
  send (status_message code).

(** [downloadStream.on("error", ...)] and [downloadStream.pipe(res)]. *)
Definition pipe (d : download) (on_error : R unit) : R unit :=
  for_of (chunks d) write ;;
  if faults d then on_error else end_.

Definition get_file (e : env) (fileId : string) : R unit :=
  match parseObjectId e fileId with
  | None => status 400 ;; send "bad id"
  | Some _id =>
      match files e !! _id with
      | None => status 404 ;; send "file not found"
      | Some fileDoc =>
          let contentType := default "image/webp" (or_null (contentType fileDoc)) in
          setHeader "Content-Type" contentType ;;
          setHeader "Cache-Control" "public, max-age=31536000, immutable" ;;
          pipe (openDownloadStream e _id) (sendStatus 500)
      end
  end.

(** The answer the client got: status, headers, bytes, and whether the
    response was completed. *)
Definition serve (e : env) (fileId : string) : result unit * response :=
  get_file e fileId fresh.

(** What went out: the status of the head and a header of it. *)
Definition status_sent (r : response) : option Z := fst <$> head r.
Definition header_sent (name : string) (r : response) : option string :=
  match head r with
  | Some (_, h) => h !! name
  | None => None
  end.

End Server.

(** ** Vocabulary of the properties *)

Section Vocabulary.

Variable w : world.
Variable fs : node.

(** One turn of an innermost loop: the progress line, then [processFile]. *)
Definition process_tuple (t : tuple) : M unit :=
  let '(p, category, subcat, subsub) := t in
  console_log (LogProcessing (basename p) category subcat subsub) ;;
  let! _ := processFile w fs p category subcat subsub in
  ret tt.

Definition is_dir (p : path) : Prop := exists es, resolve fs p = Some (Dir es).

Definition readable (t : tuple) : bool :=
  match Fs.readFileSync fs (fst (fst (fst t))) with
  | Ok _ => true
  | Throw _ => false
  end.

(** Whether the entry [f] of [dir] is a directory. *)
Definition dirb (dir : path) (f : string) : bool :=
  match resolve fs (join dir f) with Some (Dir _) => true | _ => false end.

(** The walker in the spec's words: depth-first over category,
    subcategory and sub-subcategory, the entries of each directory taken
    in lexical order. *)
Definition listing (p : path) : list string :=
  match resolve fs p with
  | Some (Dir es) => sort_names (map fst es)
  | _ => []
  end.

Definition subdirs (p : path) : list string := List.filter (dirb p) (listing p).
Definition images (p : path) : list string := List.filter Pattern.test (listing p).

Definition depth_first_subcat (category : string) (categoryPath : path)
    (subcat : string) : list tuple :=
  let subcatPath := join categoryPath subcat in
  match subdirs subcatPath with
  | [] => tuples_in subcatPath category (Some subcat) None (images subcatPath)
  | subsubdirs =>
      flat_map (fun subsub =>
                  tuples_in (join subcatPath subsub) category (Some subcat) (Some subsub)
                    (images (join subcatPath subsub)))
        subsubdirs
  end.

Definition depth_first_category (base : path) (category : string) : list tuple :=
  let categoryPath := join base category in
  match subdirs categoryPath with
  | [] => tuples_in categoryPath category None None (images categoryPath)
  | subcategories => flat_map (depth_first_subcat category categoryPath) subcategories
  end.

Definition depth_first (base : path) : list tuple :=
  flat_map (depth_first_category base) (subdirs base).

(** The codec decodes [b] as [m] and each of the three variants
    [processFile] asks for fits its format. *)
Definition encodable (b : buffer) (m : Sharp.metadata) : Prop :=
  codec w b = Sharp.Decodable m /\
  Sharp.output_fits (thumbPipeline b) m = true /\
  Sharp.output_fits (fullPipeline b) m = true /\
  Sharp.output_fits (lqipPipeline b) m = true.

(** A valid file: it can be read, the codec decodes it and produces its
    three variants. *)
Definition valid (t : tuple) : Prop :=
  exists b m, Fs.readFileSync fs (fst (fst (fst t))) = Ok b /\ encodable b m.

(** The classification a tuple's record carries. *)
Definition tuple_key (t : tuple) : string * string * option string * option string :=
  let '(p, category, subcat, subsub) := t in
  (basename p, category, subcat, or_null subsub).

(** The buffer a pipeline yields, when it yields one, on an input the
    codec decodes as [m]. *)
Definition variant_image (pl : buffer -> Sharp.pipeline) (b : buffer)
    (m : Sharp.metadata) : Sharp.image :=
  {| Sharp.out_width := Sharp.resized_width (Sharp.resizeOpt (pl b)) (Sharp.width m);
     Sharp.out_height :=
       Sharp.resized_height (Sharp.resizeOpt (pl b)) (Sharp.width m) (Sharp.height m);
     Sharp.out_quality := Sharp.webpQuality (pl b);
     Sharp.out_blur := Sharp.blurSigma (pl b);
     Sharp.out_of := b |}.

Definition variant_tags (category : string) (subcat subsub : option string)
    (v : string) : tags :=
  {| tag_category := category; tag_subcategory := subcat;
     tag_subsubcategory := subsub; tag_variant := v |}.

(** The state an upload attempt with outcome [r] leaves behind. *)
Definition after_upload (name : string) (t : tags) (img : Sharp.image)
    (r : uploadOutcome) (s : state) : state :=
  let file := {| file_id := next_oid s; file_name := name;
                 file_contentType := "image/webp";
                 file_metadata := t; file_data := img |} in
  match r with
  | StreamFault => record_op (OpUpload name t img r) s
  | _ => store_file file (record_op (OpUpload name t img r) s)
  end.

Definition doc_of (p : path) (category : string) (subcat subsub : option string)
    (b : buffer) (m : Sharp.metadata) (tid fid : oid) (now : Z) : metaDoc :=
  {| filename := basename p;
     alt := Pattern.replace_ext (basename p);
     category := category;
     subcategory := subcat;
     subsubcategory := or_null subsub;
     variants := {| thumbnailId := tid; fullId := fid |};
     lqip := dataUri w (variant_image lqipPipeline b m);
     original_ := {| orig_width := or_null_Z (Sharp.width m);
                     orig_height := or_null_Z (Sharp.height m);
                     orig_format := or_null_string (Sharp.format m) |};
     createdAt := now |}.

(** The ways one call of [processFile] can go, with the state it leaves:
    skipped at the read, stopped by the codec, stopped at either upload,
    stopped at the insert, or done. *)
Inductive file_run (p : path) (category : string) (subcat subsub : option string)
    (s : state) : result (option oid) -> state -> Prop :=
| Run_skipped e :
    Fs.readFileSync fs p = Throw e ->
    file_run p category subcat subsub s
      (Ok None) (logged (LogReadFailed (basename p) e) s)
| Run_undecodable b :
    Fs.readFileSync fs p = Ok b ->
    (forall m, ~ encodable b m) ->
    file_run p category subcat subsub s (Throw (SharpError b)) s
| Run_thumbnail_failed b m r e :
    Fs.readFileSync fs p = Ok b ->
    encodable b m ->
    upload_outcome w (List.length (journal s)) = r ->
    r <> Flushed ->
    file_run p category subcat subsub s (Throw e)
      (after_upload (basename p +:+ "-thumb.webp")
         (variant_tags category subcat subsub "thumbnail")
         (variant_image thumbPipeline b m) r s)
| Run_full_failed b m r e :
    Fs.readFileSync fs p = Ok b ->
    encodable b m ->
    upload_outcome w (List.length (journal s)) = Flushed ->
    let s1 := after_upload (basename p +:+ "-thumb.webp")
                (variant_tags category subcat subsub "thumbnail")
                (variant_image thumbPipeline b m) Flushed s in
    upload_outcome w (List.length (journal s1)) = r ->
    r <> Flushed ->
    file_run p category subcat subsub s (Throw e)
      (after_upload (basename p +:+ "-full.webp")
         (variant_tags category subcat subsub "full")
         (variant_image fullPipeline b m) r s1)
| Run_persisting b m ok :
    Fs.readFileSync fs p = Ok b ->
    encodable b m ->
    upload_outcome w (List.length (journal s)) = Flushed ->
    let s1 := after_upload (basename p +:+ "-thumb.webp")
                (variant_tags category subcat subsub "thumbnail")
                (variant_image thumbPipeline b m) Flushed s in
    upload_outcome w (List.length (journal s1)) = Flushed ->
    let s2 := after_upload (basename p +:+ "-full.webp")
                (variant_tags category subcat subsub "full")
                (variant_image fullPipeline b m) Flushed s1 in
    insert_outcome w (List.length (journal s2)) = ok ->
    let d := doc_of p category subcat subsub b m (next_oid s) (next_oid s1)
               (date_now w (List.length (journal s2))) in
    file_run p category subcat subsub s
      (if ok then Ok (Some (next_oid s2)) else Throw IndexWriteError)
      (if ok then logged (LogSuccess (basename p))
                    (store_doc d (record_op (OpInsert d true) s2))
       else record_op (OpInsert d false) s2).

(** A failure from the decoding step onward while [processFile] runs on
    [p] in state [s]: the codec rejects the buffer or one of its
    variants, an upload does not hand over a file, or the insert fails. *)
Inductive late_failure (p : path) (s : state) : Prop :=
| Decode_failure b :
    Fs.readFileSync fs p = Ok b ->
    (forall m, ~ encodable b m) ->
    late_failure p s
| Thumbnail_upload_failure b m :
    Fs.readFileSync fs p = Ok b ->
    encodable b m ->
    upload_outcome w (List.length (journal s)) <> Flushed ->
    late_failure p s
| Full_upload_failure b m :
    Fs.readFileSync fs p = Ok b ->
    encodable b m ->
    upload_outcome w (List.length (journal s)) = Flushed ->
    upload_outcome w (S (List.length (journal s))) <> Flushed ->
    late_failure p s
| Index_write_failure b m :
    Fs.readFileSync fs p = Ok b ->
    encodable b m ->
    upload_outcome w (List.length (journal s)) = Flushed ->
    upload_outcome w (S (List.length (journal s))) = Flushed ->
    insert_outcome w (S (S (List.length (journal s)))) = false ->
    late_failure p s.

End Vocabulary.

Definition doc_key (d : metaDoc) : string * string * option string * option string :=
  (filename d, category d, subcategory d, subsubcategory d).

(** Store operations and records added between two states of a run. *)
Definition ops_since (s s' : state) : list storeOp :=
  drop (List.length (journal s)) (journal s').
Definition docs_since (s s' : state) : list metaDoc :=
  map snd (drop (List.length (imagesMeta s)) (imagesMeta s')).
Definition lines_since (s s' : state) : list logLine :=
  drop (List.length (console s)) (console s').

Definition is_success (l : logLine) : bool :=
  match l with LogSuccess _ => true | _ => false end.
Definition is_skip (l : logLine) : bool :=
  match l with LogReadFailed _ _ => true | _ => false end.

(** Two disks hold the same tree: at every path both have a file with
    the same content, or both have a directory with the same names, in
    whatever order each keeps them, or both have nothing. *)
Definition same_tree (fs fs' : node) : Prop :=
  forall p,
    match resolve fs p, resolve fs' p with
    | Some (File c), Some (File c') => c = c'
    | Some (Dir es), Some (Dir es') => Permutation (map fst es) (map fst es')
    | None, None => True
    | _, _ => False
    end.

(** Lexical order of names. *)
Fixpoint lex_sorted (l : list string) : bool :=
  match l with
  | [] => true
  | a :: l' =>
      match l' with
      | [] => true
      | b :: _ => String.leb a b && lex_sorted l'
      end
  end.

Definition is_insert (op : storeOp) : bool :=
  match op with OpInsert _ _ => true | OpUpload _ _ _ _ => false end.

(** ** Sample inputs *)

Module Demo.

Definition byte_of (z : Z) : byte :=
  default "000"%byte (Byte.of_N (Z.to_N (z mod 256))).

(** A toy codec: a marker byte, the width on two bytes, the height on
    one byte (marker 255) or on two (marker 254), then the pixel data;
    without pixel data only the header reads. *)
Definition toy_codec (b : buffer) : Sharp.probe :=
  match b with
  | x :: wh :: wl :: h :: rest =>
      let width := Z.of_N (Byte.to_N wh) * 256 + Z.of_N (Byte.to_N wl) in
      if Byte.eqb x "255"%byte then
        let m := {| Sharp.width := width;
                    Sharp.height := Z.of_N (Byte.to_N h);
                    Sharp.format := "jpeg" |} in
        match rest with
        | [] => Sharp.HeaderOnly m
        | _ => Sharp.Decodable m
        end
      else if Byte.eqb x "254"%byte then
        match rest with
        | [] => Sharp.Undecodable
        | hl :: pixels =>
            let m := {| Sharp.width := width;
                        Sharp.height := Z.of_N (Byte.to_N h) * 256 + Z.of_N (Byte.to_N hl);
                        Sharp.format := "png" |} in
            match pixels with
            | [] => Sharp.HeaderOnly m
            | _ => Sharp.Decodable m
            end
        end
      else Sharp.Undecodable
  | _ => Sharp.Undecodable
  end.

Definition toy_webp (img : Sharp.image) : buffer :=
  [byte_of (Sharp.out_width img / 256); byte_of (Sharp.out_width img);
   byte_of (default 0 (Sharp.out_quality img))].

Definition photo (width : Z) : buffer :=
  ["255"%byte; byte_of (width / 256); byte_of width; "010"%byte; "042"%byte].

(** An image of any height up to 65535. *)
Definition tall_photo (width height : Z) : buffer :=
  ["254"%byte; byte_of (width / 256); byte_of width;
   byte_of (height / 256); byte_of height; "042"%byte].

Definition corrupt : buffer := ["000"%byte; "001"%byte].

Definition calm : world :=
  {| codec := toy_codec; webp_bytes := toy_webp; connect_ok := true;
     upload_outcome := fun _ => Flushed; insert_outcome := fun _ => true;
     date_now := fun n => 1700000000000 + Z.of_nat n |}.

(** The same world with the [n]-th store operation going wrong. *)
Definition upload_fault_at (n : nat) : world :=
  {| codec := toy_codec; webp_bytes := toy_webp; connect_ok := true;
     upload_outcome := fun k => if Nat.eqb k n then StreamFault else Flushed;
     insert_outcome := fun _ => true;
     date_now := fun n => 1700000000000 + Z.of_nat n |}.

Definition empty : state :=
  {| gridfs := ∅; imagesMeta := []; next_oid := 0%N; console := []; journal := [] |}.

Definition root : path := [].

(** [Ribbons/Velvet/a.jpg] *)
Definition ribbons : node :=
  Dir [("Ribbons", Dir [("Velvet", Dir [("a.jpg", File (Some (photo 2000)))])])].

(** A leaf category whose entries the disk keeps out of lexical order. *)
Definition unsorted : node :=
  Dir [("Lace", Dir [("b.jpg", File (Some (photo 800)));
                     ("a.jpg", File (Some (photo 10)))])].

(** A category where one file cannot be read and one is corrupt. *)
Definition mixed : node :=
  Dir [("Lace", Dir [("a.jpg", File (Some (photo 800)));
                     ("b.jpg", File None);
                     ("c.png", File (Some (photo 300)))])].

Definition broken : node :=
  Dir [("Lace", Dir [("a.jpg", File (Some (photo 800)));
                     ("b.jpg", File (Some corrupt));
                     ("c.png", File (Some (photo 300)))])].

(** A subcategory holding both a sub-subdirectory and a loose image. *)
Definition quirk : node :=
  Dir [("Ribbons",
        Dir [("Velvet", Dir [("loose.jpg", File (Some (photo 640)));
                             ("Cotton", Dir [("in.jpg", File (Some (photo 640)))])]);
             ("Satin", Dir [("s.webp", File (Some (photo 640)))])])].

Definition nothing : node := Dir [].

(** A decodable image too high for its full variant, and one too high
    for its placeholder. *)
Definition tall_tree : node :=
  Dir [("Lace", Dir [("tall.png", File (Some (tall_photo 1000 17000)))])].

Definition sliver : node :=
  Dir [("Lace", Dir [("sliver.png", File (Some (tall_photo 10 10000)))])].

Definition lace (f : string) : tuple := (["Lace"; f], "Lace", None, None).

(** The state of the run over [broken] once [a.jpg] is done. *)
Definition broken_s1 : state :=
  snd (for_of [lace "a.jpg"] (process_tuple calm broken) (logged LogConnected empty)).

Definition quirk_tuples : list tuple :=
  [(["Ribbons"; "Satin"; "s.webp"], "Ribbons", Some "Satin", None);
   (["Ribbons"; "Velvet"; "Cotton"; "in.jpg"], "Ribbons", Some "Velvet", Some "Cotton")].


Definition velvet_a : path := ["Ribbons"; "Velvet"; "a.jpg"].

(** The record [Ribbons/Velvet/a.jpg] gets in an empty store. *)
Definition ribbons_doc : metaDoc :=
  {| filename := "a.jpg"; alt := "a"; category := "Ribbons";
     subcategory := Some "Velvet"; subsubcategory := None;
     variants := {| thumbnailId := 0%N; fullId := 1%N |};
     lqip := "data:image/webp;base64,ABQe";
     original_ := {| orig_width := Some 2000; orig_height := Some 10;
                     orig_format := Some "jpeg" |};
     createdAt := 1700000000002 |}.

Definition ribbons_run : result (option oid) * state :=
  processFile calm ribbons velvet_a "Ribbons" (Some "Velvet") None empty.


End Demo.

Module ServerDemo.

Definition hex_digit (c : ascii) : option N :=
  let n := N_of_ascii c in
  if ((48 <=? n) && (n <=? 57))%N then Some (n - 48)%N
  else if ((97 <=? n) && (n <=? 102))%N then Some (n - 87)%N
  else if ((65 <=? n) && (n <=? 70))%N then Some (n - 55)%N
  else None.

Fixpoint hex_value (s : string) (acc : N) : option N :=
  match s with
  | EmptyString => Some acc
  | String c s' =>
      match hex_digit c with
      | Some d => hex_value s' (acc * 16 + d)%N
      | None => None
      end
  end.

(** Ids written as 24 hex digits. *)
Definition parse_hex24 (s : string) : option oid :=
  if (String.length s =? 24)%nat then hex_value s 0%N else None.

Definition whole : Server.download :=
  {| Server.chunks := [["001"%byte; "002"%byte]; ["003"%byte]]; Server.faults := false |}.

(** A stream that breaks after its first chunk, and one that breaks
    before any. *)
Definition cut_short : Server.download :=
  {| Server.chunks := [["001"%byte; "002"%byte]]; Server.faults := true |}.
Definition dead : Server.download :=
  {| Server.chunks := []; Server.faults := true |}.

Definition env : Server.env :=
  {| Server.parseObjectId := parse_hex24;
     Server.files :=
       <[1%N := {| Server.contentType := Some "image/webp" |}]>
         (<[2%N := {| Server.contentType := None |}]>
            (<[3%N := {| Server.contentType := Some "image/png" |}]> ∅));
     Server.openDownloadStream :=
       fun id => if (id =? 1)%N then whole
                 else if (id =? 2)%N then cut_short else dead |}.

Definition id1 : string := "000000000000000000000001".
Definition id2 : string := "000000000000000000000002".
Definition id3 : string := "000000000000000000000003".

End ServerDemo.

(** ** Consistency of the two stores *)

(** A record's two references resolve to files of the bucket that were
    uploaded for the same source file: the right variant tags, the
    record's classification and the names [processFile] gives them. *)
Definition references_ok (s : state) (d : metaDoc) : Prop :=
  exists tf ff,
    gridfs s !! thumbnailId (variants d) = Some tf /\
    gridfs s !! fullId (variants d) = Some ff /\
    thumbnailId (variants d) <> fullId (variants d) /\
    file_name tf = filename d +:+ "-thumb.webp" /\
    file_name ff = filename d +:+ "-full.webp" /\
    tag_variant (file_metadata tf) = "thumbnail" /\
    tag_variant (file_metadata ff) = "full" /\
    tag_category (file_metadata tf) = category d /\
    tag_category (file_metadata ff) = category d /\
    tag_subcategory (file_metadata tf) = subcategory d /\
    tag_subcategory (file_metadata ff) = subcategory d.

(** Ids in use lie below the next id to assign, files sit under their own
    id, records and files do not share ids, record ids are distinct, and
    every record's references are in order. *)
Definition store_ok (s : state) : Prop :=
  (forall k f, gridfs s !! k = Some f -> file_id f = k /\ (k < next_oid s)%N) /\
  (forall id d, In (id, d) (imagesMeta s) ->
     (id < next_oid s)%N /\ gridfs s !! id = None /\ references_ok s d) /\
  NoDup (map fst (imagesMeta s)).

(** [s'] has everything [s] had: records, store operations and console
    lines of [s] are a prefix of those of [s'], and the bucket is the same
    at every id [s] had assigned. *)
Definition extends (s s' : state) : Prop :=
  (exists new, imagesMeta s' = imagesMeta s ++ new) /\
  (exists ops, journal s' = journal s ++ ops) /\
  (exists lines, console s' = console s ++ lines) /\
  (next_oid s <= next_oid s')%N /\
  (forall k, (k < next_oid s)%N -> gridfs s' !! k = gridfs s !! k).

(** ** Trees as file systems have them *)

Fixpoint distinct (l : list string) : bool :=
  match l with
  | [] => true
  | x :: l' => negb (existsb (String.eqb x) l') && distinct l'
  end.

(** No directory of the tree lists a name twice. *)
Fixpoint unique_names (n : node) : bool :=
  match n with
  | File _ => true
  | Dir es =>
      distinct (map fst es)
      && (fix all (l : list (string * node)) : bool :=
            match l with
            | [] => true
            | (_, c) :: l' => unique_names c && all l'
            end) es
  end.

(** The path of a yielded tuple, the first argument of [processFile]. *)
Definition path_of (t : tuple) : path := fst (fst (fst t)).

(** ** The order of store operations *)

(** A store operation seen from outside: its kind and the name it bears. *)
Definition op_view (op : storeOp) : string * string :=
  match op with
  | OpUpload name t _ _ => (tag_variant t, name)
  | OpInsert d _ => ("record", filename d)
  end.

(** The three operations of a file that goes through, in order. *)
Definition ops_of_file (t : tuple) : list (string * string) :=
  let f := basename (fst (fst (fst t))) in
  [("thumbnail", f +:+ "-thumb.webp"); ("full", f +:+ "-full.webp"); ("record", f)].

Definition op_succeeded (op : storeOp) : bool :=
  match op with
  | OpUpload _ _ _ Flushed => true
  | OpUpload _ _ _ _ => false
  | OpInsert _ ok => ok
  end.

(** ** The read side: [GET /api/metadata] *)

Module Metadata.

(** A value of [req.query] as Express hands it to the handler: a text, a
    list (a parameter given several times) or an object (a parameter
    given with a bracketed key, as in [subcategory[$ne]=x]). *)
Inductive qvalue :=
| QString (s : string)
| QArray (l : list qvalue)
| QObject (fields : list (string * qvalue)).

Record query := {
  category_param : option qvalue;
  subcategory_param : option qvalue;
  subsubcategory_param : option qvalue;
  limit_param : option qvalue
}.

(** [if (v)]: the absent value and the empty text do not count, every
    other value does. *)
Definition given (v : option qvalue) : option qvalue :=
  match v with
  | Some (QString s) => if String.eqb s EmptyString then None else v
  | _ => v
  end.

(** The text [parseInt] makes of its argument: a text is itself, a list
    is its elements joined by commas, an object is [[object Object]]. *)
Fixpoint text_of (v : qvalue) : string :=
  match v with
  | QString s => s
  | QArray l =>
      (fix commas (l : list qvalue) : string :=
         match l with
         | [] => EmptyString
         | x :: l' =>
             match l' with
             | [] => text_of x
             | _ => text_of x +:+ "," +:+ commas l'
             end
         end) l
  | QObject _ => "[object Object]"
  end.

(** What the route takes from the driver and the language: the sort of a
    cursor by [createdAt] descending, the limit of a cursor given what
    [parseInt] returned ([None] for [NaN]), [parseInt(text, 10)],
    [ObjectId.prototype.toString], and whether a field of a document, a
    text or [null], satisfies a filter value that is a list or an
    object, which the query language of the store decides. *)
Record driver := {
  sort_createdAt_desc : list (oid * metaDoc) -> list (oid * metaDoc);
  cursor_limit : option Z -> list (oid * metaDoc) -> result (list (oid * metaDoc));
  parseInt : string -> option Z;
  toString : oid -> string;
  satisfies : qvalue -> option string -> bool
}.

Definition newer_first (a b : oid * metaDoc) : Prop :=
  createdAt (snd b) <= createdAt (snd a).

#[global] Instance newer_first_dec (a b : oid * metaDoc) : Decision (newer_first a b).
Proof. unfold newer_first; apply _. Defined.

(** What is assumed of the sort: it permutes its input and orders it
    newest first (the order among equal dates is left open). *)
Record driver_ok (D : driver) : Prop := {
  sort_permutes : forall l, Permutation (sort_createdAt_desc D l) l;
  sort_orders : forall l, StronglySorted newer_first (sort_createdAt_desc D l)
}.

(** One entry of the filter [q]: [if (param) q.field = param].  A text
    asks for a field equal to it. *)
Definition condition (D : driver) (param : option qvalue) (field : option string) : bool :=
  match given param with
  | None => true
  | Some (QString v) => bool_decide (field = Some v)
  | Some v => satisfies D v field
  end.

Definition matches (D : driver) (q : query) (d : metaDoc) : bool :=
  condition D (category_param q) (Some (category d))
  && condition D (subcategory_param q) (subcategory d)
  && condition D (subsubcategory_param q) (subsubcategory d).

(** An element of the answer: the document with its id and its two
    variant ids replaced by their strings. *)
Record item := {
  item_id : string;
  item_doc : metaDoc;
  item_thumbnailId : string;
  item_fullId : string
}.

Definition render (D : driver) (r : oid * metaDoc) : item :=
  {| item_id := toString D (fst r);
     item_doc := snd r;
     item_thumbnailId := toString D (thumbnailId (variants (snd r)));
     item_fullId := toString D (fullId (variants (snd r))) |}.

(** The documents the cursor delivers. *)
Definition find (D : driver) (coll : list (oid * metaDoc)) (q : query)
    : result (list (oid * metaDoc)) :=
  let cursor := sort_createdAt_desc D (List.filter (fun r => matches D q (snd r)) coll) in
  match given (limit_param q) with
  | Some limit => cursor_limit D (parseInt D (text_of limit)) cursor
  | None => Ok cursor
  end.

(** The handler: [Ok out] stands for [res.json(out)]. *)
Definition get_metadata (D : driver) (coll : list (oid * metaDoc)) (q : query)
    : result (list item) :=
  let? results := find D coll q in
  Ok (map (render D) results).

Definition newer_item_first (a b : item) : Prop :=
  createdAt (item_doc b) <= createdAt (item_doc a).

Definition no_filter : query :=
  {| category_param := None; subcategory_param := None;
     subsubcategory_param := None; limit_param := None |}.

End Metadata.

(** A read-side environment that serves the bucket of [s]: every file of
    the bucket has its document, and its stream delivers its bytes
    without a fault. *)
Definition backed_by (w : world) (s : state) (e : Server.env) : Prop :=
  forall k f, gridfs s !! k = Some f ->
    Server.files e !! k = Some {| Server.contentType := Some (file_contentType f) |}
    /\ Server.faults (Server.openDownloadStream e k) = false
    /\ List.concat (Server.chunks (Server.openDownloadStream e k))
       = webp_bytes w (file_data f).

Module ReadDemo.

Definition hex_char (d : N) : ascii :=
  default "0"%char (String.get (N.to_nat d) "0123456789abcdef").

Fixpoint hex_digits (n : nat) (k : N) : string :=
  match n with
  | O => EmptyString
  | S n' => hex_digits n' (k / 16)%N +:+ String (hex_char (k mod 16)%N) EmptyString
  end.

Definition to_hex24 (k : oid) : string := hex_digits 24 k.

(** Leading digits of a decimal text, for [parseInt] on plain numbers. *)
Fixpoint digits_value (s : string) (acc : option Z) : option Z :=
  match s with
  | EmptyString => acc
  | String c s' =>
      let n := Z.of_N (N_of_ascii c) in
      if (48 <=? n) && (n <=? 57)
      then digits_value s' (Some (default 0 acc * 10 + (n - 48)))
      else acc
  end.

Definition driver : Metadata.driver :=
  {| Metadata.sort_createdAt_desc := merge_sort Metadata.newer_first;
     Metadata.cursor_limit :=
       fun n l => match n with
                  | Some n => if 0 <? n then Ok (firstn (Z.to_nat n) l)
                              else if n =? 0 then Ok l else Throw IndexWriteError
                  | None => Throw IndexWriteError
                  end;
     Metadata.parseInt := fun s => digits_value s None;
     Metadata.toString := to_hex24;
     Metadata.satisfies := fun _ _ => false |}.

(** The bucket of [s] served in one chunk per file. *)
Definition env_over (w : world) (s : state) : Server.env :=
  {| Server.parseObjectId := ServerDemo.parse_hex24;
     Server.files :=
       (fun f => {| Server.contentType := Some (file_contentType f) |}) <$> gridfs s;
     Server.openDownloadStream :=
       fun k => match gridfs s !! k with
                | Some f => {| Server.chunks := [webp_bytes w (file_data f)];
                               Server.faults := false |}
                | None => {| Server.chunks := []; Server.faults := true |}
                end |}.

(** The stores after the run over [Demo.ribbons]. *)
Definition after_ribbons : state :=
  snd (main Demo.calm Demo.ribbons Demo.root Demo.empty).

Definition record (name : string) (sub : option string) (at_ : Z) (tid : oid)
    : oid * metaDoc :=
  ((tid + 2)%N,
   {| filename := name; alt := name; category := "Ribbons"; subcategory := sub;
      subsubcategory := None;
      variants := {| thumbnailId := tid; fullId := (tid + 1)%N |};
      lqip := "data:image/webp;base64,";
      original_ := {| orig_width := None; orig_height := None; orig_format := None |};
      createdAt := at_ |}).

Definition shelf : list (oid * metaDoc) :=
  [record "a.jpg" (Some "Velvet") 10 0%N; record "b.jpg" (Some "Satin") 30 3%N;
   record "c.jpg" (Some "Velvet") 20 6%N; record "d.jpg" None 40 9%N].

Definition velvet : Metadata.query :=
  {| Metadata.category_param := Some (Metadata.QString "Ribbons");
     Metadata.subcategory_param := Some (Metadata.QString "Velvet");
     Metadata.subsubcategory_param := Some (Metadata.QString EmptyString);
     Metadata.limit_param := None |}.

(** [Ribbons/Velvet/a.jpg] when the second store operation, the full
    upload, faults. *)
Definition cut_run : result (option oid) * state :=
  processFile (Demo.upload_fault_at 1) Demo.ribbons Demo.velvet_a "Ribbons"
    (Some "Velvet") None Demo.empty.

(** The thumbnail of [Demo.photo 2000]. *)
Definition sample_image : Sharp.image :=
  {| Sharp.out_width := 600; Sharp.out_height := 3; Sharp.out_quality := Some 75;
     Sharp.out_blur := None; Sharp.out_of := Demo.photo 2000 |}.

End ReadDemo.

(** * Properties *)

(** ** The monad *)

Lemma for_of_app {S A} (l1 l2 : list A) (body : A -> ST S unit) (s : S) :
  for_of (l1 ++ l2) body s = (for_of l1 body ;; for_of l2 body) s.
Proof.
  revert s; induction l1 as [|x l1 IH]; intros s; simpl.
  - reflexivity.
  - unfold bind in *. destruct (body x s) as [[[]|e] s1]; [apply IH | reflexivity].
Qed.

Lemma bind_run {S A B} (m : ST S A) (k : A -> ST S B) (s : S) :
  bind m k s = match m s with
               | (Ok a, s') => k a s'
               | (Throw e, s') => (Throw e, s')
               end.
Proof. reflexivity. Qed.

Lemma bind_congr {S A B} (m : ST S A) (k1 k2 : A -> ST S B) (s : S) :
  (forall a s', k1 a s' = k2 a s') -> bind m k1 s = bind m k2 s.
Proof.
  intros H; rewrite !bind_run. destruct (m s) as [[a|e] s']; [apply H | reflexivity].
Qed.

Lemma bind_lift {S A B} (r : result A) (k : A -> ST S B) (s : S) :
  bind (lift r) k s = match r with Ok a => k a s | Throw e => (Throw e, s) end.
Proof. unfold bind, lift; destruct r; reflexivity. Qed.

(** Nested loops whose inner bounds never throw run the inner body over
    the concatenation of the inner sequences. *)
Lemma for_of_flatten {S A B} (W : A -> result (list B))
    (body : A -> ST S unit) (inner : B -> ST S unit) (l : list A) :
  (forall x, In x l -> exists ts, W x = Ok ts /\ forall s, body x s = for_of ts inner s) ->
  exists tss, concat_results (map W l) = Ok tss
              /\ forall s, for_of l body s = for_of tss inner s.
Proof.
  induction l as [|x l IH]; intros H.
  - exists []; split; reflexivity.
  - destruct (H x (or_introl eq_refl)) as (ts & Hts & Hbody).
    destruct IH as (tss & Htss & Hrest).
    { intros y Hy; apply H; right; exact Hy. }
    exists (ts ++ tss); split.
    + simpl; rewrite Hts; simpl; rewrite Htss; reflexivity.
    + intros s; rewrite for_of_app; simpl; unfold bind.
      rewrite Hbody. destruct (for_of ts inner s) as [[[]|e] s1]; [apply Hrest | reflexivity].
Qed.

(** ** The file system *)

Section FileSystem.

Variable fs : node.

Lemma assoc_listed {A} (k : string) (l : list (string * A)) :
  In k (map fst l) -> exists v, assoc k l = Some v.
Proof.
  induction l as [|[k' v] l IH]; simpl; [tauto|].
  intros [->|H].
  - rewrite String.eqb_refl; eauto.
  - destruct (String.eqb k k'); eauto.
Qed.

Lemma resolve_app (n : node) (p q : path) :
  resolve n (p ++ q) = match resolve n p with
                       | Some m => resolve m q
                       | None => None
                       end.
Proof.
  revert n; induction p as [|x p IH]; intros n; simpl; [reflexivity|].
  destruct n as [c|es]; [reflexivity|].
  destruct (assoc x es); [apply IH | reflexivity].
Qed.

Lemma resolve_listed (dir : path) es (f : string) :
  resolve fs dir = Some (Dir es) -> In f (map fst es) ->
  exists n, resolve fs (join dir f) = Some n.
Proof.
  intros Hd Hf; unfold join; rewrite resolve_app, Hd; simpl.
  destruct (assoc_listed f es Hf) as [v ->]; eauto.
Qed.

(** On the names of a listing [statSync] does not throw, so the filter
    keeps exactly the names that are directories, in listing order. *)
Lemma keep_dirs_listed (dir : path) es (names : list string) :
  resolve fs dir = Some (Dir es) -> incl names (map fst es) ->
  keep_dirs fs dir names = Ok (List.filter (dirb fs dir) names).
Proof.
  intros Hd; induction names as [|f names IH]; intros Hin; simpl; [reflexivity|].
  destruct (resolve_listed dir es f Hd (Hin f (or_introl eq_refl))) as [n Hn].
  rewrite IH by (intros y Hy; apply Hin; right; exact Hy).
  unfold Fs.isDirectory, dirb; rewrite Hn; destruct n; reflexivity.
Qed.

Lemma sort_names_In (l : list string) (x : string) : In x (sort_names l) <-> In x l.
Proof.
  unfold sort_names. rewrite <- !list_elem_of_In, merge_sort_Permutation. reflexivity.
Qed.

Lemma list_dirs_dir (dir : path) es :
  resolve fs dir = Some (Dir es) ->
  list_dirs fs dir = Ok (List.filter (dirb fs dir) (sort_names (map fst es))).
Proof.
  intros Hd; unfold list_dirs, Fs.readdirSync; rewrite Hd; simpl.
  apply (keep_dirs_listed dir es); [exact Hd | intros y Hy; apply sort_names_In, Hy].
Qed.

Lemma list_dirs_inv (dir : path) (ds : list string) :
  list_dirs fs dir = Ok ds ->
  exists es, resolve fs dir = Some (Dir es)
            /\ ds = List.filter (dirb fs dir) (sort_names (map fst es)).
Proof.
  intros H. unfold list_dirs, Fs.readdirSync in H.
  destruct (resolve fs dir) as [[c|es]|] eqn:Hd; try discriminate.
  exists es; split; [reflexivity|]. simpl in H.
  rewrite (keep_dirs_listed dir es (sort_names (map fst es)) Hd) in H
    by (intros y Hy; apply sort_names_In, Hy).
  congruence.
Qed.

Lemma list_dirs_are_dirs (dir : path) (ds : list string) (d : string) :
  list_dirs fs dir = Ok ds -> In d ds -> is_dir fs (join dir d).
Proof.
  intros H Hd. destruct (list_dirs_inv dir ds H) as (es & _ & ->).
  apply filter_In in Hd as [_ Hb]. unfold dirb in Hb. unfold is_dir.
  destruct (resolve fs (join dir d)) as [[c|es']|]; try discriminate; eauto.
Qed.

Lemma list_dirs_total (dir : path) :
  is_dir fs dir -> exists ds, list_dirs fs dir = Ok ds.
Proof. intros [es Hd]; rewrite (list_dirs_dir dir es Hd); eauto. Qed.

Lemma list_images_dir (dir : path) es :
  resolve fs dir = Some (Dir es) ->
  list_images fs dir = Ok (List.filter Pattern.test (sort_names (map fst es))).
Proof. intros Hd; unfold list_images, Fs.readdirSync; rewrite Hd; reflexivity. Qed.

Lemma list_images_total (dir : path) :
  is_dir fs dir -> exists files, list_images fs dir = Ok files.
Proof. intros [es Hd]; rewrite (list_images_dir dir es Hd); eauto. Qed.

Lemma basename_join (dir : path) (f : string) : basename (join dir f) = f.
Proof. unfold basename, join; apply last_last. Qed.

End FileSystem.

(** ** The loops and the walker *)

Section Walker.

Variable w : world.
Variable fs : node.
Variable base : path.

Lemma process_files_tuples dir c sc ss files s :
  process_files w fs dir c sc ss files s
  = for_of (tuples_in dir c sc ss files) (process_tuple w fs) s.
Proof.
  unfold process_files; revert s; induction files as [|f files IH]; intros s.
  - reflexivity.
  - simpl. rewrite basename_join. apply bind_congr; intros _ s'; apply IH.
Qed.

Lemma subsub_turn c sc (subcatPath : path) (subsub : string) :
  is_dir fs (join subcatPath subsub) ->
  exists ts, walk_subsub fs c sc subcatPath subsub = Ok ts
    /\ forall s,
        (let! files := lift (list_images fs (join subcatPath subsub)) in
         process_files w fs (join subcatPath subsub) c (Some sc) (Some subsub) files) s
        = for_of ts (process_tuple w fs) s.
Proof.
  intros Hd. destruct (list_images_total fs _ Hd) as [files Hf].
  unfold walk_subsub; rewrite Hf; simpl. eexists; split; [reflexivity|].
  intros s; rewrite bind_lift. apply process_files_tuples.
Qed.

Lemma subcat_turn c (categoryPath : path) (subcat : string) :
  is_dir fs (join categoryPath subcat) ->
  exists ts, walk_subcat fs c categoryPath subcat = Ok ts
    /\ forall s,
        (let subcatPath := join categoryPath subcat in
         let! subsubdirs := lift (list_dirs fs subcatPath) in
         if (0 <? List.length subsubdirs)%nat then
           for_of subsubdirs (fun subsub =>
             let subsubPath := join subcatPath subsub in
             let! files := lift (list_images fs subsubPath) in
             process_files w fs subsubPath c (Some subcat) (Some subsub) files)
         else
           let! files := lift (list_images fs subcatPath) in
           process_files w fs subcatPath c (Some subcat) None files) s
        = for_of ts (process_tuple w fs) s.
Proof.
  intros Hd. destruct (list_dirs_total fs _ Hd) as [ds Hds].
  unfold walk_subcat; rewrite Hds; simpl.
  destruct (0 <? List.length ds)%nat eqn:Hlen.
  - destruct (for_of_flatten (S := state)
                (walk_subsub fs c subcat (join categoryPath subcat))
                (fun subsub =>
                   let subsubPath := join (join categoryPath subcat) subsub in
                   let! files := lift (list_images fs subsubPath) in
                   process_files w fs subsubPath c (Some subcat) (Some subsub) files)
                (process_tuple w fs) ds) as (tss & Htss & Hrun).
    { intros x Hx. apply subsub_turn. eapply list_dirs_are_dirs; eauto. }
    exists tss; split; [exact Htss|].
    intros s; cbv zeta; rewrite bind_lift, ?Hds; cbn iota; rewrite ?Hlen. apply Hrun.
  - destruct (list_images_total fs _ Hd) as [files Hf]. rewrite Hf; simpl.
    eexists; split; [reflexivity|].
    intros s; cbv zeta; rewrite bind_lift, ?Hds; cbn iota.
    rewrite ?Hlen, bind_lift, ?Hf. apply process_files_tuples.
Qed.

Lemma category_turn (category : string) :
  is_dir fs (join base category) ->
  exists ts, walk_category fs base category = Ok ts
    /\ forall s,
        (let categoryPath := join base category in
         let! subcategories := lift (list_dirs fs categoryPath) in
         if (List.length subcategories =? 0)%nat then
           let! files := lift (list_images fs categoryPath) in
           process_files w fs categoryPath category None None files
         else
           for_of subcategories (fun subcat =>
             let subcatPath := join categoryPath subcat in
             let! subsubdirs := lift (list_dirs fs subcatPath) in
             if (0 <? List.length subsubdirs)%nat then
               for_of subsubdirs (fun subsub =>
                 let subsubPath := join subcatPath subsub in
                 let! files := lift (list_images fs subsubPath) in
                 process_files w fs subsubPath category (Some subcat) (Some subsub) files)
             else
               let! files := lift (list_images fs subcatPath) in
               process_files w fs subcatPath category (Some subcat) None files)) s
        = for_of ts (process_tuple w fs) s.
Proof.
  intros Hd. destruct (list_dirs_total fs _ Hd) as [ds Hds].
  unfold walk_category; rewrite Hds; simpl.
  destruct (List.length ds =? 0)%nat eqn:Hlen.
  - destruct (list_images_total fs _ Hd) as [files Hf]. rewrite Hf; simpl.
    eexists; split; [reflexivity|].
    intros s; cbv zeta; rewrite bind_lift, ?Hds; cbn iota.
    rewrite ?Hlen, bind_lift, ?Hf. apply process_files_tuples.
  - destruct (for_of_flatten (S := state)
                (walk_subcat fs category (join base category))
                _ (process_tuple w fs) ds
                (fun x Hx => subcat_turn category (join base category) x
                               (list_dirs_are_dirs fs _ ds x Hds Hx)))
      as (tss & Htss & Hrun).
    exists tss; split; [exact Htss|].
    intros s; cbv zeta; rewrite bind_lift, ?Hds; cbn iota; rewrite ?Hlen. apply Hrun.
Qed.

(** The nested loops of [walkAndUpload] hand to [processFile] exactly the
    tuples of [walk], in that order; a listing of the root that throws
    ends both before any file. *)
Lemma walk_loops_walk (s : state) :
  walk_loops w fs base s
  = (let! ts := lift (walk fs base) in for_of ts (process_tuple w fs)) s.
Proof.
  unfold walk_loops, walk; rewrite !bind_lift.
  destruct (list_dirs fs base) as [cats|e] eqn:Hc; [|reflexivity]. simpl.
  destruct (for_of_flatten (S := state) (walk_category fs base) _
              (process_tuple w fs) cats
              (fun x Hx => category_turn x (list_dirs_are_dirs fs _ cats x Hc Hx)))
    as (tss & Htss & Hrun).
  rewrite Htss. apply Hrun.
Qed.

End Walker.

(** ** One file *)

Section OneFile.

Variable w : world.
Variable fs : node.

Lemma toBuffer_decodable (pl : buffer -> Sharp.pipeline) b m :
  Sharp.input (pl b) = b -> codec w b = Sharp.Decodable m ->
  Sharp.output_fits (pl b) m = true ->
  Sharp.toBuffer (codec w) (pl b) = Ok (variant_image pl b m).
Proof.
  intros Hi Hc Hf; unfold Sharp.toBuffer, variant_image; rewrite Hi, Hc, Hf; reflexivity.
Qed.

Lemma toBuffer_too_large (pl : buffer -> Sharp.pipeline) b m :
  Sharp.input (pl b) = b -> codec w b = Sharp.Decodable m ->
  Sharp.output_fits (pl b) m = false ->
  Sharp.toBuffer (codec w) (pl b) = Throw (SharpError b).
Proof.
  intros Hi Hc Hf; unfold Sharp.toBuffer; rewrite Hi, Hc, Hf; reflexivity.
Qed.

(** What [toBuffer] returns it returns as [variant_image] has it. *)
Lemma toBuffer_Ok (pl : buffer -> Sharp.pipeline) b img :
  Sharp.input (pl b) = b ->
  Sharp.toBuffer (codec w) (pl b) = Ok img ->
  exists m, codec w b = Sharp.Decodable m
            /\ Sharp.output_fits (pl b) m = true /\ img = variant_image pl b m.
Proof.
  intros Hi; unfold Sharp.toBuffer, variant_image; rewrite Hi.
  destruct (codec w b) as [|m|m]; try discriminate.
  destruct (Sharp.output_fits (pl b) m) eqn:F; [|discriminate].
  intros [= <-]. exists m. split; [reflexivity|]. split; [exact F | reflexivity].
Qed.

(** Every call of [processFile] goes one of the ways of [file_run]. *)
Lemma processFile_run p c sc ss s :
  file_run w fs p c sc ss s
    (fst (processFile w fs p c sc ss s)) (snd (processFile w fs p c sc ss s)).
Proof.
  unfold processFile.
  destruct (Fs.readFileSync fs p) as [b|e] eqn:Hread.
  2:{ apply Run_skipped; exact Hread. }
  rewrite !bind_lift. unfold Sharp.get_metadata; simpl.
  destruct (codec w b) as [|m|m] eqn:Hc.
  { apply Run_undecodable; [exact Hread | intros m [Hm _]; congruence]. }
  { rewrite !bind_lift.
    assert (Sharp.toBuffer (codec w) (thumbPipeline b) = Throw (SharpError b)) as ->
      by (unfold Sharp.toBuffer; simpl; rewrite Hc; reflexivity).
    apply Run_undecodable; [exact Hread | intros m' [Hm _]; congruence]. }
  destruct (Sharp.output_fits (thumbPipeline b) m) eqn:F1.
  2:{ rewrite (toBuffer_too_large thumbPipeline b m eq_refl Hc F1).
      apply Run_undecodable; [exact Hread | intros m' (Hm & F & _); congruence]. }
  rewrite (toBuffer_decodable thumbPipeline b m eq_refl Hc F1).
  destruct (Sharp.output_fits (fullPipeline b) m) eqn:F2.
  2:{ rewrite (toBuffer_too_large fullPipeline b m eq_refl Hc F2).
      apply Run_undecodable; [exact Hread | intros m' (Hm & _ & F & _); congruence]. }
  rewrite (toBuffer_decodable fullPipeline b m eq_refl Hc F2).
  destruct (Sharp.output_fits (lqipPipeline b) m) eqn:F3.
  2:{ rewrite (toBuffer_too_large lqipPipeline b m eq_refl Hc F3).
      apply Run_undecodable; [exact Hread | intros m' (Hm & _ & _ & F); congruence]. }
  rewrite (toBuffer_decodable lqipPipeline b m eq_refl Hc F3).
  assert (He : encodable w b m) by (repeat split; assumption).
  unfold bind, lift, uploadBufferToGridFS, new_Date, insertOne, console_log, ret.
  cbn beta iota zeta.
  destruct (upload_outcome w (List.length (journal s))) eqn:Hu1; cbn beta iota zeta.
  2:{ eapply (Run_thumbnail_failed w fs p c sc ss s b m StreamFault); eauto; congruence. }
  2:{ eapply (Run_thumbnail_failed w fs p c sc ss s b m SilentFinish); eauto; congruence. }
  match goal with |- context [upload_outcome w (List.length (journal ?s1))] =>
    destruct (upload_outcome w (List.length (journal s1))) eqn:Hu2 end;
    cbn beta iota zeta.
  2:{ eapply (Run_full_failed w fs p c sc ss s b m StreamFault); eauto; congruence. }
  2:{ eapply (Run_full_failed w fs p c sc ss s b m SilentFinish); eauto; congruence. }
  match goal with |- context [insert_outcome w (List.length (journal ?s2))] =>
    destruct (insert_outcome w (List.length (journal s2))) eqn:Hi end;
    cbn beta iota zeta.
  - eapply (Run_persisting w fs p c sc ss s b m true); eauto.
  - eapply (Run_persisting w fs p c sc ss s b m false); eauto.
Qed.

End OneFile.

(** ** What one file leaves behind *)

Section FileFacts.

Variable w : world.
Variable fs : node.

Lemma journal_after_upload name t img r s :
  journal (after_upload name t img r s) = journal s ++ [OpUpload name t img r].
Proof. destruct r; reflexivity. Qed.

Lemma imagesMeta_after_upload name t img r s :
  imagesMeta (after_upload name t img r s) = imagesMeta s.
Proof. destruct r; reflexivity. Qed.

Lemma console_after_upload name t img r s :
  console (after_upload name t img r s) = console s.
Proof. destruct r; reflexivity. Qed.

Lemma length_snoc {A} (l : list A) (x : A) : List.length (l ++ [x]) = S (List.length l).
Proof. rewrite length_app; simpl; lia. Qed.

(** A call that returns an id read its file, got both uploads through and
    wrote one record; the state it leaves is spelled out. *)
Lemma processFile_done p c sc ss s id s' :
  processFile w fs p c sc ss s = (Ok (Some id), s') ->
  exists b m,
    Fs.readFileSync fs p = Ok b /\ encodable w b m /\
    let s1 := after_upload (basename p +:+ "-thumb.webp")
                (variant_tags c sc ss "thumbnail")
                (variant_image thumbPipeline b m) Flushed s in
    let s2 := after_upload (basename p +:+ "-full.webp")
                (variant_tags c sc ss "full")
                (variant_image fullPipeline b m) Flushed s1 in
    let d := doc_of w p c sc ss b m (next_oid s) (next_oid s1)
               (date_now w (List.length (journal s2))) in
    upload_outcome w (List.length (journal s)) = Flushed /\
    upload_outcome w (List.length (journal s1)) = Flushed /\
    insert_outcome w (List.length (journal s2)) = true /\
    id = next_oid s2 /\
    s' = logged (LogSuccess (basename p)) (store_doc d (record_op (OpInsert d true) s2)).
Proof.
  intros H. pose proof (processFile_run w fs p c sc ss s) as R.
  rewrite H in R; simpl in R.
  inversion R as [e He | b Hb Hc | b m r e Hb Hc Hu Hr | b m r e Hb Hc Hu1 s1 Hu2 Hr
                  | b m ok Hb Hc Hu1 s1 Hu2 s2 Hi d Hres Hst].
  destruct ok; [|discriminate].
  exists b, m. injection Hres as <-. split; [exact Hb|]. split; [exact Hc|].
  repeat split; try assumption; reflexivity.
Qed.

(** A call that returns [null] failed at the read and only wrote to the
    console. *)
Lemma processFile_skipped p c sc ss s s' :
  processFile w fs p c sc ss s = (Ok None, s') ->
  exists e, Fs.readFileSync fs p = Throw e /\ s' = logged (LogReadFailed (basename p) e) s.
Proof.
  intros H. pose proof (processFile_run w fs p c sc ss s) as R.
  rewrite H in R; simpl in R.
  inversion R as [e He | b Hb Hc | b m r e Hb Hc Hu Hr | b m r e Hb Hc Hu1 s1 Hu2 Hr
                  | b m ok Hb Hc Hu1 s1 Hu2 s2 Hi d Hres Hst].
  - exists e; split; [assumption | reflexivity].
  - destruct ok; discriminate.
Qed.

(** A call that throws had read its file, wrote no record and nothing to
    the console. *)
Lemma processFile_thrown p c sc ss s e s' :
  processFile w fs p c sc ss s = (Throw e, s') ->
  late_failure w fs p s /\ imagesMeta s' = imagesMeta s /\ console s' = console s.
Proof.
  intros H. pose proof (processFile_run w fs p c sc ss s) as R.
  rewrite H in R; simpl in R.
  inversion R as [e0 He | b Hb Hc | b m r e0 Hb Hc Hu Hr | b m r e0 Hb Hc Hu1 s1 Hu2 Hr
                  | b m ok Hb Hc Hu1 s1 Hu2 s2 Hi d Hres Hst]; subst.
  - split; [eapply Decode_failure; eauto | split; reflexivity].
  - split; [eapply Thumbnail_upload_failure; eauto|].
    rewrite imagesMeta_after_upload, console_after_upload; split; reflexivity.
  - split.
    + eapply Full_upload_failure; eauto.
      subst s1; rewrite journal_after_upload, length_snoc in Hr; exact Hr.
    + rewrite !imagesMeta_after_upload, !console_after_upload; split; reflexivity.
  - destruct (insert_outcome w (List.length (journal s2))) eqn:Hi; [discriminate|].
    split.
    + subst s2 s1; rewrite !journal_after_upload, !length_snoc in *.
      eapply Index_write_failure; eauto.
    + split; reflexivity.
Qed.

(** Console output does not bear on a late failure. *)
Lemma late_failure_logged p l s :
  late_failure w fs p (logged l s) <-> late_failure w fs p s.
Proof.
  split; intros F;
    destruct F as [b Hb Hn | b m Hb Hc Hu | b m Hb Hc Hu Hu' | b m Hb Hc Hu Hu' Hi];
    [ eapply Decode_failure | eapply Thumbnail_upload_failure
    | eapply Full_upload_failure | eapply Index_write_failure
    | eapply Decode_failure | eapply Thumbnail_upload_failure
    | eapply Full_upload_failure | eapply Index_write_failure ]; eauto.
Qed.

(** Conversely a late failure makes the call throw. *)
Lemma late_failure_throws p c sc ss s :
  late_failure w fs p s ->
  exists e s', processFile w fs p c sc ss s = (Throw e, s').
Proof.
  intros F.
  destruct (processFile w fs p c sc ss s) as [[[id|]|e] s'] eqn:H; [| |eauto].
  - exfalso. apply processFile_done in H as (b & m & Hb & Hc & H).
    cbv zeta in H. destruct H as (Hu1 & Hu2 & Hi & _).
    rewrite !journal_after_upload, !length_snoc in *.
    destruct F as [b' Hb' Hn | b' m' Hb' Hc' Hu | b' m' Hb' Hc' Hu Hu' | b' m' Hb' Hc' Hu Hu' Hi'];
      rewrite Hb in Hb'; injection Hb' as <-; [exact (Hn m Hc) | congruence ..].
  - exfalso. apply processFile_skipped in H as (e & He & _).
    destruct F; congruence.
Qed.

End FileFacts.

(** ** A whole run *)

Section Run.

Variable w : world.
Variable fs : node.

Lemma process_tuple_run p c sc ss s :
  process_tuple w fs (p, c, sc, ss) s
  = match processFile w fs p c sc ss (logged (LogProcessing (basename p) c sc ss) s) with
    | (Ok _, s') => (Ok tt, s')
    | (Throw e, s') => (Throw e, s')
    end.
Proof. reflexivity. Qed.

Lemma readable_true p c sc ss b :
  Fs.readFileSync fs p = Ok b -> readable fs (p, c, sc, ss) = true.
Proof. unfold readable; simpl; intros ->; reflexivity. Qed.

Lemma readable_false p c sc ss e :
  Fs.readFileSync fs p = Throw e -> readable fs (p, c, sc, ss) = false.
Proof. unfold readable; simpl; intros ->; reflexivity. Qed.

(** One turn of the innermost loop: a skip, a record, or a throw. *)
Lemma tuple_step (t : tuple) s r s' :
  process_tuple w fs t s = (r, s') ->
  exists new lines,
    imagesMeta s' = imagesMeta s ++ new /\
    console s' = console s ++ lines /\
    List.length (List.filter is_success lines) = List.length new /\
    ((r = Ok tt /\ readable fs t = false /\ new = []
      /\ List.length (List.filter is_skip lines) = 1%nat)
     \/ (r = Ok tt /\ readable fs t = true /\ List.filter is_skip lines = []
         /\ exists id d, new = [(id, d)] /\ doc_key d = tuple_key t)
     \/ (exists e, r = Throw e /\ readable fs t = true /\ new = []
         /\ List.filter is_skip lines = []
         /\ late_failure w fs (fst (fst (fst t))) s)).
Proof.
  destruct t as [[[p c] sc] ss]. rewrite process_tuple_run.
  destruct (processFile w fs p c sc ss _) as [[[id|]|e] s1] eqn:H; intros [= <- <-].
  - apply processFile_done in H as (b & m & Hb & Hc & H). cbv zeta in H.
    destruct H as (_ & _ & _ & _ & ->).
    eexists [(_, _)], [LogProcessing (basename p) c sc ss; LogSuccess (basename p)].
    simpl. split; [reflexivity|].
    split; [rewrite <- app_assoc; reflexivity|]. split; [reflexivity|].
    right; left. split; [reflexivity|]. split; [eapply readable_true; eauto|].
    split; [reflexivity|]. eexists _, _; split; reflexivity.
  - apply processFile_skipped in H as (e & He & ->).
    exists [], [LogProcessing (basename p) c sc ss; LogReadFailed (basename p) e]; simpl.
    rewrite app_nil_r, <- app_assoc; simpl.
    split; [reflexivity|]. split; [reflexivity|]. split; [reflexivity|].
    left. split; [reflexivity|]. split; [eapply readable_false; eauto|].
    split; reflexivity.
  - apply processFile_thrown in H as (F & Hm & Hcon).
    exists [], [LogProcessing (basename p) c sc ss]; simpl.
    rewrite app_nil_r, Hm, Hcon; simpl.
    split; [reflexivity|]. split; [reflexivity|]. split; [reflexivity|].
    right; right. exists e. split; [reflexivity|]. split.
    + destruct F as [b Hb _|b m Hb _ _|b m Hb _ _ _|b m Hb _ _ _ _];
        eapply readable_true; eauto.
    + split; [reflexivity|]. split; [reflexivity|].
      apply (late_failure_logged w fs p (LogProcessing (basename p) c sc ss)); exact F.
Qed.

(** The loop over the walker's tuples: the tuples split into those
    handled and those never reached; the records added are those of the
    readable handled tuples, in order; each has its success line and each
    unreadable one its skip line. *)
Lemma run_summary (ts : list tuple) : forall s r s',
  for_of ts (process_tuple w fs) s = (r, s') ->
  exists done rest new lines,
    ts = done ++ rest /\
    imagesMeta s' = imagesMeta s ++ new /\
    console s' = console s ++ lines /\
    map (fun x => doc_key (snd x)) new = map (tuple_key) (List.filter (readable fs) done) /\
    List.length (List.filter is_success lines) = List.length new /\
    List.length (List.filter is_skip lines)
      = List.length (List.filter (fun t => negb (readable fs t)) done) /\
    match r with
    | Ok _ => rest = []
    | Throw _ => exists t post s_t, rest = t :: post /\ readable fs t = true
                                    /\ late_failure w fs (fst (fst (fst t))) s_t
    end.
Proof.
  induction ts as [|t ts IH]; intros s r s' H.
  - injection H as <- <-. exists [], [], [], []; simpl.
    rewrite !app_nil_r; repeat split; reflexivity.
  - simpl in H. rewrite bind_run in H.
    destruct (process_tuple w fs t s) as [[[]|e] s1] eqn:Ht.
    + apply tuple_step in Ht as (new1 & lines1 & Hm1 & Hc1 & Hs1 & Hcase).
      apply IH in H as (done & rest & new & lines & -> & Hm & Hc & Hk & Hs & Hsk & Hr).
      exists (t :: done), rest, (new1 ++ new), (lines1 ++ lines).
      rewrite Hm, Hc, Hm1, Hc1, <- !app_assoc, !List.filter_app, !length_app, !map_app.
      split; [reflexivity|]. split; [reflexivity|]. split; [reflexivity|].
      simpl. destruct Hcase as [(_ & Hrd & -> & Hk1) | [(_ & Hrd & Hk1 & id & d & -> & Hd) | (e & He & _)]];
        [| |discriminate]; rewrite Hrd; simpl.
      * rewrite Hk1. repeat split; try assumption; simpl in *; lia.
      * rewrite Hk1, Hd, Hk. repeat split; try assumption; simpl in *; lia.
    + injection H as <- <-.
      apply tuple_step in Ht as (new1 & lines1 & Hm1 & Hc1 & Hs1 & Hcase).
      destruct Hcase as [(Hr & _) | [(Hr & _) | (e' & _ & Hrd & -> & Hk1 & F)]];
        try discriminate.
      exists [], (t :: ts), [], lines1. rewrite Hk1. simpl in *.
      repeat split; try assumption. exists t, ts, s; repeat split; assumption.
Qed.

Lemma drop_all_app {A} (l new : list A) : drop (List.length l) (l ++ new) = new.
Proof. induction l; simpl; [apply drop_0 | assumption]. Qed.

(** [main] over the walker's tuples. *)
Lemma main_run (base : path) (ts : list tuple) (s : state) :
  connect_ok w = true -> walk fs base = Ok ts ->
  main w fs base s
  = match for_of ts (process_tuple w fs) (logged LogConnected s) with
    | (Ok _, s1) => (0, logged LogComplete s1)
    | (Throw e, s1) => (1, logged (LogFatalScript e) s1)
    end.
Proof.
  intros Hc Hw. unfold main, walkAndUpload; rewrite Hc.
  rewrite bind_run; unfold console_log at 1; rewrite bind_run.
  rewrite walk_loops_walk, bind_lift, Hw.
  destruct (for_of ts (process_tuple w fs) (logged LogConnected s)) as [[[]|e] s1];
    reflexivity.
Qed.

Lemma docs_since_app s s' new :
  imagesMeta s' = imagesMeta s ++ new -> docs_since s s' = map snd new.
Proof. unfold docs_since; intros ->; rewrite drop_all_app; reflexivity. Qed.

Lemma lines_since_app s s' lines :
  console s' = console s ++ lines -> lines_since s s' = lines.
Proof. unfold lines_since; intros ->; apply drop_all_app. Qed.

(** A run that got connected and could list its root, summed up: the
    tuples handled and those never reached, the records and console
    lines it added, and how it ended. *)
Lemma main_summary (base : path) (ts : list tuple) (s : state) :
  connect_ok w = true -> walk fs base = Ok ts ->
  exists done rest,
    ts = done ++ rest /\
    map doc_key (docs_since s (snd (main w fs base s)))
      = map tuple_key (List.filter (readable fs) done) /\
    List.length (List.filter is_success (lines_since s (snd (main w fs base s))))
      = List.length (docs_since s (snd (main w fs base s))) /\
    List.length (List.filter is_skip (lines_since s (snd (main w fs base s))))
      = List.length (List.filter (fun t => negb (readable fs t)) done) /\
    ((fst (main w fs base s) = 0 /\ rest = []
      /\ last (console (snd (main w fs base s))) = Some LogComplete)
     \/ (fst (main w fs base s) = 1
         /\ exists t post s_t e, rest = t :: post /\ readable fs t = true
              /\ late_failure w fs (fst (fst (fst t))) s_t
              /\ last (console (snd (main w fs base s))) = Some (LogFatalScript e))).
Proof.
  intros Hc Hw. rewrite (main_run base ts s Hc Hw).
  destruct (for_of ts (process_tuple w fs) (logged LogConnected s)) as [r s1] eqn:Hrun.
  apply run_summary in Hrun as (done & rest & new & lines & Hts & Hm & Hcon & Hk & Hs & Hsk & Hr).
  exists done, rest. split; [exact Hts|].
  assert (Hdocs : forall l, docs_since s (logged l s1) = map snd new)
    by (intros l; apply docs_since_app; exact Hm).
  assert (Hlines : forall l, lines_since s (logged l s1) = LogConnected :: lines ++ [l]).
  { intros l; apply lines_since_app. simpl. rewrite Hcon. simpl.
    rewrite <- !app_assoc. reflexivity. }
  destruct r as [[]|e]; simpl.
  - rewrite Hdocs, Hlines, map_map; simpl. rewrite !List.filter_app, !length_app; simpl.
    rewrite length_map.
    split; [exact Hk|]. split; [lia|]. split; [lia|].
    left. split; [reflexivity|]. split; [exact Hr | apply last_snoc].
  - rewrite Hdocs, Hlines, map_map; simpl. rewrite !List.filter_app, !length_app; simpl.
    rewrite length_map.
    split; [exact Hk|]. split; [lia|]. split; [lia|].
    right. split; [reflexivity|]. destruct Hr as (t & post & s_t & Hrest & Hrd & F).
    exists t, post, s_t, e. repeat split; try assumption. apply last_snoc.
Qed.

End Run.

(** ** Store operations of one file *)

Section FileOps.

Variable w : world.
Variable fs : node.

Lemma ops_since_app s s' ops :
  journal s' = journal s ++ ops -> ops_since s s' = ops.
Proof.
  unfold ops_since; intros ->.
  induction (journal s); simpl; [apply drop_0 | assumption].
Qed.

Lemma journal_record_op op s : journal (record_op op s) = journal s ++ [op].
Proof. reflexivity. Qed.

Lemma journal_done l d op s :
  journal (logged l (store_doc d (record_op op s))) = journal s ++ [op].
Proof. reflexivity. Qed.

(** The store operations of one call, in order: none; a thumbnail upload
    that fails; a thumbnail upload and a full upload that fails; or both
    uploads and then one insert, the rest of the call running from the
    state the second upload left. *)
Lemma processFile_ops p c sc ss s r s' :
  processFile w fs p c sc ss s = (r, s') ->
  (ops_since s s' = [] /\ gridfs s' = gridfs s /\ forall id, r <> Ok (Some id)) \/
  exists b m,
    Fs.readFileSync fs p = Ok b /\ encodable w b m /\
    let U1 := OpUpload (basename p +:+ "-thumb.webp")
                (variant_tags c sc ss "thumbnail") (variant_image thumbPipeline b m) in
    let U2 := OpUpload (basename p +:+ "-full.webp")
                (variant_tags c sc ss "full") (variant_image fullPipeline b m) in
    let s1 := after_upload (basename p +:+ "-thumb.webp")
                (variant_tags c sc ss "thumbnail")
                (variant_image thumbPipeline b m) Flushed s in
    let s2 := after_upload (basename p +:+ "-full.webp")
                (variant_tags c sc ss "full")
                (variant_image fullPipeline b m) Flushed s1 in
    let d := doc_of w p c sc ss b m (next_oid s) (next_oid s1)
               (date_now w (List.length (journal s2))) in
    (exists r1 e, r1 <> Flushed /\ ops_since s s' = [U1 r1] /\ r = Throw e
                  /\ s' = after_upload (basename p +:+ "-thumb.webp")
                            (variant_tags c sc ss "thumbnail")
                            (variant_image thumbPipeline b m) r1 s) \/
    (exists r2 e, r2 <> Flushed /\ ops_since s s' = [U1 Flushed; U2 r2] /\ r = Throw e
                  /\ s' = after_upload (basename p +:+ "-full.webp")
                            (variant_tags c sc ss "full")
                            (variant_image fullPipeline b m) r2 s1) \/
    (exists ok, ops_since s s' = [U1 Flushed; U2 Flushed; OpInsert d ok]
                /\ gridfs s' = gridfs s2
                /\ (r, s') = (let! id := insertOne w d in
                              console_log (LogSuccess (basename p)) ;;
                              ret (Some id)) s2).
Proof.
  intros H. pose proof (processFile_run w fs p c sc ss s) as R.
  rewrite H in R; simpl in R.
  inversion R as [e0 He | b Hb Hc | b m r1 e0 Hb Hc Hu Hr | b m r2 e0 Hb Hc Hu1 s1 Hu2 Hr
                  | b m ok Hb Hc Hu1 s1 Hu2 s2 Hi d Hres Hst]; subst.
  - left. split; [apply ops_since_app; simpl; rewrite app_nil_r; reflexivity|].
    split; [reflexivity | discriminate].
  - left. split; [apply ops_since_app; rewrite app_nil_r; reflexivity|].
    split; [reflexivity | discriminate].
  - right. exists b, m. split; [assumption|]. split; [assumption|]. cbv zeta.
    left. exists (upload_outcome w (List.length (journal s))), e0.
    split; [assumption|]. split; [|split; reflexivity].
    apply ops_since_app, journal_after_upload.
  - right. exists b, m. split; [assumption|]. split; [assumption|]. cbv zeta.
    right; left. exists (upload_outcome w (List.length (journal s1))), e0.
    split; [assumption|]. split; [|split; reflexivity].
    apply ops_since_app. subst s1. rewrite !journal_after_upload, <- app_assoc. reflexivity.
  - right. exists b, m. split; [assumption|]. split; [assumption|]. cbv zeta.
    right; right. exists (insert_outcome w (List.length (journal s2))).
    fold s1; fold s2; fold d.
    assert (Hj : journal s2 = journal s ++
              [OpUpload (basename p +:+ "-thumb.webp") (variant_tags c sc ss "thumbnail")
                 (variant_image thumbPipeline b m) Flushed;
               OpUpload (basename p +:+ "-full.webp") (variant_tags c sc ss "full")
                 (variant_image fullPipeline b m) Flushed]).
    { subst s2 s1. rewrite !journal_after_upload, <- app_assoc. reflexivity. }
    rewrite bind_run. unfold insertOne.
    destruct (insert_outcome w (List.length (journal s2))) eqn:Hi.
    + split; [|split; reflexivity].
      apply ops_since_app. rewrite journal_done, Hj, <- app_assoc. reflexivity.
    + split; [|split; reflexivity].
      apply ops_since_app. rewrite journal_record_op, Hj, <- app_assoc. reflexivity.
Qed.

(** C1. Whenever [processFile] asks for a metadata insert, it has asked
    for the thumbnail upload and the full upload before, in that order,
    both have completed and handed over their files, and nothing else was
    asked of the stores; the record is written in the state the second
    upload left, where its two ids resolve to those files, which carry the
    ids the store assigned; the insert is the last store operation of the
    call and the only insert. *)
Theorem record_written_after_both_uploads p c sc ss s r s' d ok :
  processFile w fs p c sc ss s = (r, s') ->
  In (OpInsert d ok) (ops_since s s') ->
  exists thumbFile fullFile s_w,
    ops_since s s_w
      = [OpUpload (file_name thumbFile) (file_metadata thumbFile) (file_data thumbFile) Flushed;
         OpUpload (file_name fullFile) (file_metadata fullFile) (file_data fullFile) Flushed] /\
    ops_since s s' = ops_since s s_w ++ [OpInsert d ok] /\
    processFile w fs p c sc ss s
      = (let! id := insertOne w d in
         console_log (LogSuccess (basename p)) ;; ret (Some id)) s_w /\
    gridfs s_w !! thumbnailId (variants d) = Some thumbFile /\
    gridfs s_w !! fullId (variants d) = Some fullFile /\
    file_id thumbFile = thumbnailId (variants d) /\
    file_id fullFile = fullId (variants d) /\
    tag_variant (file_metadata thumbFile) = "thumbnail" /\
    tag_variant (file_metadata fullFile) = "full" /\
    List.length (List.filter is_insert (ops_since s s')) = 1%nat.
Proof.
  intros H Hin.
  destruct (processFile_ops p c sc ss s r s' H) as [(Hops & _) | (b & m & Hb & Hc & Hcases)].
  { rewrite Hops in Hin; destruct Hin. }
  cbv zeta in Hcases.
  destruct Hcases as [(r1 & e & _ & Hops & _) | [(r2 & e & _ & Hops & _) | (ok' & Hops & _ & Hrest)]].
  { rewrite Hops in Hin; simpl in Hin; destruct Hin as [Hin|[]]; discriminate. }
  { rewrite Hops in Hin; simpl in Hin; destruct Hin as [Hin|[Hin|[]]]; discriminate. }
  rewrite Hops in Hin; simpl in Hin.
  destruct Hin as [Hin|[Hin|[Hin|[]]]]; try discriminate.
  injection Hin as <- <-.
  set (s1 := after_upload (basename p +:+ "-thumb.webp") (variant_tags c sc ss "thumbnail")
               (variant_image thumbPipeline b m) Flushed s) in *.
  set (s2 := after_upload (basename p +:+ "-full.webp") (variant_tags c sc ss "full")
               (variant_image fullPipeline b m) Flushed s1) in *.
  exists {| file_id := next_oid s; file_name := basename p +:+ "-thumb.webp";
            file_contentType := "image/webp";
            file_metadata := variant_tags c sc ss "thumbnail";
            file_data := variant_image thumbPipeline b m |},
         {| file_id := next_oid s1; file_name := basename p +:+ "-full.webp";
            file_contentType := "image/webp";
            file_metadata := variant_tags c sc ss "full";
            file_data := variant_image fullPipeline b m |},
         s2.
  assert (Hw : ops_since s s2
               = [OpUpload (basename p +:+ "-thumb.webp") (variant_tags c sc ss "thumbnail")
                    (variant_image thumbPipeline b m) Flushed;
                  OpUpload (basename p +:+ "-full.webp") (variant_tags c sc ss "full")
                    (variant_image fullPipeline b m) Flushed]).
  { apply ops_since_app. subst s2 s1.
    rewrite !journal_after_upload, <- app_assoc. reflexivity. }
  split; [exact Hw|]. split; [rewrite Hops, Hw; reflexivity|].
  split; [rewrite H; exact Hrest|].
  split.
  { simpl. rewrite lookup_insert_ne by (simpl; lia). apply lookup_insert_eq. }
  split; [simpl; apply lookup_insert_eq|].
  rewrite Hops. repeat split; reflexivity.
Qed.

End FileOps.

Lemma record_written_after_both_uploads_witness :
  processFile Demo.calm Demo.ribbons Demo.velvet_a "Ribbons" (Some "Velvet") None Demo.empty
  = (fst Demo.ribbons_run, snd Demo.ribbons_run)
  /\ In (OpInsert Demo.ribbons_doc true) (ops_since Demo.empty (snd Demo.ribbons_run))
  /\ exists thumbFile fullFile s_w,
    ops_since Demo.empty s_w
      = [OpUpload (file_name thumbFile) (file_metadata thumbFile) (file_data thumbFile) Flushed;
         OpUpload (file_name fullFile) (file_metadata fullFile) (file_data fullFile) Flushed] /\
    ops_since Demo.empty (snd Demo.ribbons_run)
      = ops_since Demo.empty s_w ++ [OpInsert Demo.ribbons_doc true] /\
    processFile Demo.calm Demo.ribbons Demo.velvet_a "Ribbons" (Some "Velvet") None Demo.empty
      = (let! id := insertOne Demo.calm Demo.ribbons_doc in
         console_log (LogSuccess (basename Demo.velvet_a)) ;; ret (Some id)) s_w /\
    gridfs s_w !! thumbnailId (variants Demo.ribbons_doc) = Some thumbFile /\
    gridfs s_w !! fullId (variants Demo.ribbons_doc) = Some fullFile /\
    file_id thumbFile = thumbnailId (variants Demo.ribbons_doc) /\
    file_id fullFile = fullId (variants Demo.ribbons_doc) /\
    tag_variant (file_metadata thumbFile) = "thumbnail" /\
    tag_variant (file_metadata fullFile) = "full" /\
    List.length (List.filter is_insert (ops_since Demo.empty (snd Demo.ribbons_run))) = 1%nat.
Proof.
  assert (H1 : processFile Demo.calm Demo.ribbons Demo.velvet_a "Ribbons" (Some "Velvet") None
                 Demo.empty = (fst Demo.ribbons_run, snd Demo.ribbons_run))
    by (unfold Demo.ribbons_run; apply surjective_pairing).
  assert (H2 : In (OpInsert Demo.ribbons_doc true) (ops_since Demo.empty (snd Demo.ribbons_run)))
    by (vm_compute; right; right; left; reflexivity).
  split; [exact H1|]. split; [exact H2|].
  exact (record_written_after_both_uploads Demo.calm Demo.ribbons Demo.velvet_a
           "Ribbons" (Some "Velvet") None Demo.empty _ _ Demo.ribbons_doc true H1 H2).
Defined.

(** ** The variants *)

Section Variants.

Variable w : world.

Lemma encodable_toBuffer (b : buffer) (m : Sharp.metadata) :
  encodable w b m ->
  Sharp.toBuffer (codec w) (thumbPipeline b) = Ok (variant_image thumbPipeline b m) /\
  Sharp.toBuffer (codec w) (fullPipeline b) = Ok (variant_image fullPipeline b m) /\
  Sharp.toBuffer (codec w) (lqipPipeline b) = Ok (variant_image lqipPipeline b m).
Proof.
  intros (Hc & F1 & F2 & F3).
  split; [|split]; apply (toBuffer_decodable w); first [reflexivity | assumption].
Qed.

(** What a pipeline returns on an input decoded as [m]. *)
Lemma toBuffer_variant (pl : buffer -> Sharp.pipeline) (b : buffer)
    (m : Sharp.metadata) (img : Sharp.image) :
  Sharp.input (pl b) = b -> codec w b = Sharp.Decodable m ->
  Sharp.toBuffer (codec w) (pl b) = Ok img ->
  img = variant_image pl b m /\ Sharp.output_fits (pl b) m = true.
Proof.
  intros Hi Hc H. apply (toBuffer_Ok w pl b img Hi) in H as (m' & Hc' & F & ->).
  rewrite Hc in Hc'; injection Hc' as <-. split; [reflexivity | exact F].
Qed.

(** A resize that never enlarges keeps a height within the format. *)
Lemma resized_height_fits (o : Sharp.resizeOptions) (wd h : Z) :
  Sharp.withoutEnlargement o = true -> 0 < Sharp.target_width o ->
  h <= Sharp.webp_limit ->
  Sharp.resized_height (Some o) wd h <= Sharp.webp_limit.
Proof.
  unfold Sharp.resized_height, Sharp.webp_limit. intros -> HT Hh. simpl.
  destruct (wd <? Sharp.target_width o) eqn:E; [exact Hh|].
  apply Z.ltb_ge in E. apply Z.max_lub; [lia|].
  apply Z.lt_succ_r, Z.div_lt_upper_bound; [lia|].
  destruct (Z.le_gt_cases 0 h); nia.
Qed.

Lemma never_enlarged_fits (pl : buffer -> Sharp.pipeline) (b : buffer)
    (m : Sharp.metadata) (o : Sharp.resizeOptions) :
  Sharp.resizeOpt (pl b) = Some o ->
  Sharp.withoutEnlargement o = true ->
  0 < Sharp.target_width o <= Sharp.webp_limit ->
  Sharp.height m <= Sharp.webp_limit ->
  Sharp.output_fits (pl b) m = true.
Proof.
  intros Ho He HT Hh. unfold Sharp.output_fits. destruct (Sharp.webpQuality (pl b)); [|reflexivity].
  rewrite Ho. apply andb_true_iff; split; apply Z.leb_le.
  - unfold Sharp.resized_width. rewrite He; simpl.
    destruct (Sharp.width m <? Sharp.target_width o) eqn:E; [apply Z.ltb_lt in E|]; lia.
  - apply resized_height_fits; [exact He | lia | exact Hh].
Qed.



End Variants.





(** ** Base64 text reads back *)

Section Base64Facts.

Lemma below_64 (P : N -> Prop) :
  (forall k : nat, (k < 64)%nat -> P (N.of_nat k)) -> forall n, (n < 64)%N -> P n.
Proof.
  intros H n Hn. rewrite <- (N2Nat.id n). apply H. lia.
Qed.

Lemma value_digit (n : N) : (n < 64)%N -> Base64.value (Base64.digit n) = Some n.
Proof.
  revert n; apply below_64; intros k Hk.
  do 64 (destruct k as [|k]; [vm_compute; reflexivity|]). lia.
Qed.

Lemma digit_not_pad (n : N) :
  (n < 64)%N -> Ascii.eqb (Base64.digit n) Base64.pad = false.
Proof.
  revert n; apply below_64; intros k Hk.
  do 64 (destruct k as [|k]; [vm_compute; reflexivity|]). lia.
Qed.

Lemma byte_below_256 (b : byte) : (Byte.to_N b < 256)%N.
Proof. pose proof (Byte.to_N_bounded b). lia. Qed.

Lemma list_ind3 {A} (P : list A -> Prop) :
  P [] -> (forall a, P [a]) -> (forall a b, P [a; b]) ->
  (forall a b c l, P l -> P (a :: b :: c :: l)) ->
  forall l, P l.
Proof.
  intros H0 H1 H2 H3. fix IH 1.
  intros [|a [|b [|c l]]]; [exact H0 | apply H1 | apply H2 | apply H3, IH].
Qed.

Ltac by_division := zify; Z.to_euclidean_division_equations; lia.

Lemma decode_encode (bs : list byte) : Base64.decode (Base64.encode bs) = Some bs.
Proof.
  induction bs as [|a|a b|a b c l IH] using list_ind3.
  - reflexivity.
  - pose proof (byte_below_256 a) as Ha.
    cbn [Base64.encode Base64.decode].
    rewrite !value_digit by by_division.
    rewrite Ascii.eqb_refl.
    replace ((Byte.to_N a * 65536 / 262144 * 64 + Byte.to_N a * 65536 / 4096 mod 64) / 16)%N
      with (Byte.to_N a) by by_division.
    rewrite Byte.of_to_N. reflexivity.
  - pose proof (byte_below_256 a) as Ha. pose proof (byte_below_256 b) as Hb.
    cbn [Base64.encode Base64.decode].
    set (n := (Byte.to_N a * 65536 + Byte.to_N b * 256)%N).
    rewrite !value_digit by (subst n; by_division).
    rewrite Ascii.eqb_refl, digit_not_pad by (subst n; by_division).
    cbv zeta.
    replace (((n / 262144 * 64 + n / 4096 mod 64) * 64 + n / 64 mod 64) / 1024)%N
      with (Byte.to_N a) by (subst n; by_division).
    replace (((n / 262144 * 64 + n / 4096 mod 64) * 64 + n / 64 mod 64) / 4 mod 256)%N
      with (Byte.to_N b) by (subst n; by_division).
    rewrite !Byte.of_to_N. reflexivity.
  - pose proof (byte_below_256 a) as Ha. pose proof (byte_below_256 b) as Hb.
    pose proof (byte_below_256 c) as Hc.
    cbn [Base64.encode Base64.decode].
    set (n := (Byte.to_N a * 65536 + Byte.to_N b * 256 + Byte.to_N c)%N).
    rewrite !value_digit by (subst n; by_division).
    rewrite digit_not_pad by (subst n; by_division).
    rewrite IH. cbv zeta.
    replace (((n / 262144 * 64 + n / 4096 mod 64) * 64 + n / 64 mod 64) * 64 + n mod 64)%N
      with n by (subst n; by_division).
    replace (n / 65536)%N with (Byte.to_N a) by (subst n; by_division).
    replace (n / 256 mod 256)%N with (Byte.to_N b) by (subst n; by_division).
    replace (n mod 256)%N with (Byte.to_N c) by (subst n; by_division).
    rewrite !Byte.of_to_N. reflexivity.
Qed.

Lemma strip_prefix_append (p s : string) : Base64.strip_prefix p (p +:+ s) = Some s.
Proof.
  induction p as [|a p IH]; simpl; [reflexivity|]. rewrite Ascii.eqb_refl. exact IH.
Qed.

(** A data string made from bytes reads back as those bytes. *)
Lemma data_uri_reads_back (bs : list byte) :
  Base64.webp_of_data_uri ("data:image/webp;base64," +:+ Base64.encode bs) = Some bs.
Proof.
  unfold Base64.webp_of_data_uri. rewrite strip_prefix_append. apply decode_encode.
Qed.

End Base64Facts.

(** ** The placeholder *)

Section Placeholder.

Variable w : world.
Variable fs : node.

Lemma gridfs_after_upload name t img s k f :
  gridfs (after_upload name t img Flushed s) !! k = Some f ->
  gridfs s !! k = Some f \/ (file_data f = img /\ file_metadata f = t).
Proof.
  simpl. intros H. apply lookup_insert_Some in H as [[_ <-]|[_ H]]; [right | left];
    [split; reflexivity | exact H].
Qed.

Lemma gridfs_after_any_upload name t img r s k f :
  gridfs (after_upload name t img r s) !! k = Some f ->
  gridfs s !! k = Some f \/ (file_data f = img /\ file_metadata f = t).
Proof.
  destruct r; [apply gridfs_after_upload | left; assumption |].
  simpl. intros H. apply lookup_insert_Some in H as [[_ <-]|[_ H]]; [right | left];
    [split; reflexivity | exact H].
Qed.

(** C7, as the code has it.  A placeholder that is produced is the
    source resized to width 20, blurred with sigma 1 and encoded at
    quality 30; the record [processFile] writes carries it as the string
    ["data:image/webp;base64,"] followed by the base64 text of its bytes,
    from which those bytes read back; no upload of the call carries the
    placeholder, every upload is tagged thumbnail or full, and every file
    the call adds to the bucket is one of those two.  A file whose
    placeholder is not produced makes the call throw before any store
    operation.  A file that is read, whose three variants are produced,
    gets its record when the stores do not fault. *)
Theorem placeholder_is_inline p c sc ss s r s' b :
  Fs.readFileSync fs p = Ok b ->
  processFile w fs p c sc ss s = (r, s') ->
  (forall placeholder,
     Sharp.toBuffer (codec w) (lqipPipeline b) = Ok placeholder ->
     Sharp.out_width placeholder = 20 /\
     Sharp.out_blur placeholder = Some 1 /\
     Sharp.out_quality placeholder = Some 30 /\
     (forall d ok, In (OpInsert d ok) (ops_since s s') ->
        lqip d = "data:image/webp;base64," +:+ Base64.encode (webp_bytes w placeholder)
        /\ Base64.webp_of_data_uri (lqip d) = Some (webp_bytes w placeholder)) /\
     (forall id, r = Ok (Some id) ->
        exists d, last (imagesMeta s') = Some (id, d) /\
          lqip d = "data:image/webp;base64," +:+ Base64.encode (webp_bytes w placeholder)) /\
     (forall name t img o, In (OpUpload name t img o) (ops_since s s') ->
        img <> placeholder /\ (tag_variant t = "thumbnail" \/ tag_variant t = "full")) /\
     (forall k f, gridfs s' !! k = Some f ->
        gridfs s !! k = Some f
        \/ (file_data f <> placeholder
            /\ (tag_variant (file_metadata f) = "thumbnail"
                \/ tag_variant (file_metadata f) = "full")))) /\
  ((forall placeholder, Sharp.toBuffer (codec w) (lqipPipeline b) <> Ok placeholder) ->
     (exists e, r = Throw e) /\ ops_since s s' = [] /\ imagesMeta s' = imagesMeta s
     /\ gridfs s' = gridfs s) /\
  (forall m, encodable w b m ->
     upload_outcome w (List.length (journal s)) = Flushed ->
     upload_outcome w (S (List.length (journal s))) = Flushed ->
     insert_outcome w (S (S (List.length (journal s)))) = true ->
     exists id placeholder,
       r = Ok (Some id)
       /\ Sharp.toBuffer (codec w) (lqipPipeline b) = Ok placeholder).
Proof.
  intros Hb H. split; [|split].
  - intros placeholder Hpl.
    destruct (toBuffer_Ok w lqipPipeline b placeholder eq_refl Hpl) as (m & Hc & _ & ->).
    split; [reflexivity|]. split; [reflexivity|]. split; [reflexivity|].
    assert (Ht : variant_image thumbPipeline b m <> variant_image lqipPipeline b m)
      by (intros E; apply (f_equal Sharp.out_quality) in E; discriminate).
    assert (Hf : variant_image fullPipeline b m <> variant_image lqipPipeline b m)
      by (intros E; apply (f_equal Sharp.out_quality) in E; discriminate).
    destruct (processFile_ops w fs p c sc ss s r s' H)
      as [(Hops & Hg & Hr) | (b' & m' & Hb' & Hc' & Hcases)].
    { rewrite Hops, Hg. split; [intros ? ? []|].
      split; [intros id ->; destruct (Hr id eq_refl)|].
      split; [intros ? ? ? ? []|]. intros k f Hk; left; exact Hk. }
    rewrite Hb in Hb'; injection Hb' as <-.
    assert (m' = m) as -> by (destruct Hc' as [Hc' _]; congruence).
    cbv zeta in Hcases.
    destruct Hcases as [(r1 & e & _ & Hops & -> & ->) | [(r2 & e & _ & Hops & -> & ->)
                       | (ok & Hops & Hg & Hrest)]]; rewrite Hops.
    + split; [intros d ok [Hin|[]]; discriminate|].
      split; [intros id Hid; discriminate|].
      split.
      * intros name t img o [Hin|[]]. injection Hin as <- <- <- <-.
        split; [exact Ht | left; reflexivity].
      * intros k f Hk. apply gridfs_after_any_upload in Hk as [Hk|[Hd Hm]]; [left; exact Hk|].
        right; rewrite Hd, Hm; split; [exact Ht | left; reflexivity].
    + split; [intros d ok [Hin|[Hin|[]]]; discriminate|].
      split; [intros id Hid; discriminate|].
      split.
      * intros name t img o [Hin|[Hin|[]]]; injection Hin as <- <- <- <-.
        -- split; [exact Ht | left; reflexivity].
        -- split; [exact Hf | right; reflexivity].
      * intros k f Hk. apply gridfs_after_any_upload in Hk as [Hk|[Hd Hm]].
        -- apply gridfs_after_upload in Hk as [Hk|[Hd Hm]]; [left; exact Hk|].
           right; rewrite Hd, Hm; split; [exact Ht | left; reflexivity].
        -- right; rewrite Hd, Hm; split; [exact Hf | right; reflexivity].
    + split.
      { intros d ok' [Hin|[Hin|[Hin|[]]]]; try discriminate.
        injection Hin as <- <-. split; [reflexivity | exact (data_uri_reads_back _)]. }
      split.
      { intros id ->. rewrite bind_run in Hrest. unfold insertOne in Hrest.
        destruct (insert_outcome w _); [|discriminate].
        injection Hrest as Hid Hs'. subst id s'.
        eexists; split; [simpl; apply last_snoc | reflexivity]. }
      split.
      { intros name t img o [Hin|[Hin|[Hin|[]]]]; try discriminate;
          injection Hin as <- <- <- <-.
        - split; [exact Ht | left; reflexivity].
        - split; [exact Hf | right; reflexivity]. }
      intros k f Hk. rewrite Hg in Hk.
      apply gridfs_after_upload in Hk as [Hk|[Hd Hm]].
      * apply gridfs_after_upload in Hk as [Hk|[Hd Hm]]; [left; exact Hk|].
        right; rewrite Hd, Hm; split; [exact Ht | left; reflexivity].
      * right; rewrite Hd, Hm; split; [exact Hf | right; reflexivity].
  - intros Hno.
    assert (Hnenc : forall m, ~ encodable w b m).
    { intros m Hm. destruct (encodable_toBuffer w b m Hm) as (_ & _ & Hl).
      exact (Hno _ Hl). }
    destruct (processFile_ops w fs p c sc ss s r s' H)
      as [(Hops & Hg & Hr) | (b' & m' & Hb' & Hc' & _)].
    2:{ rewrite Hb in Hb'; injection Hb' as <-. destruct (Hnenc m' Hc'). }
    destruct r as [[id|]|e].
    + destruct (Hr id eq_refl).
    + apply processFile_skipped in H as (e & He & _). congruence.
    + apply processFile_thrown in H as (_ & Hm & _).
      split; [exists e; reflexivity|]. split; [exact Hops|]. split; [exact Hm | exact Hg].
  - intros m Henc Hu1 Hu2 Hi.
    destruct (encodable_toBuffer w b m Henc) as (_ & _ & Hl).
    destruct r as [[id|]|e].
    + exists id, (variant_image lqipPipeline b m). split; [reflexivity | exact Hl].
    + apply processFile_skipped in H as (e & He & _). congruence.
    + exfalso. apply processFile_thrown in H as (F & _).
      destruct F as [b' Hb' Hn | b' m' Hb' Hc' Hf | b' m' Hb' Hc' _ Hf | b' m' Hb' Hc' _ _ Hf].
      * rewrite Hb in Hb'; injection Hb' as <-. exact (Hn m Henc).
      * exact (Hf Hu1).
      * exact (Hf Hu2).
      * congruence.
Qed.

End Placeholder.

(** ** The walker is depth-first in listing order *)

Section DepthFirst.

Variable fs : node.

Lemma list_dirs_subdirs (p : path) :
  is_dir fs p -> list_dirs fs p = Ok (subdirs fs p).
Proof.
  intros [es Hd]. rewrite (list_dirs_dir fs p es Hd).
  unfold subdirs, listing; rewrite Hd; reflexivity.
Qed.

Lemma list_images_images (p : path) :
  is_dir fs p -> list_images fs p = Ok (images fs p).
Proof.
  intros [es Hd]. rewrite (list_images_dir fs p es Hd).
  unfold images, listing; rewrite Hd; reflexivity.
Qed.

Lemma subdirs_are_dirs (p : path) (d : string) :
  In d (subdirs fs p) -> is_dir fs (join p d).
Proof.
  unfold subdirs; intros H; apply filter_In in H as [_ H].
  unfold dirb in H; unfold is_dir.
  destruct (resolve fs (join p d)) as [[c|es]|]; try discriminate; eauto.
Qed.

Lemma concat_results_flat_map {A B} (W : A -> result (list B)) (f : A -> list B)
    (l : list A) :
  (forall x, In x l -> W x = Ok (f x)) ->
  concat_results (map W l) = Ok (flat_map f l).
Proof.
  induction l as [|x l IH]; intros H; simpl; [reflexivity|].
  rewrite (H x (or_introl eq_refl)); simpl.
  rewrite IH by (intros y Hy; apply H; right; exact Hy). reflexivity.
Qed.

Lemma walk_subcat_depth_first c cp sc :
  is_dir fs (join cp sc) ->
  walk_subcat fs c cp sc = Ok (depth_first_subcat fs c cp sc).
Proof.
  intros Hd. unfold walk_subcat, depth_first_subcat.
  rewrite (list_dirs_subdirs _ Hd); simpl.
  destruct (subdirs fs (join cp sc)) as [|d ds] eqn:Hs.
  - simpl. rewrite (list_images_images _ Hd). reflexivity.
  - change (0 <? List.length (d :: ds))%nat with true. cbn iota.
    apply (concat_results_flat_map (walk_subsub fs c sc (join cp sc))
             (fun subsub => tuples_in (join (join cp sc) subsub) c (Some sc) (Some subsub)
                              (images fs (join (join cp sc) subsub)))
             (d :: ds)).
    intros ss Hss.
    unfold walk_subsub. rewrite list_images_images; [reflexivity|].
    apply subdirs_are_dirs. rewrite Hs; exact Hss.
Qed.

Lemma walk_category_depth_first base c :
  is_dir fs (join base c) ->
  walk_category fs base c = Ok (depth_first_category fs base c).
Proof.
  intros Hd. unfold walk_category, depth_first_category.
  rewrite (list_dirs_subdirs _ Hd); simpl.
  destruct (subdirs fs (join base c)) as [|d ds] eqn:Hs.
  - simpl. rewrite (list_images_images _ Hd). reflexivity.
  - change (List.length (d :: ds) =? 0)%nat with false. cbn iota.
    apply (concat_results_flat_map (walk_subcat fs c (join base c))
             (depth_first_subcat fs c (join base c)) (d :: ds)).
    intros sc Hsc.
    apply walk_subcat_depth_first, subdirs_are_dirs. rewrite Hs; exact Hsc.
Qed.

(** The loops' walker yields the depth-first sequence whenever the root
    can be listed, and throws otherwise. *)
Lemma walk_depth_first (base : path) :
  is_dir fs base -> walk fs base = Ok (depth_first fs base).
Proof.
  intros Hd. unfold walk, depth_first. rewrite (list_dirs_subdirs _ Hd); simpl.
  apply concat_results_flat_map. intros c Hc.
  apply walk_category_depth_first, subdirs_are_dirs; exact Hc.
Qed.

Lemma walk_Ok_root (base : path) ts : walk fs base = Ok ts -> is_dir fs base.
Proof.
  unfold walk. destruct (list_dirs fs base) as [cats|e] eqn:H; [|discriminate].
  intros _. destruct (list_dirs_inv fs base cats H) as (es & Hr & _). exists es; exact Hr.
Qed.

Lemma walk_Ok_depth_first (base : path) ts :
  walk fs base = Ok ts -> ts = depth_first fs base.
Proof.
  intros H. pose proof (walk_depth_first base (walk_Ok_root base ts H)) as H'. congruence.
Qed.

End DepthFirst.

(** ** Which files the walker yields *)

Section Yielded.

Variable fs : node.

Lemma in_tuples_in dir c sc ss files (t : tuple) :
  In t (tuples_in dir c sc ss files) <-> exists f, In f files /\ t = (join dir f, c, sc, ss).
Proof.
  unfold tuples_in; rewrite in_map_iff; split; intros (f & H1 & H2); exists f; split;
    auto; congruence.
Qed.

Lemma in_depth_first_subcat c cp sc (t : tuple) :
  In t (depth_first_subcat fs c cp sc) <->
  (subdirs fs (join cp sc) = []
   /\ exists f, In f (images fs (join cp sc)) /\ t = (join (join cp sc) f, c, Some sc, None))
  \/ (exists ss f, In ss (subdirs fs (join cp sc))
        /\ In f (images fs (join (join cp sc) ss))
        /\ t = (join (join (join cp sc) ss) f, c, Some sc, Some ss)).
Proof.
  unfold depth_first_subcat. destruct (subdirs fs (join cp sc)) as [|d ds] eqn:Hs.
  - rewrite in_tuples_in. split.
    + intros H; left; split; [reflexivity | exact H].
    + intros [[_ H]|(ss & f & [] & _)]; exact H.
  - rewrite in_flat_map. split.
    + intros (ss & Hss & Ht). apply in_tuples_in in Ht as (f & Hf & ->).
      right; exists ss, f; repeat split; assumption.
    + intros [[H _]|(ss & f & Hss & Hf & ->)]; [discriminate|].
      exists ss; split; [exact Hss|]. apply in_tuples_in; exists f; split; auto.
Qed.

Lemma in_depth_first_category base c (t : tuple) :
  In t (depth_first_category fs base c) <->
  (subdirs fs (join base c) = []
   /\ exists f, In f (images fs (join base c)) /\ t = (join (join base c) f, c, None, None))
  \/ (exists sc, In sc (subdirs fs (join base c))
        /\ In t (depth_first_subcat fs c (join base c) sc)).
Proof.
  unfold depth_first_category. destruct (subdirs fs (join base c)) as [|d ds] eqn:Hs.
  - rewrite in_tuples_in. split.
    + intros H; left; split; [reflexivity | exact H].
    + intros [[_ H]|(sc & [] & _)]; exact H.
  - rewrite in_flat_map. split.
    + intros (sc & Hsc & Ht). right; exists sc; split; assumption.
    + intros [[H _]|(sc & Hsc & Ht)]; [discriminate|]. exists sc; split; assumption.
Qed.

Lemma join_inj (p q : path) (a b : string) : join p a = join q b -> p = q /\ a = b.
Proof. unfold join; apply app_inj_tail. Qed.

(** Two paths of different depth differ. *)
Ltac depth_mismatch H :=
  exfalso; apply (f_equal (@List.length string)) in H; unfold join in H;
  rewrite !length_app in H; simpl in H; lia.

(** C5. The loops of [walkAndUpload] hand to [processFile], one after
    the other, exactly the tuples [ts] the walker yields.  In a
    subcategory that has a sub-subdirectory these are the image files of
    its sub-subdirectories, each with that sub-subcategory, and no file
    lying directly in the subcategory; in a subcategory without
    sub-subdirectories they are the subcategory's own image files with
    the sub-subcategory absent.  Every record a run inserts is the record
    of a yielded tuple, so the files passed over get none, and a run that
    ends with status 0 has inserted a record for every yielded file it
    could read. *)
Theorem loose_files_beside_subsubdirs_are_skipped (base : path) (cat sc : string)
    (ts : list tuple) :
  walk fs base = Ok ts ->
  In cat (subdirs fs base) ->
  In sc (subdirs fs (join base cat)) ->
  let subcatPath := join (join base cat) sc in
  (forall w s, walk_loops w fs base s = for_of ts (process_tuple w fs) s)
  /\ (subdirs fs subcatPath <> [] ->
     (forall f, ~ In (join subcatPath f) (map (fun t : tuple => fst (fst (fst t))) ts))
     /\ (forall p c ss, In (p, c, Some sc, ss) ts -> c = cat ->
           exists subsub f, In subsub (subdirs fs subcatPath)
             /\ In f (images fs (join subcatPath subsub))
             /\ p = join (join subcatPath subsub) f /\ ss = Some subsub)
     /\ (forall subsub f, In subsub (subdirs fs subcatPath) ->
           In f (images fs (join subcatPath subsub)) ->
           In (join (join subcatPath subsub) f, cat, Some sc, Some subsub) ts))
  /\ (subdirs fs subcatPath = [] ->
        (forall f, In f (images fs subcatPath) ->
           In (join subcatPath f, cat, Some sc, None) ts)
        /\ (forall p c ss, In (p, c, Some sc, ss) ts -> c = cat ->
              ss = None /\ exists f, In f (images fs subcatPath) /\ p = join subcatPath f))
  /\ (forall w s d, connect_ok w = true ->
        In d (docs_since s (snd (main w fs base s))) ->
        exists t, In t ts /\ doc_key d = tuple_key t)
  /\ (forall w s t, connect_ok w = true ->
        fst (main w fs base s) = 0 ->
        In t ts -> readable fs t = true ->
        In (tuple_key t) (map doc_key (docs_since s (snd (main w fs base s))))).
Proof.
  intros Hw Hcat Hsc subcatPath. subst subcatPath.
  assert (Hloops : forall w s,
            walk_loops w fs base s = for_of ts (process_tuple w fs) s).
  { intros w s. rewrite walk_loops_walk, bind_lift, Hw. reflexivity. }
  assert (Hrec : forall w s d, connect_ok w = true ->
            In d (docs_since s (snd (main w fs base s))) ->
            exists t, In t ts /\ doc_key d = tuple_key t).
  { intros w s d Hc Hd.
    destruct (main_summary w fs base ts s Hc Hw) as (done & rest & -> & Hk & _).
    apply (in_map doc_key) in Hd. rewrite Hk in Hd.
    apply in_map_iff in Hd as (t & Ht & Hin). apply filter_In in Hin as [Hin _].
    exists t; split; [apply in_or_app; left; exact Hin | symmetry; exact Ht]. }
  assert (Hall : forall w s t, connect_ok w = true ->
            fst (main w fs base s) = 0 ->
            In t ts -> readable fs t = true ->
            In (tuple_key t) (map doc_key (docs_since s (snd (main w fs base s))))).
  { intros w s t Hc Hz Ht Hr.
    destruct (main_summary w fs base ts s Hc Hw)
      as (done & rest & Hsplit & Hk & _ & _ & [(_ & -> & _) | (H1 & _)]); [|congruence].
    rewrite app_nil_r in Hsplit; subst done. rewrite Hk.
    apply in_map, filter_In. split; assumption. }
  split; [exact Hloops|].
  match goal with
  | |- ?A /\ ?B /\ _ /\ _ =>
      cut (A /\ B); [intros [HA HB]; exact (conj HA (conj HB (conj Hrec Hall)))|]
  end.
  clear Hrec Hall Hloops.
  apply walk_Ok_depth_first in Hw; subst ts.
  assert (Hcat_not_leaf : subdirs fs (join base cat) <> [])
    by (intros E; rewrite E in Hsc; destruct Hsc).
  assert (Hyield : forall t, In t (depth_first_subcat fs cat (join base cat) sc) ->
                             In t (depth_first fs base)).
  { intros t Ht. unfold depth_first. apply in_flat_map. exists cat; split; [exact Hcat|].
    apply in_depth_first_category. right. exists sc; split; assumption. }
  assert (Hfrom : forall p c ss, In (p, c, Some sc, ss) (depth_first fs base) -> c = cat ->
                    In (p, c, Some sc, ss) (depth_first_subcat fs cat (join base cat) sc)).
  { intros p c ss Ht ->. unfold depth_first in Ht. apply in_flat_map in Ht as (c' & Hc' & Ht).
    apply in_depth_first_category in Ht as [[_ (f & _ & Ht)]|(sc' & Hsc' & Ht)];
      [discriminate|].
    apply in_depth_first_subcat in Ht as H.
    destruct H as [[_ (f & _ & E)]|(ss' & f & _ & _ & E)]; injection E as _ <- <- _; exact Ht. }
  split.
  - intros Hne. split; [|split].
    + intros f Hin. apply in_map_iff in Hin as (t & Hp & Ht).
      unfold depth_first in Ht. apply in_flat_map in Ht as (c' & Hc' & Ht).
      apply in_depth_first_category in Ht as [[_ (f' & _ & ->)]|(sc' & Hsc' & Ht)].
      * simpl in Hp. depth_mismatch Hp.
      * apply in_depth_first_subcat in Ht as [[He (f' & _ & ->)]|(ss' & f' & _ & _ & ->)];
          simpl in Hp.
        -- apply join_inj in Hp as [Hp _]. apply join_inj in Hp as [Hp <-].
           apply join_inj in Hp as [_ <-]. exact (Hne He).
        -- depth_mismatch Hp.
    + intros p c ss Ht Hc. apply (Hfrom p c ss Ht) in Hc.
      apply in_depth_first_subcat in Hc as [[He _]|(ss' & f & Hss & Hf & E)];
        [destruct (Hne He)|].
      injection E as -> _ ->. exists ss', f; repeat split; assumption.
    + intros subsub f Hss Hf. apply Hyield, in_depth_first_subcat.
      right; exists subsub, f; repeat split; assumption.
  - intros He. split.
    + intros f Hf. apply Hyield, in_depth_first_subcat.
      left; split; [exact He|]. exists f; split; [exact Hf | reflexivity].
    + intros p c ss Ht Hc. apply (Hfrom p c ss Ht) in Hc.
      apply in_depth_first_subcat in Hc as [[_ (f & Hf & E)]|(ss' & f & Hss & _)].
      * injection E as -> _ ->. split; [reflexivity|]. exists f; split; auto.
      * rewrite He in Hss; destruct Hss.
Qed.

End Yielded.

(** ** The order of a listing *)

Section Order.

#[local] Instance name_le_total : Total name_le.
Proof. intros a b; apply String.leb_total. Qed.

#[local] Instance name_le_antisym : AntiSymm (=) name_le.
Proof. intros a b; apply String.leb_antisym. Qed.

#[local] Instance name_le_trans : Transitive name_le.
Proof.
  assert (Hlt : forall a b, String.leb a b = true ->
                  a = b \/ OrderedTypeEx.String_as_OT.lt a b).
  { intros a b H. unfold String.leb in H.
    destruct (String.compare a b) eqn:E; [left | right | discriminate].
    - apply String.compare_eq_iff, E.
    - apply OrderedTypeEx.String_as_OT.cmp_lt, E. }
  assert (Hle : forall a b, OrderedTypeEx.String_as_OT.lt a b -> String.leb a b = true).
  { intros a b H. apply OrderedTypeEx.String_as_OT.cmp_lt in H.
    unfold String.leb, OrderedTypeEx.String_as_OT.cmp in *. rewrite H. reflexivity. }
  intros a b c Hab Hbc. unfold name_le in *.
  destruct (Hlt a b Hab) as [->|L1]; [exact Hbc|].
  destruct (Hlt b c Hbc) as [<-|L2]; [exact Hab|].
  apply Hle. exact (OrderedTypeEx.String_as_OT.lt_trans a b c L1 L2).
Qed.

Lemma sort_names_sorted (l : list string) : StronglySorted name_le (sort_names l).
Proof. apply StronglySorted_merge_sort; apply _. Qed.

(** Two listings of the same names are the same listing. *)
Lemma sort_names_unique (l l' : list string) :
  Permutation l l' -> sort_names l = sort_names l'.
Proof.
  intros H. apply (StronglySorted_unique name_le); try apply sort_names_sorted.
  unfold sort_names. rewrite !merge_sort_Permutation. exact H.
Qed.

Lemma StronglySorted_List_filter {A} (R : relation A) (f : A -> bool) (l : list A) :
  StronglySorted R l -> StronglySorted R (List.filter f l).
Proof.
  induction 1 as [|x l Hl IH Hx]; simpl; [constructor|].
  destruct (f x); [|exact IH]. constructor; [exact IH|].
  apply List.Forall_forall. intros y Hy. apply filter_In in Hy as [Hy _].
  rewrite List.Forall_forall in Hx. apply Hx, Hy.
Qed.

Lemma StronglySorted_lex_sorted (l : list string) :
  StronglySorted name_le l -> lex_sorted l = true.
Proof.
  induction 1 as [|x l Hl IH Hx]; [reflexivity|].
  destruct l as [|y l]; [reflexivity|].
  cbn [lex_sorted]. apply andb_true_iff. split; [|exact IH].
  inversion Hx; assumption.
Qed.

Variable fs : node.

Lemma listing_sorted (p : path) : StronglySorted name_le (listing fs p).
Proof.
  unfold listing. destruct (resolve fs p) as [[c|es]|]; try constructor.
  apply sort_names_sorted.
Qed.

(** What [readdirSync] returns is in lexical order, and so are the
    directories and the image files the walker takes from it. *)
Lemma listings_in_lexical_order (p : path) :
  (forall names, Fs.readdirSync fs p = Ok names -> lex_sorted names = true)
  /\ lex_sorted (listing fs p) = true
  /\ lex_sorted (subdirs fs p) = true
  /\ lex_sorted (images fs p) = true.
Proof.
  split; [|split; [|split]].
  - intros names H. unfold Fs.readdirSync in H.
    destruct (resolve fs p) as [[c|es]|]; try discriminate.
    injection H as <-. apply StronglySorted_lex_sorted, sort_names_sorted.
  - apply StronglySorted_lex_sorted, listing_sorted.
  - apply StronglySorted_lex_sorted, StronglySorted_List_filter, listing_sorted.
  - apply StronglySorted_lex_sorted, StronglySorted_List_filter, listing_sorted.
Qed.

(** *** Two disks holding the same tree *)

Variable fs' : node.
Hypothesis same : same_tree fs fs'.

Lemma same_listing (p : path) : listing fs' p = listing fs p.
Proof.
  unfold listing. specialize (same p).
  destruct (resolve fs p) as [[c|es]|], (resolve fs' p) as [[c'|es']|];
    try reflexivity; try contradiction.
  symmetry. apply sort_names_unique, same.
Qed.

Lemma same_dirb (p : path) (f : string) : dirb fs' p f = dirb fs p f.
Proof.
  unfold dirb. specialize (same (join p f)).
  destruct (resolve fs (join p f)) as [[c|es]|], (resolve fs' (join p f)) as [[c'|es']|];
    try reflexivity; contradiction.
Qed.

Lemma same_subdirs (p : path) : subdirs fs' p = subdirs fs p.
Proof.
  unfold subdirs. rewrite same_listing. apply List.filter_ext. intros f; apply same_dirb.
Qed.

Lemma same_images (p : path) : images fs' p = images fs p.
Proof. unfold images. rewrite same_listing. reflexivity. Qed.

Lemma same_readFileSync (p : path) : Fs.readFileSync fs' p = Fs.readFileSync fs p.
Proof.
  unfold Fs.readFileSync. specialize (same p).
  destruct (resolve fs p) as [[c|es]|], (resolve fs' p) as [[c'|es']|];
    try reflexivity; try contradiction.
  subst c'. reflexivity.
Qed.

Lemma same_depth_first (base : path) : depth_first fs' base = depth_first fs base.
Proof.
  assert (Hsub : forall c cp sc,
            depth_first_subcat fs' c cp sc = depth_first_subcat fs c cp sc).
  { intros c cp sc. unfold depth_first_subcat. rewrite same_subdirs, same_images.
    destruct (subdirs fs (join cp sc)); [reflexivity|].
    apply List.flat_map_ext. intros ss. rewrite same_images. reflexivity. }
  assert (Hcat : forall c, depth_first_category fs' base c = depth_first_category fs base c).
  { intros c. unfold depth_first_category. rewrite same_subdirs, same_images.
    destruct (subdirs fs (join base c)); [reflexivity|].
    apply List.flat_map_ext. intros sc. apply Hsub. }
  unfold depth_first. rewrite same_subdirs. apply List.flat_map_ext. exact Hcat.
Qed.

Lemma same_walk (base : path) : walk fs' base = walk fs base.
Proof.
  destruct (resolve fs base) as [[c|es]|] eqn:E.
  - pose proof (same base) as H. rewrite E in H.
    destruct (resolve fs' base) as [[c'|es']|] eqn:E'; try contradiction.
    unfold walk, list_dirs, Fs.readdirSync. rewrite E, E'. reflexivity.
  - pose proof (same base) as H. rewrite E in H.
    destruct (resolve fs' base) as [[c'|es']|] eqn:E'; try contradiction.
    rewrite (walk_depth_first fs base), (walk_depth_first fs' base);
      [rewrite same_depth_first; reflexivity | exists es'; exact E' | exists es; exact E].
  - pose proof (same base) as H. rewrite E in H.
    destruct (resolve fs' base) as [[c'|es']|] eqn:E'; try contradiction.
    unfold walk, list_dirs, Fs.readdirSync. rewrite E, E'. reflexivity.
Qed.

Lemma same_processFile (w : world) p c sc ss s :
  processFile w fs' p c sc ss s = processFile w fs p c sc ss s.
Proof. unfold processFile. rewrite same_readFileSync. reflexivity. Qed.

Lemma same_loop (w : world) (ts : list tuple) (s : state) :
  for_of ts (process_tuple w fs') s = for_of ts (process_tuple w fs) s.
Proof.
  revert s; induction ts as [|[[[p c] sc] ss] ts IH]; intros s; [reflexivity|].
  cbn [for_of]. rewrite !bind_run, !process_tuple_run, same_processFile.
  destruct (processFile w fs p c sc ss _) as [[r|e] s1]; [apply IH | reflexivity].
Qed.

(** The run is the same on both. *)
Lemma same_main (w : world) (base : path) (s : state) :
  main w fs' base s = main w fs base s.
Proof.
  assert (H : forall s0, walk_loops w fs' base s0 = walk_loops w fs base s0).
  { intros s0. rewrite !walk_loops_walk, !bind_lift, same_walk.
    destruct (walk fs base); [apply same_loop | reflexivity]. }
  unfold main, walkAndUpload. destruct (connect_ok w); [|reflexivity].
  rewrite !bind_run. unfold console_log at 1 3. rewrite !bind_run, H. reflexivity.
Qed.

End Order.

(** ** Failures and the end of a run *)

Section Endings.

Variable w : world.
Variable fs : node.

(** C2. When a file fails at the decoding step or later (the codec
    rejects it, an upload does not hand over a file, or the insert
    fails), [processFile] throws instead of returning, the run ends with
    exit status 1, and the records the run has added are those of the
    readable files before the failing one: none for the failing file and
    none for any file after it. *)
Theorem late_failure_aborts_run (base : path) (s s1 : state)
    (pre post : list tuple) (t : tuple) :
  connect_ok w = true ->
  walk fs base = Ok (pre ++ t :: post) ->
  for_of pre (process_tuple w fs) (logged LogConnected s) = (Ok tt, s1) ->
  late_failure w fs (fst (fst (fst t))) s1 ->
  exists e s2,
    process_tuple w fs t s1 = (Throw e, s2) /\
    main w fs base s = (1, logged (LogFatalScript e) s2) /\
    imagesMeta (snd (main w fs base s)) = imagesMeta s1 /\
    map doc_key (docs_since s (snd (main w fs base s)))
      = map tuple_key (List.filter (readable fs) pre).
Proof.
  intros Hc Hw Hpre F. destruct t as [[[p c] sc] ss]; simpl in F.
  apply (late_failure_logged w fs p (LogProcessing (basename p) c sc ss)) in F.
  destruct (late_failure_throws w fs p c sc ss _ F) as (e & s2 & Hthrow).
  assert (Ht : process_tuple w fs (p, c, sc, ss) s1 = (Throw e, s2))
    by (rewrite process_tuple_run, Hthrow; reflexivity).
  assert (Hmain : main w fs base s = (1, logged (LogFatalScript e) s2)).
  { rewrite (main_run w fs base _ s Hc Hw), for_of_app, bind_run, Hpre.
    cbn [for_of]. rewrite bind_run, Ht. reflexivity. }
  apply processFile_thrown in Hthrow as (_ & Hm & _). simpl in Hm.
  exists e, s2. split; [exact Ht|]. split; [exact Hmain|].
  rewrite Hmain; simpl. split; [exact Hm|].
  apply run_summary in Hpre as (done & rest & new & lines & Hts & Hm1 & _ & Hk & _ & _ & ->).
  rewrite app_nil_r in Hts; subst done.
  rewrite (docs_since_app s (logged (LogFatalScript e) s2) new), map_map; [exact Hk|].
  simpl. rewrite Hm. exact Hm1.
Qed.

Lemma valid_no_late_failure (t : tuple) (s : state) :
  valid w fs t ->
  (forall n, upload_outcome w n = Flushed) ->
  (forall n, insert_outcome w n = true) ->
  ~ late_failure w fs (fst (fst (fst t))) s.
Proof.
  intros (b & m & Hb & Hc) Hu Hi F.
  destruct F as [b' Hb' Hn | b' m' Hb' Hc' Hf | b' m' Hb' Hc' _ Hf | b' m' Hb' Hc' _ _ Hf].
  - rewrite Hb in Hb'; injection Hb' as <-. exact (Hn m Hc).
  - exact (Hf (Hu _)).
  - exact (Hf (Hu _)).
  - rewrite Hi in Hf; discriminate.
Qed.

(** C3. A file whose read fails is skipped on the spot: [processFile]
    returns [null] having written one line to the console and nothing
    else, whatever the codec and the stores would have done.  A run over
    files that are each either unreadable or valid, with stores that do
    not fault, ends with exit status 0; it has added one record for each
    readable file, in order, and one skip line for each unreadable one. *)
Theorem unreadable_files_are_skipped (base : path) (s : state) (ts : list tuple) :
  connect_ok w = true ->
  walk fs base = Ok ts ->
  (forall t, In t ts -> readable fs t = false \/ valid w fs t) ->
  (forall n, upload_outcome w n = Flushed) ->
  (forall n, insert_outcome w n = true) ->
  (forall w' p c sc ss s0 e,
     Fs.readFileSync fs p = Throw e ->
     processFile w' fs p c sc ss s0 = (Ok None, logged (LogReadFailed (basename p) e) s0)) /\
  fst (main w fs base s) = 0 /\
  map doc_key (docs_since s (snd (main w fs base s)))
    = map tuple_key (List.filter (readable fs) ts) /\
  List.length (List.filter is_skip (lines_since s (snd (main w fs base s))))
    = List.length (List.filter (fun t => negb (readable fs t)) ts).
Proof.
  intros Hc Hw Hts Hu Hi. split.
  { intros w' p c sc ss s0 e He. unfold processFile; rewrite He. reflexivity. }
  destruct (main_summary w fs base ts s Hc Hw)
    as (done & rest & Hsplit & Hk & _ & Hsk & [(Hz & -> & _) | (_ & t & post & s_t & e & -> & Hrd & F & _)]).
  - rewrite app_nil_r in Hsplit; subst done. split; [exact Hz|]. split; assumption.
  - exfalso. destruct (Hts t) as [Hn|Hv].
    + subst ts; apply in_or_app; right; left; reflexivity.
    + congruence.
    + exact (valid_no_late_failure t s_t Hv Hu Hi F).
Qed.

(** C6.  The records a run adds are, in order, the records of the
    readable tuples the walker yielded up to where the run stopped, all
    of them when the run ends with status 0.  The walker yields the
    depth-first sequence over categories, subcategories and
    sub-subcategories, in which the directories and the files of each
    directory come in lexical order, the order [readdirSync] returns
    them in.  The order is that of the tree alone: on another disk that
    holds the same tree, in whatever order it keeps its entries, the
    walker yields the same sequence and the run is the same. *)
Theorem records_follow_listing_order (base : path) (s : state) (ts : list tuple) :
  connect_ok w = true ->
  walk fs base = Ok ts ->
  ts = depth_first fs base /\
  (forall p, lex_sorted (subdirs fs p) = true /\ lex_sorted (images fs p) = true) /\
  (forall p names, Fs.readdirSync fs p = Ok names -> lex_sorted names = true) /\
  (exists done rest,
     ts = done ++ rest /\
     map doc_key (docs_since s (snd (main w fs base s)))
       = map tuple_key (List.filter (readable fs) done) /\
     (fst (main w fs base s) = 0 -> rest = [])) /\
  (forall fs', same_tree fs fs' ->
     walk fs' base = Ok ts /\ main w fs' base s = main w fs base s).
Proof.
  intros Hc Hw. split; [apply walk_Ok_depth_first; exact Hw|].
  split; [intros p; split; apply (listings_in_lexical_order fs p)|].
  split; [intros p; apply (listings_in_lexical_order fs p)|].
  split.
  - destruct (main_summary w fs base ts s Hc Hw)
      as (done & rest & Hsplit & Hk & _ & _ & Hend).
    exists done, rest. split; [exact Hsplit|]. split; [exact Hk|].
    intros Hz. destruct Hend as [(_ & Hr & _) | (H1 & _)]; [exact Hr | congruence].
  - intros fs' Hsame. split.
    + rewrite (same_walk fs fs' Hsame base). exact Hw.
    + apply (same_main fs fs' Hsame).
Qed.

(** C8, as the code has it.  A run that ends with status 0 has written,
    for the tuples the walker yielded, one success line per file that
    was processed, as many as the records it added, and one skip line per
    file whose read failed; its last line is the fixed completion line. *)
Theorem lines_count_processed_and_skipped (base : path) (s : state) :
  fst (main w fs base s) = 0 ->
  exists ts,
    walk fs base = Ok ts /\
    List.length (List.filter is_success (lines_since s (snd (main w fs base s))))
      = List.length (List.filter (readable fs) ts) /\
    List.length (docs_since s (snd (main w fs base s)))
      = List.length (List.filter (readable fs) ts) /\
    List.length (List.filter is_skip (lines_since s (snd (main w fs base s))))
      = List.length (List.filter (fun t => negb (readable fs t)) ts) /\
    last (console (snd (main w fs base s))) = Some LogComplete.
Proof.
  intros Hz.
  assert (Hc : connect_ok w = true).
  { unfold main, walkAndUpload in Hz. destruct (connect_ok w); [reflexivity|].
    simpl in Hz; discriminate. }
  destruct (walk fs base) as [ts|e] eqn:Hw.
  2:{ exfalso. unfold main, walkAndUpload in Hz. rewrite Hc in Hz.
      rewrite bind_run in Hz; unfold console_log at 1 in Hz; rewrite bind_run in Hz.
      rewrite walk_loops_walk, bind_lift, Hw in Hz. simpl in Hz; discriminate. }
  exists ts. split; [reflexivity|].
  destruct (main_summary w fs base ts s Hc Hw)
    as (done & rest & Hsplit & Hk & Hs & Hsk & [(_ & -> & Hlast) | (H1 & _)]); [|congruence].
  rewrite app_nil_r in Hsplit; subst done.
  apply (f_equal (@List.length _)) in Hk. rewrite !length_map in Hk.
  rewrite Hs, Hk. repeat split; assumption.
Qed.

End Endings.

(** ** The properties on sample inputs *)

(** The scenario of one image under [Ribbons/Velvet]: exit status 0, one
    record with that category and subcategory and no sub-subcategory, and
    two files in the bucket tagged thumbnail and full. *)
Example ribbons_scenario :
  fst (main Demo.calm Demo.ribbons Demo.root Demo.empty) = 0
  /\ map (fun x => doc_key (snd x))
       (imagesMeta (snd (main Demo.calm Demo.ribbons Demo.root Demo.empty)))
     = [("a.jpg", "Ribbons", Some "Velvet", None)]
  /\ (fun f => tag_variant (file_metadata f))
       <$> gridfs (snd (main Demo.calm Demo.ribbons Demo.root Demo.empty)) !! 0%N
     = Some "thumbnail"
  /\ (fun f => tag_variant (file_metadata f))
       <$> gridfs (snd (main Demo.calm Demo.ribbons Demo.root Demo.empty)) !! 1%N
     = Some "full"
  /\ size (gridfs (snd (main Demo.calm Demo.ribbons Demo.root Demo.empty))) = 2%nat.
Proof. vm_compute. repeat split; reflexivity. Qed.

Lemma placeholder_is_inline_witness :
  Fs.readFileSync Demo.ribbons Demo.velvet_a = Ok (Demo.photo 2000)
  /\ processFile Demo.calm Demo.ribbons Demo.velvet_a "Ribbons" (Some "Velvet") None Demo.empty
     = (Ok (Some 2%N), snd Demo.ribbons_run)
  /\ exists placeholder d,
       Sharp.toBuffer (codec Demo.calm) (lqipPipeline (Demo.photo 2000)) = Ok placeholder /\
       Sharp.out_width placeholder = 20 /\
       Sharp.out_blur placeholder = Some 1 /\
       Sharp.out_quality placeholder = Some 30 /\
       last (imagesMeta (snd Demo.ribbons_run)) = Some (2%N, d) /\
       lqip d = "data:image/webp;base64,"
                +:+ Base64.encode (webp_bytes Demo.calm placeholder) /\
       (forall name t img o,
          In (OpUpload name t img o) (ops_since Demo.empty (snd Demo.ribbons_run)) ->
          img <> placeholder).
Proof.
  assert (H1 : Fs.readFileSync Demo.ribbons Demo.velvet_a = Ok (Demo.photo 2000))
    by reflexivity.
  assert (H2 : processFile Demo.calm Demo.ribbons Demo.velvet_a "Ribbons" (Some "Velvet")
                 None Demo.empty = (Ok (Some 2%N), snd Demo.ribbons_run))
    by (vm_compute; reflexivity).
  assert (P : Sharp.toBuffer (codec Demo.calm) (lqipPipeline (Demo.photo 2000))
              = Ok (variant_image lqipPipeline (Demo.photo 2000)
                      {| Sharp.width := 2000; Sharp.height := 10; Sharp.format := "jpeg" |}))
    by reflexivity.
  split; [exact H1|]. split; [exact H2|].
  destruct (placeholder_is_inline Demo.calm Demo.ribbons Demo.velvet_a "Ribbons"
              (Some "Velvet") None Demo.empty _ _ (Demo.photo 2000) H1 H2) as (Hpl & _).
  destruct (Hpl _ P) as (W & B & Q & _ & Hrec & Hup & _).
  destruct (Hrec 2%N eq_refl) as (d & Hlast & Hd).
  eexists _, d. split; [exact P|]. split; [exact W|]. split; [exact B|].
  split; [exact Q|]. split; [exact Hlast|]. split; [exact Hd|].
  intros name t img o Hin. exact (proj1 (Hup name t img o Hin)).
Defined.

(** C7 as stated fails: [sliver.png], 10 wide and 10000 high, is read and
    decodes, but its placeholder, 20 wide, would be 20000 pixels high and
    is not produced; the run over it ends with status 1 and leaves no
    record, so none that embeds a placeholder. *)
Lemma accepted_source_without_placeholder :
  Fs.readFileSync Demo.sliver ["Lace"; "sliver.png"] = Ok (Demo.tall_photo 10 10000)
  /\ codec Demo.calm (Demo.tall_photo 10 10000)
     = Sharp.Decodable {| Sharp.width := 10; Sharp.height := 10000; Sharp.format := "png" |}
  /\ Sharp.toBuffer (codec Demo.calm) (lqipPipeline (Demo.tall_photo 10 10000))
     = Throw (SharpError (Demo.tall_photo 10 10000))
  /\ fst (main Demo.calm Demo.sliver Demo.root Demo.empty) = 1
  /\ imagesMeta (snd (main Demo.calm Demo.sliver Demo.root Demo.empty)) = []
  /\ journal (snd (main Demo.calm Demo.sliver Demo.root Demo.empty)) = [].
Proof. repeat split; vm_compute; reflexivity. Qed.

Lemma late_failure_aborts_run_witness :
  connect_ok Demo.calm = true
  /\ walk Demo.broken Demo.root
     = Ok ([Demo.lace "a.jpg"] ++ Demo.lace "b.jpg" :: [Demo.lace "c.png"])
  /\ for_of [Demo.lace "a.jpg"] (process_tuple Demo.calm Demo.broken)
       (logged LogConnected Demo.empty) = (Ok tt, Demo.broken_s1)
  /\ late_failure Demo.calm Demo.broken ["Lace"; "b.jpg"] Demo.broken_s1
  /\ exists e s2,
    process_tuple Demo.calm Demo.broken (Demo.lace "b.jpg") Demo.broken_s1 = (Throw e, s2) /\
    main Demo.calm Demo.broken Demo.root Demo.empty = (1, logged (LogFatalScript e) s2) /\
    imagesMeta (snd (main Demo.calm Demo.broken Demo.root Demo.empty))
      = imagesMeta Demo.broken_s1 /\
    map doc_key (docs_since Demo.empty (snd (main Demo.calm Demo.broken Demo.root Demo.empty)))
      = map (tuple_key) (List.filter (readable Demo.broken) [Demo.lace "a.jpg"]).
Proof.
  assert (H1 : connect_ok Demo.calm = true) by reflexivity.
  assert (H2 : walk Demo.broken Demo.root
               = Ok ([Demo.lace "a.jpg"] ++ Demo.lace "b.jpg" :: [Demo.lace "c.png"]))
    by reflexivity.
  assert (H3 : for_of [Demo.lace "a.jpg"] (process_tuple Demo.calm Demo.broken)
                 (logged LogConnected Demo.empty) = (Ok tt, Demo.broken_s1))
    by (vm_compute; reflexivity).
  assert (H4 : late_failure Demo.calm Demo.broken ["Lace"; "b.jpg"] Demo.broken_s1).
  { apply (Decode_failure Demo.calm Demo.broken ["Lace"; "b.jpg"] Demo.broken_s1 Demo.corrupt).
    - reflexivity.
    - intros m [Hm _]. vm_compute in Hm. discriminate Hm. }
  split; [exact H1|]. split; [exact H2|]. split; [exact H3|]. split; [exact H4|].
  exact (late_failure_aborts_run Demo.calm Demo.broken Demo.root Demo.empty Demo.broken_s1
           [Demo.lace "a.jpg"] [Demo.lace "c.png"] (Demo.lace "b.jpg") H1 H2 H3 H4).
Defined.

Lemma unreadable_files_are_skipped_witness :
  connect_ok Demo.calm = true
  /\ walk Demo.mixed Demo.root
     = Ok [Demo.lace "a.jpg"; Demo.lace "b.jpg"; Demo.lace "c.png"]
  /\ (forall t, In t [Demo.lace "a.jpg"; Demo.lace "b.jpg"; Demo.lace "c.png"] ->
        readable Demo.mixed t = false \/ valid Demo.calm Demo.mixed t)
  /\ (forall n, upload_outcome Demo.calm n = Flushed)
  /\ (forall n, insert_outcome Demo.calm n = true)
  /\ (forall w' p c sc ss s0 e,
        Fs.readFileSync Demo.mixed p = Throw e ->
        processFile w' Demo.mixed p c sc ss s0
        = (Ok None, logged (LogReadFailed (basename p) e) s0))
  /\ fst (main Demo.calm Demo.mixed Demo.root Demo.empty) = 0
  /\ map doc_key (docs_since Demo.empty (snd (main Demo.calm Demo.mixed Demo.root Demo.empty)))
     = map (tuple_key)
         (List.filter (readable Demo.mixed)
            [Demo.lace "a.jpg"; Demo.lace "b.jpg"; Demo.lace "c.png"])
  /\ List.length (List.filter is_skip
       (lines_since Demo.empty (snd (main Demo.calm Demo.mixed Demo.root Demo.empty))))
     = List.length (List.filter (fun t => negb (readable Demo.mixed t))
                      [Demo.lace "a.jpg"; Demo.lace "b.jpg"; Demo.lace "c.png"]).
Proof.
  assert (H1 : connect_ok Demo.calm = true) by reflexivity.
  assert (H2 : walk Demo.mixed Demo.root
               = Ok [Demo.lace "a.jpg"; Demo.lace "b.jpg"; Demo.lace "c.png"])
    by reflexivity.
  assert (H3 : forall t, In t [Demo.lace "a.jpg"; Demo.lace "b.jpg"; Demo.lace "c.png"] ->
                 readable Demo.mixed t = false \/ valid Demo.calm Demo.mixed t).
  { intros t [<-|[<-|[<-|[]]]].
    - right. exists (Demo.photo 800),
        {| Sharp.width := 800; Sharp.height := 10; Sharp.format := "jpeg" |}.
      split; [reflexivity | repeat split; reflexivity].
    - left; reflexivity.
    - right. exists (Demo.photo 300),
        {| Sharp.width := 300; Sharp.height := 10; Sharp.format := "jpeg" |}.
      split; [reflexivity | repeat split; reflexivity]. }
  assert (H4 : forall n, upload_outcome Demo.calm n = Flushed) by reflexivity.
  assert (H5 : forall n, insert_outcome Demo.calm n = true) by reflexivity.
  split; [exact H1|]. split; [exact H2|]. split; [exact H3|].
  split; [exact H4|]. split; [exact H5|].
  exact (unreadable_files_are_skipped Demo.calm Demo.mixed Demo.root Demo.empty
           [Demo.lace "a.jpg"; Demo.lace "b.jpg"; Demo.lace "c.png"] H1 H2 H3 H4 H5).
Defined.

Lemma loose_files_beside_subsubdirs_are_skipped_witness :
  walk Demo.quirk Demo.root = Ok Demo.quirk_tuples
  /\ In "Ribbons" (subdirs Demo.quirk Demo.root)
  /\ In "Velvet" (subdirs Demo.quirk (join Demo.root "Ribbons"))
  /\ subdirs Demo.quirk ["Ribbons"; "Velvet"] <> []
  /\ (forall w s, walk_loops w Demo.quirk Demo.root s
                  = for_of Demo.quirk_tuples (process_tuple w Demo.quirk) s)
  /\ ~ In ["Ribbons"; "Velvet"; "loose.jpg"] (map path_of Demo.quirk_tuples)
  /\ In (["Ribbons"; "Velvet"; "Cotton"; "in.jpg"], "Ribbons", Some "Velvet", Some "Cotton")
        Demo.quirk_tuples.
Proof.
  assert (H1 : walk Demo.quirk Demo.root = Ok Demo.quirk_tuples) by reflexivity.
  assert (H2 : In "Ribbons" (subdirs Demo.quirk Demo.root)) by (left; reflexivity).
  assert (H3 : In "Velvet" (subdirs Demo.quirk (join Demo.root "Ribbons")))
    by (right; left; reflexivity).
  assert (H4 : subdirs Demo.quirk ["Ribbons"; "Velvet"] <> []) by discriminate.
  assert (H5 : In "Cotton" (subdirs Demo.quirk ["Ribbons"; "Velvet"]))
    by (left; reflexivity).
  assert (H6 : In "in.jpg" (images Demo.quirk ["Ribbons"; "Velvet"; "Cotton"]))
    by (left; reflexivity).
  split; [exact H1|]. split; [exact H2|]. split; [exact H3|]. split; [exact H4|].
  pose proof (loose_files_beside_subsubdirs_are_skipped Demo.quirk Demo.root
                "Ribbons" "Velvet" Demo.quirk_tuples H1 H2 H3) as H.
  cbv zeta in H. destruct H as (Hloops & Hquirk & _).
  destruct (Hquirk H4) as (Hloose & _ & Hin).
  split; [exact Hloops|]. split; [exact (Hloose "loose.jpg")|].
  exact (Hin "Cotton" "in.jpg" H5 H6).
Defined.

Lemma records_follow_listing_order_witness :
  connect_ok Demo.calm = true
  /\ walk Demo.unsorted Demo.root = Ok [Demo.lace "a.jpg"; Demo.lace "b.jpg"]
  /\ fst (main Demo.calm Demo.unsorted Demo.root Demo.empty) = 0
  /\ map doc_key
       (docs_since Demo.empty (snd (main Demo.calm Demo.unsorted Demo.root Demo.empty)))
     = [("a.jpg", "Lace", None, None); ("b.jpg", "Lace", None, None)].
Proof.
  assert (H1 : connect_ok Demo.calm = true) by reflexivity.
  assert (H2 : walk Demo.unsorted Demo.root = Ok [Demo.lace "a.jpg"; Demo.lace "b.jpg"])
    by reflexivity.
  assert (H3 : fst (main Demo.calm Demo.unsorted Demo.root Demo.empty) = 0)
    by (vm_compute; reflexivity).
  split; [exact H1|]. split; [exact H2|]. split; [exact H3|].
  destruct (records_follow_listing_order Demo.calm Demo.unsorted Demo.root Demo.empty
              [Demo.lace "a.jpg"; Demo.lace "b.jpg"] H1 H2)
    as (_ & _ & _ & (done & rest & Hsplit & Hk & Hrest) & _).
  rewrite (Hrest H3), app_nil_r in Hsplit. subst done. rewrite Hk. reflexivity.
Defined.

(** C8 as stated fails: no reading of the last line of a run gives the
    number of files it processed, for a run over an empty root and a run
    over one image both end with status 0 and the same last line. *)
Lemma completion_line_carries_no_count :
  ~ exists report : logLine -> nat,
      forall fs,
        fst (main Demo.calm fs Demo.root Demo.empty) = 0 ->
        report <$> last (console (snd (main Demo.calm fs Demo.root Demo.empty)))
        = Some (List.length (docs_since Demo.empty
                               (snd (main Demo.calm fs Demo.root Demo.empty)))).
Proof.
  intros [report H].
  pose proof (H Demo.nothing eq_refl) as H0.
  pose proof (H Demo.ribbons eq_refl) as H1.
  vm_compute in H0. vm_compute in H1. congruence.
Qed.

Lemma lines_count_processed_and_skipped_witness :
  fst (main Demo.calm Demo.mixed Demo.root Demo.empty) = 0
  /\ exists ts,
    walk Demo.mixed Demo.root = Ok ts /\
    List.length (List.filter is_success
      (lines_since Demo.empty (snd (main Demo.calm Demo.mixed Demo.root Demo.empty))))
      = List.length (List.filter (readable Demo.mixed) ts) /\
    List.length (docs_since Demo.empty (snd (main Demo.calm Demo.mixed Demo.root Demo.empty)))
      = List.length (List.filter (readable Demo.mixed) ts) /\
    List.length (List.filter is_skip
      (lines_since Demo.empty (snd (main Demo.calm Demo.mixed Demo.root Demo.empty))))
      = List.length (List.filter (fun t => negb (readable Demo.mixed t)) ts) /\
    last (console (snd (main Demo.calm Demo.mixed Demo.root Demo.empty))) = Some LogComplete.
Proof.
  assert (H1 : fst (main Demo.calm Demo.mixed Demo.root Demo.empty) = 0)
    by (vm_compute; reflexivity).
  split; [exact H1|].
  exact (lines_count_processed_and_skipped Demo.calm Demo.mixed Demo.root Demo.empty H1).
Defined.

(** ** The read side *)

Section ReadSide.

Variable e : Server.env.

(** A malformed id is answered with 400. *)
Lemma malformed_id_400 (fileId : string) :
  Server.parseObjectId e fileId = None ->
  fst (Server.serve e fileId) = Ok tt
  /\ Server.status_sent (snd (Server.serve e fileId)) = Some 400
  /\ Server.body (snd (Server.serve e fileId)) = Server.bytes_of "bad id"
  /\ Server.ended (snd (Server.serve e fileId)) = true.
Proof.
  intros H. unfold Server.serve, Server.get_file; rewrite H. repeat split; reflexivity.
Qed.

(** An id no stored file has is answered with 404. *)
Lemma unknown_id_404 (fileId : string) (id : oid) :
  Server.parseObjectId e fileId = Some id ->
  Server.files e !! id = None ->
  fst (Server.serve e fileId) = Ok tt
  /\ Server.status_sent (snd (Server.serve e fileId)) = Some 404
  /\ Server.body (snd (Server.serve e fileId)) = Server.bytes_of "file not found"
  /\ Server.ended (snd (Server.serve e fileId)) = true.
Proof.
  intros H1 H2. unfold Server.serve, Server.get_file; rewrite H1, H2.
  repeat split; reflexivity.
Qed.

Lemma pipe_chunks (cs : list buffer) (r : Server.response) :
  for_of cs Server.write r
  = (Ok tt,
     match cs with
     | [] => r
     | _ => {| Server.statusCode := Server.statusCode r;
               Server.headers := Server.headers r;
               Server.head := Some (default (Server.statusCode r, Server.headers r)
                                      (Server.head r));
               Server.body := Server.body r ++ List.concat cs;
               Server.ended := Server.ended r |}
     end).
Proof.
  revert r; induction cs as [|c cs IH]; intros r; [reflexivity|].
  cbn [for_of]. rewrite bind_run. unfold Server.write at 1. rewrite IH.
  destruct cs as [|c' cs]; simpl; [rewrite app_nil_r; reflexivity|].
  rewrite <- !app_assoc. reflexivity.
Qed.

(** For a stored file the two headers are set and the stream is piped. *)
Lemma serve_stored (fileId : string) (id : oid) (doc : Server.fileDoc) :
  Server.parseObjectId e fileId = Some id ->
  Server.files e !! id = Some doc ->
  Server.serve e fileId
  = Server.pipe (Server.openDownloadStream e id) (Server.sendStatus 500)
      {| Server.statusCode := 200;
         Server.headers :=
           <["cache-control" := "public, max-age=31536000, immutable"]>
             (<["content-type" := default "image/webp" (or_null (Server.contentType doc))]> ∅);
         Server.head := None; Server.body := []; Server.ended := false |}.
Proof.
  intros H1 H2. unfold Server.serve, Server.get_file; rewrite H1, H2. reflexivity.
Qed.

(** A stored file whose stream ends normally is served whole, with its
    stored content type (or the default) and the long-lived cache
    directive. *)
Lemma stored_file_served (fileId : string) (id : oid) (doc : Server.fileDoc) :
  Server.parseObjectId e fileId = Some id ->
  Server.files e !! id = Some doc ->
  Server.faults (Server.openDownloadStream e id) = false ->
  fst (Server.serve e fileId) = Ok tt
  /\ Server.status_sent (snd (Server.serve e fileId)) = Some 200
  /\ Server.header_sent "content-type" (snd (Server.serve e fileId))
     = Some (default "image/webp" (or_null (Server.contentType doc)))
  /\ Server.header_sent "cache-control" (snd (Server.serve e fileId))
     = Some "public, max-age=31536000, immutable"
  /\ Server.body (snd (Server.serve e fileId))
     = List.concat (Server.chunks (Server.openDownloadStream e id))
  /\ Server.ended (snd (Server.serve e fileId)) = true.
Proof.
  intros H1 H2 H3. rewrite (serve_stored fileId id doc H1 H2).
  unfold Server.pipe. rewrite bind_run, pipe_chunks, H3.
  destruct (Server.chunks (Server.openDownloadStream e id)); simpl;
    repeat split; reflexivity.
Qed.

(** A stream that faults before its first chunk is answered with 500. *)
Lemma fault_before_first_chunk_500 (fileId : string) (id : oid) (doc : Server.fileDoc) :
  Server.parseObjectId e fileId = Some id ->
  Server.files e !! id = Some doc ->
  Server.openDownloadStream e id = {| Server.chunks := []; Server.faults := true |} ->
  fst (Server.serve e fileId) = Ok tt
  /\ Server.status_sent (snd (Server.serve e fileId)) = Some 500
  /\ Server.body (snd (Server.serve e fileId)) = Server.bytes_of "Internal Server Error"
  /\ Server.ended (snd (Server.serve e fileId)) = true.
Proof.
  intros H1 H2 H3. unfold Server.serve, Server.get_file; rewrite H1, H2, H3.
  repeat split; reflexivity.
Qed.

(** A stream that faults after a chunk went out cannot be answered with
    500: the head is out with status 200, [sendStatus] throws, and the
    response is left unfinished. *)
Lemma fault_after_first_chunk (fileId : string) (id : oid) (doc : Server.fileDoc)
    (c : buffer) (cs : list buffer) :
  Server.parseObjectId e fileId = Some id ->
  Server.files e !! id = Some doc ->
  Server.openDownloadStream e id = {| Server.chunks := c :: cs; Server.faults := true |} ->
  fst (Server.serve e fileId) = Throw HeadersSent
  /\ Server.status_sent (snd (Server.serve e fileId)) = Some 200
  /\ Server.body (snd (Server.serve e fileId)) = List.concat (c :: cs)
  /\ Server.ended (snd (Server.serve e fileId)) = false.
Proof.
  intros H1 H2 H3. rewrite (serve_stored fileId id doc H1 H2), H3.
  unfold Server.pipe. rewrite bind_run, pipe_chunks. simpl.
  repeat split; reflexivity.
Qed.

End ReadSide.

(** C9 fails on a stream that faults in mid-transfer.  The file with id
    2 is stored; its stream emits one chunk and then an error.  The
    client has by then been sent status 200 and that chunk, [sendStatus]
    throws, and no 500 goes out. *)
Theorem mid_transfer_fault_is_not_answered_500 :
  Server.parseObjectId ServerDemo.env ServerDemo.id2 = Some 2%N
  /\ is_Some (Server.files ServerDemo.env !! 2%N)
  /\ Server.faults (Server.openDownloadStream ServerDemo.env 2%N) = true
  /\ fst (Server.serve ServerDemo.env ServerDemo.id2) = Throw HeadersSent
  /\ Server.status_sent (snd (Server.serve ServerDemo.env ServerDemo.id2)) = Some 200
  /\ Server.body (snd (Server.serve ServerDemo.env ServerDemo.id2))
     = ["001"%byte; "002"%byte]
  /\ Server.ended (snd (Server.serve ServerDemo.env ServerDemo.id2)) = false.
Proof.
  split; [reflexivity|]. split; [eexists; reflexivity|].
  split; [reflexivity|]. vm_compute. repeat split; reflexivity.
Qed.

(** * Further properties of the ingestion script *)

(** ** What a run keeps *)

Section Keeps.

Variable w : world.
Variable fs : node.

Lemma extends_refl s : extends s s.
Proof.
  split; [exists []; rewrite app_nil_r; reflexivity|].
  split; [exists []; rewrite app_nil_r; reflexivity|].
  split; [exists []; rewrite app_nil_r; reflexivity|].
  split; [lia | reflexivity].
Qed.

Lemma extends_trans s1 s2 s3 : extends s1 s2 -> extends s2 s3 -> extends s1 s3.
Proof.
  intros ([a Ha] & [b Hb] & [c Hc] & Hn & Hg) ([a' Ha'] & [b' Hb'] & [c' Hc'] & Hn' & Hg').
  split; [exists (a ++ a'); rewrite Ha', Ha, app_assoc; reflexivity|].
  split; [exists (b ++ b'); rewrite Hb', Hb, app_assoc; reflexivity|].
  split; [exists (c ++ c'); rewrite Hc', Hc, app_assoc; reflexivity|].
  split; [lia|]. intros k Hk. rewrite Hg' by lia. apply Hg; exact Hk.
Qed.

Lemma extends_logged l s : extends s (logged l s).
Proof.
  split; [exists []; simpl; rewrite app_nil_r; reflexivity|].
  split; [exists []; simpl; rewrite app_nil_r; reflexivity|].
  split; [exists [l]; reflexivity|]. split; [simpl; lia | reflexivity].
Qed.

Lemma extends_record_op op s : extends s (record_op op s).
Proof.
  split; [exists []; simpl; rewrite app_nil_r; reflexivity|].
  split; [exists [op]; reflexivity|].
  split; [exists []; simpl; rewrite app_nil_r; reflexivity|].
  split; [simpl; lia | reflexivity].
Qed.

Lemma extends_store_file f s : file_id f = next_oid s -> extends s (store_file f s).
Proof.
  intros Hf.
  split; [exists []; simpl; rewrite app_nil_r; reflexivity|].
  split; [exists []; simpl; rewrite app_nil_r; reflexivity|].
  split; [exists []; simpl; rewrite app_nil_r; reflexivity|].
  split; [simpl; lia|]. intros k Hk. simpl. apply lookup_insert_ne. rewrite Hf. lia.
Qed.

Lemma extends_store_doc d s : extends s (store_doc d s).
Proof.
  split; [exists [(next_oid s, d)]; reflexivity|].
  split; [exists []; simpl; rewrite app_nil_r; reflexivity|].
  split; [exists []; simpl; rewrite app_nil_r; reflexivity|].
  split; [simpl; lia | reflexivity].
Qed.

Lemma extends_after_upload name t img r s : extends s (after_upload name t img r s).
Proof.
  destruct r; simpl; try apply extends_record_op;
    (eapply extends_trans; [apply extends_record_op | apply extends_store_file; reflexivity]).
Qed.

Lemma store_ok_same (s s' : state) :
  gridfs s' = gridfs s -> imagesMeta s' = imagesMeta s -> next_oid s' = next_oid s ->
  store_ok s -> store_ok s'.
Proof.
  unfold store_ok, references_ok. intros -> -> ->. tauto.
Qed.

Lemma store_ok_store_file f s :
  file_id f = next_oid s -> store_ok s -> store_ok (store_file f s).
Proof.
  intros Hf (Hfiles & Hdocs & Hnd).
  assert (Hold : forall k g, gridfs s !! k = Some g ->
                   gridfs (store_file f s) !! k = Some g).
  { intros k g Hk. simpl. rewrite lookup_insert_ne; [exact Hk|].
    destruct (Hfiles k g Hk) as [_ Hlt]. rewrite Hf. lia. }
  split; [|split; [|exact Hnd]].
  - intros k g Hk. simpl in *. apply lookup_insert_Some in Hk as [[<- <-]|[Hne Hk]].
    + split; [reflexivity | rewrite Hf; lia].
    + destruct (Hfiles k g Hk). split; [assumption | lia].
  - intros id d Hin. destruct (Hdocs id d Hin) as (Hlt & Hnone & Href).
    split; [simpl; lia|]. split.
    + simpl. rewrite lookup_insert_ne; [exact Hnone | rewrite Hf; lia].
    + destruct Href as (tf & ff & Ht & Hff & Hrest).
      exists tf, ff. split; [apply Hold; exact Ht|]. split; [apply Hold; exact Hff|].
      exact Hrest.
Qed.

Lemma store_ok_store_doc d s :
  references_ok s d -> store_ok s -> store_ok (store_doc d s).
Proof.
  intros Href (Hfiles & Hdocs & Hnd).
  assert (Hfree : gridfs s !! next_oid s = None).
  { destruct (gridfs s !! next_oid s) as [g|] eqn:E; [|reflexivity].
    destruct (Hfiles _ _ E); lia. }
  split; [|split].
  - intros k g Hk. destruct (Hfiles k g Hk). split; [assumption | simpl; lia].
  - intros id d' Hin. simpl in Hin. apply in_app_or in Hin as [Hin|[[= <- <-]|[]]].
    + destruct (Hdocs id d' Hin) as (Hlt & Hnone & Hr).
      split; [simpl; lia|]. split; assumption.
    + split; [simpl; lia|]. split; assumption.
  - simpl. rewrite map_app; simpl. apply NoDup_app. split; [exact Hnd|].
    split; [|apply NoDup_cons; split; [intros []%elem_of_nil | apply NoDup_nil_2]].
    intros x Hx Hx'. apply list_elem_of_In in Hx, Hx'. destruct Hx' as [<-|[]].
    apply in_map_iff in Hx as ([id d'] & Hid & Hin). simpl in Hid; subst id.
    destruct (Hdocs _ _ Hin); lia.
Qed.

Lemma store_ok_after_upload name t img r s :
  store_ok s -> store_ok (after_upload name t img r s).
Proof.
  intros H. destruct r; simpl.
  - apply store_ok_store_file; [reflexivity|].
    apply (store_ok_same s); [reflexivity.. | exact H].
  - apply (store_ok_same s); [reflexivity.. | exact H].
  - apply store_ok_store_file; [reflexivity|].
    apply (store_ok_same s); [reflexivity.. | exact H].
Qed.

(** The record a call is about to write has its references in order. *)
Lemma references_of_new_record p c sc ss b m now s :
  let s1 := after_upload (basename p +:+ "-thumb.webp") (variant_tags c sc ss "thumbnail")
              (variant_image thumbPipeline b m) Flushed s in
  let s2 := after_upload (basename p +:+ "-full.webp") (variant_tags c sc ss "full")
              (variant_image fullPipeline b m) Flushed s1 in
  references_ok s2 (doc_of w p c sc ss b m (next_oid s) (next_oid s1) now).
Proof.
  cbv zeta. eexists _, _. simpl.
  split; [rewrite lookup_insert_ne by lia; apply lookup_insert_eq|].
  split; [apply lookup_insert_eq|].
  split; [lia|]. repeat split; reflexivity.
Qed.

Lemma file_run_keeps p c sc ss s r s' :
  file_run w fs p c sc ss s r s' ->
  extends s s' /\ (store_ok s -> store_ok s').
Proof.
  intros R.
  destruct R as [e He | b Hb Hc | b m r1 e Hb Hc Hu Hr | b m r2 e Hb Hc Hu1 s1 Hu2 Hr
                 | b m ok Hb Hc Hu1 s1 Hu2 s2 Hi d].
  - split; [apply extends_logged | apply store_ok_same; reflexivity].
  - split; [apply extends_refl | tauto].
  - split; [apply extends_after_upload | apply store_ok_after_upload].
  - split.
    + eapply extends_trans; apply extends_after_upload.
    + intros H. apply store_ok_after_upload. subst s1. apply store_ok_after_upload, H.
  - assert (E2 : extends s s2)
      by (eapply extends_trans; apply extends_after_upload).
    assert (K2 : store_ok s -> store_ok s2)
      by (intros H; subst s2 s1; apply store_ok_after_upload, store_ok_after_upload, H).
    destruct ok.
    + split.
      * eapply extends_trans; [exact E2|].
        eapply extends_trans; [apply (extends_record_op (OpInsert d true))|].
        eapply extends_trans; [apply extends_store_doc | apply extends_logged].
      * intros H. apply (store_ok_same (store_doc d (record_op (OpInsert d true) s2)));
          [reflexivity.. |].
        apply store_ok_store_doc.
        -- exact (references_of_new_record p c sc ss b m
                    (date_now w (List.length (journal s2))) s).
        -- apply (store_ok_same s2); [reflexivity.. | apply K2, H].
    + split.
      * eapply extends_trans; [exact E2 | apply extends_record_op].
      * intros H. apply (store_ok_same s2); [reflexivity.. | apply K2, H].
Qed.

Lemma for_of_keeps (ts : list tuple) : forall s r s',
  for_of ts (process_tuple w fs) s = (r, s') ->
  extends s s' /\ (store_ok s -> store_ok s').
Proof.
  induction ts as [|[[[p c] sc] ss] ts IH]; intros s r s' H.
  - injection H as <- <-. split; [apply extends_refl | tauto].
  - cbn [for_of] in H. rewrite bind_run, process_tuple_run in H.
    pose proof (processFile_run w fs p c sc ss (logged (LogProcessing (basename p) c sc ss) s))
      as R.
    destruct (processFile w fs p c sc ss _) as [[a|e] s1]; simpl in R;
      apply file_run_keeps in R as [E K].
    + apply IH in H as [E' K']. split.
      * eapply extends_trans; [apply extends_logged|]. eapply extends_trans; eassumption.
      * intros Hs. apply K', K. apply (store_ok_same s); [reflexivity.. | exact Hs].
    + injection H as <- <-. split.
      * eapply extends_trans; [apply extends_logged | exact E].
      * intros Hs. apply K. apply (store_ok_same s); [reflexivity.. | exact Hs].
Qed.

(** How [main] ends, whatever the world: not connected; connected with a
    root that cannot be listed; or the loop over the walker's tuples
    followed by the last console line. *)
Lemma main_cases (base : path) (s : state) :
  (connect_ok w = false /\ main w fs base s = (1, logged LogFatalConnection s))
  \/ (exists e, connect_ok w = true /\ walk fs base = Throw e
        /\ main w fs base s = (1, logged (LogFatalScript e) (logged LogConnected s)))
  \/ (exists ts r s1 l, connect_ok w = true /\ walk fs base = Ok ts
        /\ for_of ts (process_tuple w fs) (logged LogConnected s) = (r, s1)
        /\ snd (main w fs base s) = logged l s1).
Proof.
  destruct (connect_ok w) eqn:Hc.
  2:{ left. split; [reflexivity|]. unfold main, walkAndUpload; rewrite Hc. reflexivity. }
  right. destruct (walk fs base) as [ts|e] eqn:Hw.
  - right. rewrite (main_run w fs base ts s Hc Hw).
    destruct (for_of ts (process_tuple w fs) (logged LogConnected s)) as [[[]|e] s1] eqn:Hrun.
    + exists ts, (Ok tt), s1, LogComplete.
      split; [reflexivity|]. split; [reflexivity|]. split; [exact Hrun | reflexivity].
    + exists ts, (Throw e), s1, (LogFatalScript e).
      split; [reflexivity|]. split; [reflexivity|]. split; [exact Hrun | reflexivity].
  - left. exists e. split; [reflexivity|]. split; [reflexivity|].
    unfold main, walkAndUpload; rewrite Hc.
    rewrite bind_run; unfold console_log at 1; rewrite bind_run.
    rewrite walk_loops_walk, bind_lift, Hw. reflexivity.
Qed.

Lemma main_keeps (base : path) (s : state) :
  extends s (snd (main w fs base s))
  /\ (store_ok s -> store_ok (snd (main w fs base s))).
Proof.
  destruct (main_cases base s) as [(_ & ->) | [(e & _ & _ & ->) | (ts & r & s1 & l & _ & _ & Hrun & ->)]].
  - split; [apply extends_logged | apply store_ok_same; reflexivity].
  - split; [eapply extends_trans; apply extends_logged | apply store_ok_same; reflexivity].
  - apply for_of_keeps in Hrun as [E K]. split.
    + eapply extends_trans; [apply extends_logged|].
      eapply extends_trans; [exact E | apply extends_logged].
    + intros H. apply (store_ok_same s1); [reflexivity.. |].
      apply K. apply (store_ok_same s); [reflexivity.. | exact H].
Qed.

End Keeps.

Section RunProperties.

Variable w : world.
Variable fs : node.

(** X3. A run keeps the stores consistent: started on consistent stores
    it ends, however it ends, with stores in which ids in use lie below
    the next id, no record shares an id with a file or another record,
    and every record's two references resolve to the thumbnail and full
    files uploaded for it.  So does a single call of [processFile]. *)
Theorem run_keeps_stores_consistent (base : path) (s : state) :
  store_ok s ->
  store_ok (snd (main w fs base s))
  /\ (forall id d, In (id, d) (imagesMeta (snd (main w fs base s))) ->
        references_ok (snd (main w fs base s)) d)
  /\ (forall p c sc ss, store_ok (snd (processFile w fs p c sc ss s))).
Proof.
  intros H. destruct (main_keeps w fs base s) as [_ K]. specialize (K H).
  split; [exact K|]. split.
  - intros id d Hin. destruct K as (_ & Hdocs & _). apply (Hdocs id d Hin).
  - intros p c sc ss. pose proof (processFile_run w fs p c sc ss s) as R.
    apply file_run_keeps in R as [_ K']. apply K', H.
Qed.

(** X4. A run never takes anything away.  The records, the store
    operations and the console lines it started with are a prefix of what
    it ends with, and every file the bucket held is still there
    unchanged. *)
Theorem run_never_removes (base : path) (s : state) :
  store_ok s ->
  extends s (snd (main w fs base s))
  /\ (forall k f, gridfs s !! k = Some f -> gridfs (snd (main w fs base s)) !! k = Some f).
Proof.
  intros (Hfiles & _). destruct (main_keeps w fs base s) as [E _].
  split; [exact E|]. intros k f Hk.
  destruct E as (_ & _ & _ & _ & Hg). rewrite Hg; [exact Hk|].
  destruct (Hfiles k f Hk); assumption.
Qed.

(** X5. Nothing is rolled back.  When [processFile] throws, no record
    has been written, and every upload of the call that reached the
    bucket is still in it under an id that no record refers to. *)
Theorem failed_file_leaves_its_uploads p c sc ss (s s' : state) (e : error) :
  store_ok s ->
  processFile w fs p c sc ss s = (Throw e, s') ->
  imagesMeta s' = imagesMeta s
  /\ forall name t img o,
       In (OpUpload name t img o) (ops_since s s') -> o <> StreamFault ->
       exists k f,
         gridfs s' !! k = Some f /\ file_name f = name /\ file_metadata f = t
         /\ file_data f = img
         /\ forall id d, In (id, d) (imagesMeta s') ->
              thumbnailId (variants d) <> k /\ fullId (variants d) <> k.
Proof.
  intros Hok H.
  assert (Hm : imagesMeta s' = imagesMeta s)
    by (apply processFile_thrown in H as (_ & Hm & _); exact Hm).
  split; [exact Hm|].
  assert (Hunref : forall k, (next_oid s <= k)%N ->
            forall id d, In (id, d) (imagesMeta s') ->
              thumbnailId (variants d) <> k /\ fullId (variants d) <> k).
  { intros k Hk id d Hin. rewrite Hm in Hin.
    destruct Hok as (Hfiles & Hdocs & _).
    destruct (Hdocs id d Hin) as (_ & _ & tf & ff & Ht & Hf & _).
    destruct (Hfiles _ _ Ht), (Hfiles _ _ Hf). split; lia. }
  intros name t img o Hin Ho.
  destruct (processFile_ops w fs p c sc ss s _ s' H)
    as [(Hops & _) | (b & m & Hb & Hc & Hcases)].
  { rewrite Hops in Hin; destruct Hin. }
  cbv zeta in Hcases.
  destruct Hcases as [(r1 & e1 & Hr1 & Hops & _ & ->) | [(r2 & e2 & Hr2 & Hops & _ & ->)
                     | (ok & Hops & Hg & Hrest)]]; rewrite Hops in Hin; simpl in Hin.
  - destruct Hin as [[= <- <- <- <-]|[]].
    exists (next_oid s). destruct r1; try congruence.
    eexists; split; [simpl; apply lookup_insert_eq|].
    repeat (split; [reflexivity|]); apply (Hunref (next_oid s)); lia.
  - destruct Hin as [[= <- <- <- <-]|[[= <- <- <- <-]|[]]].
    + exists (next_oid s). eexists. split.
      * destruct r2; try congruence; simpl;
          [apply lookup_insert_eq | rewrite lookup_insert_ne by lia; apply lookup_insert_eq].
      * repeat (split; [reflexivity|]); apply (Hunref (next_oid s)); lia.
    + exists (N.succ (next_oid s)). destruct r2; try congruence.
      eexists; split; [simpl; apply lookup_insert_eq|].
      repeat (split; [reflexivity|]); apply (Hunref (N.succ (next_oid s))); lia.
  - destruct Hin as [[= <- <- <- <-]|[[= <- <- <- <-]|[Hin|[]]]]; [| |discriminate].
    + exists (next_oid s). eexists. rewrite Hg. split.
      * simpl. rewrite lookup_insert_ne by lia. apply lookup_insert_eq.
      * repeat (split; [reflexivity|]); apply (Hunref (next_oid s)); lia.
    + exists (N.succ (next_oid s)). eexists. rewrite Hg. split.
      * simpl. apply lookup_insert_eq.
      * repeat (split; [reflexivity|]); apply (Hunref (N.succ (next_oid s))); lia.
Qed.

(** X6. A call of [processFile] that returns an id has appended exactly
    one record, stored under that id; the record carries the file name,
    the alt text and the classification the call was given; its two
    references differ from each other and from the record's id, and
    resolve in the bucket to the files named after the source file and
    tagged thumbnail and full. *)
Theorem returned_id_names_the_new_record p c sc ss (s s' : state) (id : oid) :
  processFile w fs p c sc ss s = (Ok (Some id), s') ->
  exists d,
    imagesMeta s' = imagesMeta s ++ [(id, d)] /\
    filename d = basename p /\ alt d = Pattern.replace_ext (basename p) /\
    category d = c /\ subcategory d = sc /\
    subsubcategory d = or_null ss /\
    thumbnailId (variants d) <> fullId (variants d) /\
    id <> thumbnailId (variants d) /\
    id <> fullId (variants d) /\
    (exists tf ff, gridfs s' !! thumbnailId (variants d) = Some tf
                   /\ gridfs s' !! fullId (variants d) = Some ff
                   /\ file_name tf = basename p +:+ "-thumb.webp"
                   /\ file_name ff = basename p +:+ "-full.webp"
                   /\ tag_variant (file_metadata tf) = "thumbnail"
                   /\ tag_variant (file_metadata ff) = "full").
Proof.
  intros H. apply processFile_done in H as (b & m & Hb & Hc & H). cbv zeta in H.
  destruct H as (_ & _ & _ & -> & ->).
  eexists. split; [reflexivity|]. simpl.
  do 5 (split; [reflexivity|]).
  split; [lia|]. split; [lia|]. split; [lia|].
  eexists _, _.
  split; [rewrite lookup_insert_ne by lia; apply lookup_insert_eq|].
  split; [apply lookup_insert_eq|]. repeat split; reflexivity.
Qed.

(** X7. Nothing is deduplicated.  Two runs in a row over the same tree
    that both end with status 0 add the records of the readable files
    twice over. *)
Theorem second_run_adds_the_records_again (base : path) (s : state) (ts : list tuple) :
  walk fs base = Ok ts ->
  fst (main w fs base s) = 0 ->
  fst (main w fs base (snd (main w fs base s))) = 0 ->
  map doc_key (docs_since s (snd (main w fs base (snd (main w fs base s)))))
  = map tuple_key (List.filter (readable fs) ts)
    ++ map tuple_key (List.filter (readable fs) ts).
Proof.
  intros Hw H1 H2.
  assert (Hc : connect_ok w = true).
  { unfold main, walkAndUpload in H1. destruct (connect_ok w); [reflexivity|].
    simpl in H1; discriminate. }
  set (s1 := snd (main w fs base s)) in *.
  set (s2 := snd (main w fs base s1)) in *.
  destruct (main_summary w fs base ts s Hc Hw)
    as (d1 & r1 & Hs1 & Hk1 & _ & _ & [(_ & -> & _) | (E & _)]); [|fold s1 in E; congruence].
  destruct (main_summary w fs base ts s1 Hc Hw)
    as (d2 & r2 & Hs2 & Hk2 & _ & _ & [(_ & -> & _) | (E & _)]); [|fold s2 in E; congruence].
  rewrite app_nil_r in Hs1, Hs2; subst d1 d2. fold s1 in Hk1. fold s2 in Hk2.
  destruct (main_keeps w fs base s) as [([a Ha] & _) _]. fold s1 in Ha.
  destruct (main_keeps w fs base s1) as [([b Hb] & _) _]. fold s2 in Hb.
  rewrite (docs_since_app s s1 a Ha) in Hk1.
  rewrite (docs_since_app s1 s2 b Hb) in Hk2.
  rewrite (docs_since_app s s2 (a ++ b)) by (rewrite Hb, Ha, app_assoc; reflexivity).
  rewrite !map_app, Hk1, Hk2. reflexivity.
Qed.

(** X8. A root that cannot be listed ends the run after the connection
    notice with status 1 and the raw error; no file is read and nothing
    is asked of the stores. *)
Theorem unlistable_root_aborts (base : path) (s : state) :
  connect_ok w = true ->
  ~ is_dir fs base ->
  exists e,
    Fs.readdirSync fs base = Throw e /\
    main w fs base s = (1, logged (LogFatalScript e) (logged LogConnected s)).
Proof.
  intros Hc Hd.
  destruct (main_cases w fs base s) as [(Hc' & _) | [(e & _ & Hw & Hm) | (ts & r & s1 & l & _ & Hw & _)]].
  - congruence.
  - exists e. split; [|exact Hm].
    unfold walk, list_dirs in Hw.
    destruct (Fs.readdirSync fs base) as [names|e'] eqn:Hr.
    + exfalso. apply Hd. unfold Fs.readdirSync in Hr.
      destruct (resolve fs base) as [[x|es]|] eqn:Hres; try discriminate.
      exists es; exact Hres.
    + simpl in Hw. congruence.
  - exfalso. apply Hd. exact (walk_Ok_root fs base ts Hw).
Qed.

End RunProperties.

(** * Further properties of the walker and of names *)

Ltac unequal_depth H :=
  exfalso; apply (f_equal (@List.length string)) in H; unfold join in H;
  rewrite !length_app in H; simpl in H; lia.

Section WalkerPolicy.

Variable fs : node.

Lemma images_tested (dir : path) (f : string) :
  In f (images fs dir) -> Pattern.test f = true /\ In f (listing fs dir).
Proof. unfold images; intros H; apply filter_In in H as [H1 H2]; split; assumption. Qed.

(** X9. Every tuple the walker yields is classified by where its file
    lies: the file is an entry with an image extension of a directory
    two, three or four levels below the root; the category is the first
    level, the subcategory the second when the file lies deeper, the
    sub-subcategory the third when it lies deeper still; the directory
    holding the file has no subdirectories unless it is a
    sub-subcategory.  In particular a sub-subcategory never comes without
    a subcategory, and nothing below the fourth level is yielded. *)
Theorem tuples_are_classified_by_their_path (base : path) (ts : list tuple)
    (p : path) (c : string) (sc ss : option string) :
  walk fs base = Ok ts ->
  In (p, c, sc, ss) ts ->
  In c (subdirs fs base) /\
  Pattern.test (basename p) = true /\
  ((sc = None /\ ss = None
    /\ p = join (join base c) (basename p)
    /\ In (basename p) (listing fs (join base c))
    /\ subdirs fs (join base c) = [])
   \/ (exists sub, sc = Some sub /\ ss = None
         /\ In sub (subdirs fs (join base c))
         /\ p = join (join (join base c) sub) (basename p)
         /\ In (basename p) (listing fs (join (join base c) sub))
         /\ subdirs fs (join (join base c) sub) = [])
   \/ (exists sub subsub, sc = Some sub /\ ss = Some subsub
         /\ In sub (subdirs fs (join base c))
         /\ In subsub (subdirs fs (join (join base c) sub))
         /\ p = join (join (join (join base c) sub) subsub) (basename p)
         /\ In (basename p) (listing fs (join (join (join base c) sub) subsub)))).
Proof.
  intros Hw Hin. apply walk_Ok_depth_first in Hw; subst ts.
  unfold depth_first in Hin. apply in_flat_map in Hin as (c' & Hc' & Hin).
  apply in_depth_first_category in Hin as [[He (f & Hf & E)]|(sub & Hsub & Hin)].
  - injection E as -> -> -> ->. rewrite basename_join.
    apply images_tested in Hf as [Ht Hl].
    split; [exact Hc'|]. split; [exact Ht|]. left. repeat split; assumption.
  - apply in_depth_first_subcat in Hin as [[He (f & Hf & E)]|(subsub & f & Hss & Hf & E)];
      injection E as -> -> -> ->; rewrite basename_join;
      apply images_tested in Hf as [Ht Hl];
      (split; [exact Hc'|]); (split; [exact Ht|]); right.
    + left. exists sub. repeat split; assumption.
    + right. exists sub, subsub. repeat split; assumption.
Qed.

(** X10. One level up the walker treats a category as it treats a
    subcategory: a category without subdirectories has each of its image
    files yielded with subcategory and sub-subcategory absent, and a
    category with a subdirectory has none of the files lying directly in
    it yielded. *)
Theorem category_level_policy (base : path) (ts : list tuple) (cat : string) :
  walk fs base = Ok ts ->
  In cat (subdirs fs base) ->
  (subdirs fs (join base cat) = [] ->
     forall f, In f (images fs (join base cat)) ->
       In (join (join base cat) f, cat, None, None) ts)
  /\ (subdirs fs (join base cat) <> [] ->
        forall f, ~ In (join (join base cat) f) (map (fun t : tuple => fst (fst (fst t))) ts)).
Proof.
  intros Hw Hcat. apply walk_Ok_depth_first in Hw; subst ts. split.
  - intros He f Hf. unfold depth_first. apply in_flat_map. exists cat; split; [exact Hcat|].
    apply in_depth_first_category. left. split; [exact He|].
    exists f; split; [exact Hf | reflexivity].
  - intros Hne f Hin. apply in_map_iff in Hin as (t & Hp & Ht).
    unfold depth_first in Ht. apply in_flat_map in Ht as (c' & Hc' & Ht).
    apply in_depth_first_category in Ht as [[He (f' & _ & ->)]|(sc' & Hsc' & Ht)].
    + simpl in Hp. apply join_inj in Hp as [Hp _]. apply join_inj in Hp as [_ <-].
      exact (Hne He).
    + apply in_depth_first_subcat in Ht as [[_ (f' & _ & ->)]|(ss' & f' & _ & _ & ->)];
        simpl in Hp; unequal_depth Hp.
Qed.

End WalkerPolicy.

Section Names.

Lemma strip_image_ext_unfold (s : string) :
  Pattern.strip_image_ext s
  = if Pattern.is_image_ext s then Some EmptyString
    else match s with
         | EmptyString => None
         | String c s' => String c <$> Pattern.strip_image_ext s'
         end.
Proof. destruct s; reflexivity. Qed.

Lemma strip_image_ext_splits (s stem : string) :
  Pattern.strip_image_ext s = Some stem ->
  exists ext, s = stem +:+ ext /\ Pattern.is_image_ext ext = true.
Proof.
  revert stem; induction s as [|a s IH]; intros stem H;
    rewrite strip_image_ext_unfold in H.
  - discriminate.
  - destruct (Pattern.is_image_ext (String a s)) eqn:E.
    + injection H as <-. exists (String a s); split; [reflexivity | exact E].
    + destruct (Pattern.strip_image_ext s) as [stem'|]; [|discriminate].
      injection H as <-. destruct (IH stem' eq_refl) as (ext & -> & He).
      exists ext; split; [reflexivity | exact He].
Qed.

Lemma strip_image_ext_finds (stem ext : string) :
  Pattern.is_image_ext ext = true ->
  is_Some (Pattern.strip_image_ext (stem +:+ ext)).
Proof.
  intros He. induction stem as [|a stem IH].
  - change (EmptyString +:+ ext) with ext.
    rewrite strip_image_ext_unfold, He. eexists; reflexivity.
  - change (String a stem +:+ ext) with (String a (stem +:+ ext)).
    rewrite strip_image_ext_unfold.
    destruct (Pattern.is_image_ext (String a (stem +:+ ext))); [eexists; reflexivity|].
    destruct IH as [x ->]. eexists; reflexivity.
Qed.

Lemma is_image_ext_In (ext : string) :
  Pattern.is_image_ext ext = true <-> In (Pattern.lower ext) Pattern.image_exts.
Proof.
  unfold Pattern.is_image_ext. rewrite existsb_exists. split.
  - intros (x & Hx & E). apply String.eqb_eq in E. subst x; exact Hx.
  - intros H. exists (Pattern.lower ext); split; [exact H | apply String.eqb_refl].
Qed.

(** X11. The pattern behind the walker's filter accepts exactly the names
    that end, whatever the case of the letters, in [.jpg], [.jpeg],
    [.png] or [.webp]; removing the match from an accepted name leaves
    the part before that ending, and a name that is not accepted is left
    as it is. *)
Theorem image_names_are_those_with_an_image_ending (f : string) :
  (Pattern.test f = true <->
   exists stem ext, f = stem +:+ ext /\ In (Pattern.lower ext) Pattern.image_exts)
  /\ (Pattern.test f = true ->
      exists ext, f = Pattern.replace_ext f +:+ ext
                  /\ In (Pattern.lower ext) Pattern.image_exts)
  /\ (Pattern.test f = false -> Pattern.replace_ext f = f).
Proof.
  unfold Pattern.test, Pattern.replace_ext. split; [split|split].
  - intros H. apply bool_decide_eq_true in H as [stem H].
    apply strip_image_ext_splits in H as (ext & -> & He).
    exists stem, ext; split; [reflexivity | apply is_image_ext_In; exact He].
  - intros (stem & ext & -> & He). apply bool_decide_eq_true.
    apply strip_image_ext_finds, is_image_ext_In, He.
  - intros H. apply bool_decide_eq_true in H as [stem H]. rewrite H; simpl.
    apply strip_image_ext_splits in H as (ext & -> & He).
    exists ext; split; [reflexivity | apply is_image_ext_In; exact He].
  - intros H. apply bool_decide_eq_false in H.
    destruct (Pattern.strip_image_ext f) as [stem|] eqn:E; [|reflexivity].
    exfalso; apply H; eexists; reflexivity.
Qed.

End Names.

(** ** The records of a run *)

Section NewRecords.

Variable w : world.
Variable fs : node.

(** Whatever holds of every record [processFile] can build for the tuples
    at hand holds of every record the loop adds. *)
Lemma for_of_new_records (P : metaDoc -> Prop) (ts : list tuple) :
  (forall p c sc ss b m tid fid now,
     In (p, c, sc, ss) ts -> P (doc_of w p c sc ss b m tid fid now)) ->
  forall s r s',
    for_of ts (process_tuple w fs) s = (r, s') ->
    exists new, imagesMeta s' = imagesMeta s ++ new /\ Forall (fun x => P (snd x)) new.
Proof.
  induction ts as [|[[[p c] sc] ss] ts IH]; intros HP s r s' H.
  - injection H as <- <-. exists []; split; [rewrite app_nil_r; reflexivity | constructor].
  - cbn [for_of] in H. rewrite bind_run, process_tuple_run in H.
    assert (Hstep : forall a s1,
              processFile w fs p c sc ss (logged (LogProcessing (basename p) c sc ss) s)
              = (a, s1) ->
              exists new, imagesMeta s1 = imagesMeta s ++ new
                          /\ Forall (fun x => P (snd x)) new).
    { intros a s1 E. destruct a as [[id|]|e].
      - apply processFile_done in E as (b & m & _ & _ & E). cbv zeta in E.
        destruct E as (_ & _ & _ & _ & ->). eexists [(_, _)]. split; [reflexivity|].
        constructor; [|constructor]. simpl. apply HP. left; reflexivity.
      - apply processFile_skipped in E as (e & _ & ->).
        exists []; split; [simpl; rewrite app_nil_r; reflexivity | constructor].
      - apply processFile_thrown in E as (_ & Hm & _).
        exists []; split; [rewrite Hm, app_nil_r; reflexivity | constructor]. }
    destruct (processFile w fs p c sc ss _) as [[a|e] s1] eqn:E.
    + destruct (Hstep _ _ eq_refl) as (n1 & Hm1 & Hf1).
      apply IH in H as (n2 & Hm2 & Hf2);
        [|intros; apply HP; right; assumption].
      exists (n1 ++ n2). split; [rewrite Hm2, Hm1, app_assoc; reflexivity|].
      apply Forall_app; split; assumption.
    + injection H as <- <-. apply (Hstep _ _ eq_refl).
Qed.

Lemma main_new_records (P : metaDoc -> Prop) (base : path) (s : state) :
  (forall ts p c sc ss b m tid fid now,
     walk fs base = Ok ts -> In (p, c, sc, ss) ts ->
     P (doc_of w p c sc ss b m tid fid now)) ->
  Forall P (docs_since s (snd (main w fs base s))).
Proof.
  intros HP.
  destruct (main_cases w fs base s)
    as [(_ & ->) | [(e & _ & _ & ->) | (ts & r & s1 & l & _ & Hw & Hrun & ->)]].
  - rewrite (docs_since_app s _ []) by (simpl; rewrite app_nil_r; reflexivity). constructor.
  - rewrite (docs_since_app s _ []) by (simpl; rewrite app_nil_r; reflexivity). constructor.
  - apply (for_of_new_records P ts (fun p c sc ss b m tid fid now => HP ts p c sc ss b m tid fid now Hw))
      in Hrun as (new & Hm & Hf).
    rewrite (docs_since_app s _ new) by exact Hm.
    apply Forall_map. exact Hf.
Qed.

Lemma yielded_names_tested (base : path) (ts : list tuple) p c sc ss :
  walk fs base = Ok ts -> In (p, c, sc, ss) ts -> Pattern.test (basename p) = true.
Proof.
  intros Hw Hin. apply walk_Ok_depth_first in Hw; subst ts.
  unfold depth_first in Hin. apply in_flat_map in Hin as (c' & _ & Hin).
  apply in_depth_first_category in Hin as [[_ (f & Hf & E)]|(sub & _ & Hin)].
  - injection E as -> _ _ _. rewrite basename_join. apply (images_tested fs _ f Hf).
  - apply in_depth_first_subcat in Hin as [[_ (f & Hf & E)]|(subsub & f & _ & Hf & E)];
      injection E as -> _ _ _; rewrite basename_join; apply (images_tested fs _ f Hf).
Qed.

(** X12. Every record a run adds names a file with an image ending, and
    its alt text is that name without the ending; its placeholder string
    starts with the [data:image/webp;base64,] prefix and reads back as
    bytes. *)
Theorem records_of_a_run_are_well_formed (base : path) (s : state) :
  Forall (fun d =>
            (exists ext, filename d = alt d +:+ ext
                         /\ In (Pattern.lower ext) Pattern.image_exts)
            /\ is_Some (Base64.webp_of_data_uri (lqip d)))
         (docs_since s (snd (main w fs base s))).
Proof.
  apply main_new_records.
  intros ts p c sc ss b m tid fid now Hw Hin. simpl. split.
  - pose proof (yielded_names_tested base ts p c sc ss Hw Hin) as Ht.
    unfold Pattern.test in Ht. apply bool_decide_eq_true in Ht as [stem Ht].
    unfold Pattern.replace_ext. rewrite Ht; simpl.
    apply strip_image_ext_splits in Ht as (ext & -> & He).
    exists ext; split; [reflexivity | apply is_image_ext_In; exact He].
  - unfold dataUri. rewrite data_uri_reads_back. eexists; reflexivity.
Qed.

End NewRecords.

(** * Properties of the read side *)

Section MetadataRoute.

Variable D : Metadata.driver.
Hypothesis D_ok : Metadata.driver_ok D.

Lemma condition_text (v : string) (field : option string) :
  Metadata.condition D (Some (Metadata.QString v)) field = true <->
  (v <> EmptyString -> field = Some v).
Proof.
  unfold Metadata.condition, Metadata.given.
  destruct (String.eqb v EmptyString) eqn:E.
  - apply String.eqb_eq in E; subst v. split; [intros _ []; reflexivity | reflexivity].
  - apply String.eqb_neq in E. rewrite bool_decide_eq_true. split; [intros H _; exact H|].
    intros H; exact (H E).
Qed.

Lemma condition_absent (field : option string) : Metadata.condition D None field = true.
Proof. reflexivity. Qed.

Lemma StronglySorted_render (l : list (oid * metaDoc)) :
  StronglySorted Metadata.newer_first l ->
  StronglySorted Metadata.newer_item_first (map (Metadata.render D) l).
Proof.
  induction 1 as [|x l Hl IH Hx]; simpl; constructor; [exact IH|].
  rewrite Forall_map. eapply Forall_impl; [exact Hx|]. intros y Hy; exact Hy.
Qed.

(** X13. Without a limit the metadata route answers with exactly the
    records that pass the filter, each once, newest first.  For a
    parameter that is a text and not empty, a record passes only if its
    field equals the text, so a record without subcategory or
    sub-subcategory never passes a text on that field; when every
    parameter is absent or a text, the records whose fields equal the
    texts that are not empty are all in the answer.  What a parameter
    that is a list or an object lets through is the store's to decide
    and is left open. *)
Theorem answer_is_the_matching_records (coll : list (oid * metaDoc)) (q : Metadata.query) :
  Metadata.given (Metadata.limit_param q) = None ->
  exists items,
    Metadata.get_metadata D coll q = Ok items /\
    Permutation items
      (map (Metadata.render D) (List.filter (fun r => Metadata.matches D q (snd r)) coll)) /\
    StronglySorted Metadata.newer_item_first items /\
    (forall r, In (Metadata.render D r) items ->
       (forall v, Metadata.category_param q = Some (Metadata.QString v) ->
                  v <> EmptyString -> category (snd r) = v) /\
       (forall v, Metadata.subcategory_param q = Some (Metadata.QString v) ->
                  v <> EmptyString -> subcategory (snd r) = Some v) /\
       (forall v, Metadata.subsubcategory_param q = Some (Metadata.QString v) ->
                  v <> EmptyString -> subsubcategory (snd r) = Some v)) /\
    (forall r, In r coll ->
       (forall x, Metadata.category_param q = Some x ->
          exists v, x = Metadata.QString v
                    /\ (v <> EmptyString -> category (snd r) = v)) ->
       (forall x, Metadata.subcategory_param q = Some x ->
          exists v, x = Metadata.QString v
                    /\ (v <> EmptyString -> subcategory (snd r) = Some v)) ->
       (forall x, Metadata.subsubcategory_param q = Some x ->
          exists v, x = Metadata.QString v
                    /\ (v <> EmptyString -> subsubcategory (snd r) = Some v)) ->
       In (Metadata.render D r) items).
Proof.
  intros Hl. unfold Metadata.get_metadata, Metadata.find. rewrite Hl. simpl.
  set (found := List.filter (fun r => Metadata.matches D q (snd r)) coll).
  pose proof (Metadata.sort_permutes D D_ok found) as Hperm.
  eexists; split; [reflexivity|].
  split; [apply Permutation_map; exact Hperm|].
  split; [apply StronglySorted_render, (Metadata.sort_orders D D_ok)|].
  split.
  - intros r Hin. apply in_map_iff in Hin as (r' & Hr & Hin).
    apply (Permutation_in _ Hperm) in Hin. apply filter_In in Hin as [_ Hm].
    assert (Hsnd : snd r' = snd r) by (apply (f_equal Metadata.item_doc) in Hr; exact Hr).
    rewrite Hsnd in Hm. unfold Metadata.matches in Hm.
    rewrite !andb_true_iff in Hm. destruct Hm as [[H1 H2] H3].
    split; [|split].
    + intros v Hv Hne. rewrite Hv in H1. apply condition_text in H1; [congruence | exact Hne].
    + intros v Hv Hne. rewrite Hv in H2. apply condition_text in H2; assumption.
    + intros v Hv Hne. rewrite Hv in H3. apply condition_text in H3; assumption.
  - intros r Hin H1 H2 H3. apply in_map.
    apply (Permutation_in _ (Permutation_sym Hperm)).
    apply filter_In. split; [exact Hin|].
    unfold Metadata.matches. rewrite !andb_true_iff. split; [split|].
    + destruct (Metadata.category_param q) as [x|] eqn:E; [|apply condition_absent].
      destruct (H1 x eq_refl) as (v & -> & Hv). apply condition_text.
      intros Hne. rewrite (Hv Hne). reflexivity.
    + destruct (Metadata.subcategory_param q) as [x|] eqn:E; [|apply condition_absent].
      destruct (H2 x eq_refl) as (v & -> & Hv). apply condition_text. exact Hv.
    + destruct (Metadata.subsubcategory_param q) as [x|] eqn:E; [|apply condition_absent].
      destruct (H3 x eq_refl) as (v & -> & Hv). apply condition_text. exact Hv.
Qed.

End MetadataRoute.

Section FileRoute.

Variable e : Server.env.

(** X15. When the stream of a stored file faults before its first chunk,
    the 500 answer goes out with the cache directive the route had set
    for the image, so the error is declared cacheable for a year and
    immutable; the stored content type is replaced by plain text. *)
Theorem error_500_keeps_the_cache_directive (fileId : string) (id : oid)
    (doc : Server.fileDoc) :
  Server.parseObjectId e fileId = Some id ->
  Server.files e !! id = Some doc ->
  Server.openDownloadStream e id = {| Server.chunks := []; Server.faults := true |} ->
  Server.status_sent (snd (Server.serve e fileId)) = Some 500
  /\ Server.header_sent "cache-control" (snd (Server.serve e fileId))
     = Some "public, max-age=31536000, immutable"
  /\ Server.header_sent "content-type" (snd (Server.serve e fileId))
     = Some "text/plain; charset=utf-8".
Proof.
  intros H1 H2 H3. rewrite (serve_stored e fileId id doc H1 H2), H3.
  repeat split; reflexivity.
Qed.

End FileRoute.

(** ** From ingestion to the read side *)

Section EndToEnd.

Variable w : world.
Variable fs : node.

Lemma served_whole (e : Server.env) (s : state) (text : string) (k : oid) (f : gridFile) :
  backed_by w s e ->
  Server.parseObjectId e text = Some k ->
  gridfs s !! k = Some f ->
  fst (Server.serve e text) = Ok tt
  /\ Server.status_sent (snd (Server.serve e text)) = Some 200
  /\ Server.header_sent "content-type" (snd (Server.serve e text))
     = Some (default "image/webp" (or_null (Some (file_contentType f))))
  /\ Server.body (snd (Server.serve e text)) = webp_bytes w (file_data f)
  /\ Server.ended (snd (Server.serve e text)) = true.
Proof.
  intros Hb Hp Hk. destruct (Hb k f Hk) as (Hfile & Hfault & Hbytes).
  destruct (stored_file_served e text k _ Hp Hfile Hfault) as (H1 & H2 & H3 & _ & H5 & H6).
  rewrite Hbytes in H5. repeat split; assumption.
Qed.

(** X16. What a run ingests the read side serves.  After a run from
    consistent stores, with a read side backed by the bucket, every item
    the metadata route lists carries two id strings; when the file route
    reads those strings back as the ids, it answers each with status 200
    and, byte for byte, the thumbnail and the full variant uploaded for
    the file the item names. *)
Theorem listed_variants_are_served (base : path) (s : state) (e : Server.env)
    (D : Metadata.driver) (q : Metadata.query) (items : list Metadata.item)
    (it : Metadata.item) :
  store_ok s ->
  backed_by w (snd (main w fs base s)) e ->
  Metadata.driver_ok D ->
  Metadata.given (Metadata.limit_param q) = None ->
  Metadata.get_metadata D (imagesMeta (snd (main w fs base s))) q = Ok items ->
  In it items ->
  Server.parseObjectId e (Metadata.item_thumbnailId it)
  = Some (thumbnailId (variants (Metadata.item_doc it))) ->
  Server.parseObjectId e (Metadata.item_fullId it)
  = Some (fullId (variants (Metadata.item_doc it))) ->
  exists tf ff,
    gridfs (snd (main w fs base s)) !! thumbnailId (variants (Metadata.item_doc it)) = Some tf /\
    gridfs (snd (main w fs base s)) !! fullId (variants (Metadata.item_doc it)) = Some ff /\
    file_name tf = filename (Metadata.item_doc it) +:+ "-thumb.webp" /\
    file_name ff = filename (Metadata.item_doc it) +:+ "-full.webp" /\
    tag_variant (file_metadata tf) = "thumbnail" /\
    tag_variant (file_metadata ff) = "full" /\
    Server.status_sent (snd (Server.serve e (Metadata.item_thumbnailId it))) = Some 200 /\
    Server.body (snd (Server.serve e (Metadata.item_thumbnailId it)))
    = webp_bytes w (file_data tf) /\
    Server.ended (snd (Server.serve e (Metadata.item_thumbnailId it))) = true /\
    Server.status_sent (snd (Server.serve e (Metadata.item_fullId it))) = Some 200 /\
    Server.body (snd (Server.serve e (Metadata.item_fullId it)))
    = webp_bytes w (file_data ff) /\
    Server.ended (snd (Server.serve e (Metadata.item_fullId it))) = true.
Proof.
  intros Hok Hback HD Hl Hget Hin Hpt Hpf.
  destruct (main_keeps w fs base s) as [_ K]. specialize (K Hok).
  set (s' := snd (main w fs base s)) in *.
  unfold Metadata.get_metadata, Metadata.find in Hget. rewrite Hl in Hget. simpl in Hget.
  injection Hget as <-. apply in_map_iff in Hin as ([id d] & <- & Hin).
  apply (Permutation_in _ (Metadata.sort_permutes D HD _)) in Hin.
  apply filter_In in Hin as [Hin _].
  destruct K as (_ & Hdocs & _).
  destruct (Hdocs id d Hin) as (_ & _ & tf & ff & Ht & Hf & _ & Hnt & Hnf & Hvt & Hvf & _).
  simpl in *. exists tf, ff.
  destruct (served_whole e s' _ _ tf Hback Hpt Ht) as (_ & T2 & _ & T4 & T5).
  destruct (served_whole e s' _ _ ff Hback Hpf Hf) as (_ & F2 & _ & F4 & F5).
  repeat split; assumption.
Qed.

Lemma env_over_backed (s : state) : backed_by w s (ReadDemo.env_over w s).
Proof.
  intros k f Hk. simpl. rewrite lookup_fmap, Hk. simpl.
  repeat split; try reflexivity. apply app_nil_r.
Qed.

End EndToEnd.

#[local] Instance newer_first_transitive : Transitive Metadata.newer_first.
Proof. intros a b c; unfold Metadata.newer_first; lia. Qed.

#[local] Instance newer_first_total : Total Metadata.newer_first.
Proof. intros a b; unfold Metadata.newer_first; lia. Qed.

Lemma demo_driver_ok : Metadata.driver_ok ReadDemo.driver.
Proof.
  split.
  - intros l. apply merge_sort_Permutation.
  - intros l. apply (StronglySorted_merge_sort Metadata.newer_first).
Qed.

(** ** The further properties on sample inputs *)

Lemma empty_store_ok : store_ok Demo.empty.
Proof.
  split; [|split].
  - intros k f H. simpl in H. rewrite lookup_empty in H. discriminate.
  - intros id d [].
  - apply NoDup_nil_2.
Defined.

Lemma run_keeps_stores_consistent_witness :
  store_ok Demo.empty
  /\ store_ok (snd (main Demo.calm Demo.mixed Demo.root Demo.empty)).
Proof.
  split; [exact empty_store_ok|].
  exact (proj1 (run_keeps_stores_consistent Demo.calm Demo.mixed Demo.root Demo.empty
                  empty_store_ok)).
Defined.

Lemma after_ribbons_store_ok : store_ok ReadDemo.after_ribbons.
Proof.
  exact (proj2 (main_keeps Demo.calm Demo.ribbons Demo.root Demo.empty) empty_store_ok).
Defined.

Lemma run_never_removes_witness :
  store_ok ReadDemo.after_ribbons
  /\ extends ReadDemo.after_ribbons
       (snd (main Demo.calm Demo.mixed Demo.root ReadDemo.after_ribbons)).
Proof.
  split; [exact after_ribbons_store_ok|].
  exact (proj1 (run_never_removes Demo.calm Demo.mixed Demo.root ReadDemo.after_ribbons
                  after_ribbons_store_ok)).
Defined.

Lemma failed_file_leaves_its_uploads_witness :
  store_ok Demo.empty
  /\ processFile (Demo.upload_fault_at 1) Demo.ribbons Demo.velvet_a "Ribbons"
       (Some "Velvet") None Demo.empty
     = (Throw (UploadStreamError "a.jpg-full.webp"), snd ReadDemo.cut_run)
  /\ imagesMeta (snd ReadDemo.cut_run) = imagesMeta Demo.empty.
Proof.
  assert (H : processFile (Demo.upload_fault_at 1) Demo.ribbons Demo.velvet_a "Ribbons"
                (Some "Velvet") None Demo.empty
              = (Throw (UploadStreamError "a.jpg-full.webp"), snd ReadDemo.cut_run))
    by (vm_compute; reflexivity).
  split; [exact empty_store_ok|]. split; [exact H|].
  exact (proj1 (failed_file_leaves_its_uploads (Demo.upload_fault_at 1) Demo.ribbons
                  Demo.velvet_a "Ribbons" (Some "Velvet") None Demo.empty _ _
                  empty_store_ok H)).
Defined.

Lemma returned_id_names_the_new_record_witness :
  processFile Demo.calm Demo.ribbons Demo.velvet_a "Ribbons" (Some "Velvet") None Demo.empty
  = (Ok (Some 2%N), snd Demo.ribbons_run)
  /\ exists d, imagesMeta (snd Demo.ribbons_run) = imagesMeta Demo.empty ++ [(2%N, d)].
Proof.
  assert (H : processFile Demo.calm Demo.ribbons Demo.velvet_a "Ribbons" (Some "Velvet")
                None Demo.empty = (Ok (Some 2%N), snd Demo.ribbons_run))
    by (vm_compute; reflexivity).
  split; [exact H|].
  destruct (returned_id_names_the_new_record Demo.calm Demo.ribbons Demo.velvet_a "Ribbons"
              (Some "Velvet") None Demo.empty _ 2%N H) as (d & Hd & _).
  exists d; exact Hd.
Defined.

Lemma second_run_adds_the_records_again_witness :
  walk Demo.mixed Demo.root = Ok [Demo.lace "a.jpg"; Demo.lace "b.jpg"; Demo.lace "c.png"]
  /\ fst (main Demo.calm Demo.mixed Demo.root Demo.empty) = 0
  /\ fst (main Demo.calm Demo.mixed Demo.root
            (snd (main Demo.calm Demo.mixed Demo.root Demo.empty))) = 0
  /\ map doc_key
       (docs_since Demo.empty
          (snd (main Demo.calm Demo.mixed Demo.root
                  (snd (main Demo.calm Demo.mixed Demo.root Demo.empty)))))
     = map (tuple_key)
         (List.filter (readable Demo.mixed)
            [Demo.lace "a.jpg"; Demo.lace "b.jpg"; Demo.lace "c.png"])
       ++ map (tuple_key)
            (List.filter (readable Demo.mixed)
               [Demo.lace "a.jpg"; Demo.lace "b.jpg"; Demo.lace "c.png"]).
Proof.
  assert (H1 : walk Demo.mixed Demo.root
               = Ok [Demo.lace "a.jpg"; Demo.lace "b.jpg"; Demo.lace "c.png"])
    by reflexivity.
  assert (H2 : fst (main Demo.calm Demo.mixed Demo.root Demo.empty) = 0)
    by (vm_compute; reflexivity).
  assert (H3 : fst (main Demo.calm Demo.mixed Demo.root
                      (snd (main Demo.calm Demo.mixed Demo.root Demo.empty))) = 0)
    by (vm_compute; reflexivity).
  split; [exact H1|]. split; [exact H2|]. split; [exact H3|].
  exact (second_run_adds_the_records_again Demo.calm Demo.mixed Demo.root Demo.empty
           _ H1 H2 H3).
Defined.

Lemma unlistable_root_aborts_witness :
  connect_ok Demo.calm = true
  /\ ~ is_dir Demo.ribbons ["Missing"]
  /\ exists e,
       Fs.readdirSync Demo.ribbons ["Missing"] = Throw e /\
       main Demo.calm Demo.ribbons ["Missing"] Demo.empty
       = (1, logged (LogFatalScript e) (logged LogConnected Demo.empty)).
Proof.
  assert (H1 : connect_ok Demo.calm = true) by reflexivity.
  assert (H2 : ~ is_dir Demo.ribbons ["Missing"]) by (intros [es H]; discriminate).
  split; [exact H1|]. split; [exact H2|].
  exact (unlistable_root_aborts Demo.calm Demo.ribbons ["Missing"] Demo.empty H1 H2).
Defined.

Lemma tuples_are_classified_by_their_path_witness :
  walk Demo.quirk Demo.root = Ok Demo.quirk_tuples
  /\ In (["Ribbons"; "Velvet"; "Cotton"; "in.jpg"], "Ribbons", Some "Velvet", Some "Cotton")
        Demo.quirk_tuples
  /\ In "Ribbons" (subdirs Demo.quirk Demo.root)
  /\ Pattern.test (basename ["Ribbons"; "Velvet"; "Cotton"; "in.jpg"]) = true.
Proof.
  assert (H1 : walk Demo.quirk Demo.root = Ok Demo.quirk_tuples) by reflexivity.
  assert (H2 : In (["Ribbons"; "Velvet"; "Cotton"; "in.jpg"], "Ribbons", Some "Velvet",
                   Some "Cotton") Demo.quirk_tuples) by (right; left; reflexivity).
  split; [exact H1|]. split; [exact H2|].
  destruct (tuples_are_classified_by_their_path Demo.quirk Demo.root Demo.quirk_tuples
              _ _ _ _ H1 H2) as (Hc & Ht & _).
  split; [exact Hc | exact Ht].
Defined.

Lemma category_level_policy_witness :
  walk Demo.quirk Demo.root = Ok Demo.quirk_tuples
  /\ In "Ribbons" (subdirs Demo.quirk Demo.root)
  /\ subdirs Demo.quirk (join Demo.root "Ribbons") <> []
  /\ forall f, ~ In (join (join Demo.root "Ribbons") f)
                    (map (fun t : tuple => fst (fst (fst t))) Demo.quirk_tuples).
Proof.
  assert (H1 : walk Demo.quirk Demo.root = Ok Demo.quirk_tuples) by reflexivity.
  assert (H2 : In "Ribbons" (subdirs Demo.quirk Demo.root)) by (left; reflexivity).
  assert (H3 : subdirs Demo.quirk (join Demo.root "Ribbons") <> []) by discriminate.
  split; [exact H1|]. split; [exact H2|]. split; [exact H3|].
  exact (proj2 (category_level_policy Demo.quirk Demo.root Demo.quirk_tuples "Ribbons" H1 H2)
           H3).
Defined.

Lemma answer_is_the_matching_records_witness :
  Metadata.driver_ok ReadDemo.driver
  /\ Metadata.given (Metadata.limit_param ReadDemo.velvet) = None
  /\ exists items,
       Metadata.get_metadata ReadDemo.driver ReadDemo.shelf ReadDemo.velvet = Ok items /\
       Permutation items
         (map (Metadata.render ReadDemo.driver)
            (List.filter (fun r => Metadata.matches ReadDemo.driver ReadDemo.velvet (snd r))
               ReadDemo.shelf)) /\
       StronglySorted Metadata.newer_item_first items /\
       map (fun it => filename (Metadata.item_doc it)) items = ["c.jpg"; "a.jpg"].
Proof.
  assert (H : Metadata.given (Metadata.limit_param ReadDemo.velvet) = None) by reflexivity.
  split; [exact demo_driver_ok|]. split; [exact H|].
  destruct (answer_is_the_matching_records ReadDemo.driver demo_driver_ok ReadDemo.shelf
              ReadDemo.velvet H) as (items & H1 & H2 & H3 & _).
  exists items. split; [exact H1|]. split; [exact H2|]. split; [exact H3|].
  vm_compute in H1. injection H1 as <-. reflexivity.
Defined.

Lemma error_500_keeps_the_cache_directive_witness :
  Server.parseObjectId ServerDemo.env ServerDemo.id3 = Some 3%N
  /\ Server.files ServerDemo.env !! 3%N = Some {| Server.contentType := Some "image/png" |}
  /\ Server.openDownloadStream ServerDemo.env 3%N
     = {| Server.chunks := []; Server.faults := true |}
  /\ Server.status_sent (snd (Server.serve ServerDemo.env ServerDemo.id3)) = Some 500
  /\ Server.header_sent "cache-control" (snd (Server.serve ServerDemo.env ServerDemo.id3))
     = Some "public, max-age=31536000, immutable"
  /\ Server.header_sent "content-type" (snd (Server.serve ServerDemo.env ServerDemo.id3))
     = Some "text/plain; charset=utf-8".
Proof.
  assert (H1 : Server.parseObjectId ServerDemo.env ServerDemo.id3 = Some 3%N)
    by reflexivity.
  assert (H2 : Server.files ServerDemo.env !! 3%N
               = Some {| Server.contentType := Some "image/png" |}) by reflexivity.
  assert (H3 : Server.openDownloadStream ServerDemo.env 3%N
               = {| Server.chunks := []; Server.faults := true |}) by reflexivity.
  split; [exact H1|]. split; [exact H2|]. split; [exact H3|].
  exact (error_500_keeps_the_cache_directive ServerDemo.env ServerDemo.id3 3%N _ H1 H2 H3).
Defined.

Lemma listed_variants_are_served_witness :
  store_ok Demo.empty
  /\ backed_by Demo.calm (snd (main Demo.calm Demo.ribbons Demo.root Demo.empty))
       (ReadDemo.env_over Demo.calm (snd (main Demo.calm Demo.ribbons Demo.root Demo.empty)))
  /\ Metadata.get_metadata ReadDemo.driver
       (imagesMeta (snd (main Demo.calm Demo.ribbons Demo.root Demo.empty)))
       Metadata.no_filter
     = Ok [Metadata.render ReadDemo.driver (2%N, Demo.ribbons_doc)]
  /\ Metadata.item_thumbnailId (Metadata.render ReadDemo.driver (2%N, Demo.ribbons_doc))
     = "000000000000000000000000"
  /\ Server.status_sent
       (snd (Server.serve
               (ReadDemo.env_over Demo.calm
                  (snd (main Demo.calm Demo.ribbons Demo.root Demo.empty)))
               "000000000000000000000000")) = Some 200
  /\ Server.body
       (snd (Server.serve
               (ReadDemo.env_over Demo.calm
                  (snd (main Demo.calm Demo.ribbons Demo.root Demo.empty)))
               "000000000000000000000000"))
     = webp_bytes Demo.calm ReadDemo.sample_image.
Proof.
  set (s' := snd (main Demo.calm Demo.ribbons Demo.root Demo.empty)).
  set (it := Metadata.render ReadDemo.driver (2%N, Demo.ribbons_doc)).
  assert (H2 : backed_by Demo.calm s' (ReadDemo.env_over Demo.calm s'))
    by apply env_over_backed.
  assert (H3 : Metadata.given (Metadata.limit_param Metadata.no_filter) = None)
    by reflexivity.
  assert (H4 : Metadata.get_metadata ReadDemo.driver (imagesMeta s') Metadata.no_filter
               = Ok [it]) by (vm_compute; reflexivity).
  assert (H5 : In it [it]) by (left; reflexivity).
  assert (H6 : Server.parseObjectId (ReadDemo.env_over Demo.calm s')
                 (Metadata.item_thumbnailId it)
               = Some (thumbnailId (variants (Metadata.item_doc it))))
    by (vm_compute; reflexivity).
  assert (H7 : Server.parseObjectId (ReadDemo.env_over Demo.calm s')
                 (Metadata.item_fullId it)
               = Some (fullId (variants (Metadata.item_doc it))))
    by (vm_compute; reflexivity).
  assert (Hid : Metadata.item_thumbnailId it = "000000000000000000000000")
    by (vm_compute; reflexivity).
  split; [exact empty_store_ok|]. split; [exact H2|]. split; [exact H4|].
  split; [exact Hid|].
  destruct (listed_variants_are_served Demo.calm Demo.ribbons Demo.root Demo.empty
              (ReadDemo.env_over Demo.calm s') ReadDemo.driver Metadata.no_filter
              [it] it empty_store_ok H2 demo_driver_ok H3 H4 H5 H6 H7)
    as (tf & ff & Ht & _ & _ & _ & _ & _ & S1 & S2 & _).
  rewrite Hid in S1, S2. split; [exact S1|].
  vm_compute in Ht. injection Ht as <-. exact S2.
Defined.

(** * The order of store operations in a run *)

Section Sequence.

Variable w : world.
Variable fs : node.

Lemma for_of_ops (ts : list tuple) : forall s s',
  for_of ts (process_tuple w fs) s = (Ok tt, s') ->
  exists ops,
    journal s' = journal s ++ ops /\
    map op_view ops = flat_map ops_of_file (List.filter (readable fs) ts) /\
    forallb op_succeeded ops = true.
Proof.
  induction ts as [|[[[p c] sc] ss] ts IH]; intros s s' H.
  - injection H as <-. exists []. rewrite app_nil_r. repeat split; reflexivity.
  - cbn [for_of] in H. rewrite bind_run, process_tuple_run in H.
    destruct (processFile w fs p c sc ss _) as [[[id|]|e] s1] eqn:E; [| |discriminate].
    + apply IH in H as (ops & Hj & Hv & Hs).
      apply processFile_done in E as (b & m & Hb & _ & E). cbv zeta in E.
      destruct E as (_ & _ & _ & _ & ->).
      rewrite journal_done, !journal_after_upload in Hj. simpl in Hj.
      eexists ([_; _; _] ++ ops). split; [rewrite Hj, <- !app_assoc; reflexivity|].
      simpl. rewrite (readable_true fs p c sc ss b Hb). simpl.
      rewrite Hv, Hs. split; reflexivity.
    + apply IH in H as (ops & Hj & Hv & Hs).
      apply processFile_skipped in E as (e & He & ->). simpl in Hj.
      exists ops. split; [exact Hj|]. simpl.
      rewrite (readable_false fs p c sc ss e He). split; assumption.
Qed.

(** X17. Files are handled one after the other.  In a run that ends with
    status 0 the store operations are, for each readable file in walker
    order, its thumbnail upload, its full upload and its record insert,
    each having succeeded, with nothing in between and nothing for the
    unreadable files. *)
Theorem store_operations_run_file_by_file (base : path) (s : state) (ts : list tuple) :
  walk fs base = Ok ts ->
  fst (main w fs base s) = 0 ->
  map op_view (ops_since s (snd (main w fs base s)))
  = flat_map ops_of_file (List.filter (readable fs) ts)
  /\ forallb op_succeeded (ops_since s (snd (main w fs base s))) = true.
Proof.
  intros Hw Hz.
  assert (Hc : connect_ok w = true).
  { unfold main, walkAndUpload in Hz. destruct (connect_ok w); [reflexivity|].
    simpl in Hz; discriminate. }
  rewrite (main_run w fs base ts s Hc Hw) in *.
  destruct (for_of ts (process_tuple w fs) (logged LogConnected s)) as [[[]|e] s1] eqn:Hrun;
    [|simpl in Hz; discriminate].
  apply for_of_ops in Hrun as (ops & Hj & Hv & Hs). simpl.
  rewrite (ops_since_app s (logged LogComplete s1) ops) by exact Hj.
  split; assumption.
Qed.

End Sequence.

Lemma store_operations_run_file_by_file_witness :
  walk Demo.mixed Demo.root = Ok [Demo.lace "a.jpg"; Demo.lace "b.jpg"; Demo.lace "c.png"]
  /\ fst (main Demo.calm Demo.mixed Demo.root Demo.empty) = 0
  /\ map op_view (ops_since Demo.empty (snd (main Demo.calm Demo.mixed Demo.root Demo.empty)))
     = flat_map ops_of_file
         (List.filter (readable Demo.mixed)
            [Demo.lace "a.jpg"; Demo.lace "b.jpg"; Demo.lace "c.png"])
  /\ forallb op_succeeded
       (ops_since Demo.empty (snd (main Demo.calm Demo.mixed Demo.root Demo.empty))) = true.
Proof.
  assert (H1 : walk Demo.mixed Demo.root
               = Ok [Demo.lace "a.jpg"; Demo.lace "b.jpg"; Demo.lace "c.png"])
    by reflexivity.
  assert (H2 : fst (main Demo.calm Demo.mixed Demo.root Demo.empty) = 0)
    by (vm_compute; reflexivity).
  split; [exact H1|]. split; [exact H2|].
  exact (store_operations_run_file_by_file Demo.calm Demo.mixed Demo.root Demo.empty _ H1 H2).
Defined.

(** * No file is yielded twice *)

Section Once.

Variable fs : node.

Lemma distinct_NoDup (l : list string) : distinct l = true -> NoDup l.
Proof.
  induction l as [|x l IH]; simpl; intros H; [apply NoDup_nil_2|].
  apply andb_true_iff in H as [Hx Hl]. apply NoDup_cons. split; [|apply IH, Hl].
  intros Hin. apply list_elem_of_In in Hin. apply negb_true_iff in Hx.
  assert (existsb (String.eqb x) l = true); [|congruence].
  apply existsb_exists. exists x; split; [exact Hin | apply String.eqb_refl].
Qed.

Lemma unique_names_child (es : list (string * node)) (x : string) (c : node) :
  unique_names (Dir es) = true -> assoc x es = Some c -> unique_names c = true.
Proof.
  simpl. intros H. apply andb_true_iff in H as [_ H].
  induction es as [|[k v] es IH]; simpl; [discriminate|].
  apply andb_true_iff in H as [Hv Hes].
  destruct (String.eqb x k); [intros [= <-]; exact Hv | apply IH, Hes].
Qed.

Lemma listing_NoDup (n : node) (p : path) :
  unique_names n = true ->
  NoDup (match resolve n p with Some (Dir es) => map fst es | _ => [] end).
Proof.
  revert n; induction p as [|x p IH]; intros n Hn; simpl.
  - destruct n as [b|es]; [apply NoDup_nil_2|].
    simpl in Hn. apply andb_true_iff in Hn as [Hd _]. apply distinct_NoDup, Hd.
  - destruct n as [b|es]; [apply NoDup_nil_2|].
    destruct (assoc x es) as [c|] eqn:E; [|apply NoDup_nil_2].
    apply IH. apply (unique_names_child es x c Hn E).
Qed.

Lemma NoDup_List_filter {A} (f : A -> bool) (l : list A) :
  NoDup l -> NoDup (List.filter f l).
Proof.
  rewrite !NoDup_ListNoDup. apply List.NoDup_filter.
Qed.

Lemma NoDup_flat_map_apart {A B} (f : A -> list B) (l : list A) :
  NoDup l ->
  (forall x, In x l -> NoDup (f x)) ->
  (forall x y b, In x l -> In y l -> In b (f x) -> In b (f y) -> x = y) ->
  NoDup (flat_map f l).
Proof.
  induction 1 as [|x l Hx Hl IH]; intros Hf Hd; simpl; [apply NoDup_nil_2|].
  apply NoDup_app. split; [apply Hf; left; reflexivity|]. split.
  - intros b Hb Hb'. apply list_elem_of_In in Hb, Hb'.
    apply in_flat_map in Hb' as (y & Hy & Hby).
    assert (x = y) by (apply (Hd x y b); [left; reflexivity | right; exact Hy | exact Hb | exact Hby]).
    subst y. apply Hx, list_elem_of_In, Hy.
  - apply IH.
    + intros y Hy; apply Hf; right; exact Hy.
    + intros y z b Hy Hz; apply Hd; right; assumption.
Qed.

Lemma paths_of_tuples_in dir c sc ss files :
  map path_of (tuples_in dir c sc ss files) = map (join dir) files.
Proof. unfold tuples_in. rewrite map_map. reflexivity. Qed.

Lemma NoDup_joined (dir : path) (files : list string) :
  NoDup files -> NoDup (map (join dir) files).
Proof.
  intros H.
  assert (Hinj : Inj (=) (=) (join dir)).
  { intros a b E. apply join_inj in E as [_ E]. exact E. }
  apply (NoDup_fmap_2 (join dir)), H.
Qed.

Lemma map_flat_map {A B C} (g : B -> C) (f : A -> list B) (l : list A) :
  map g (flat_map f l) = flat_map (fun x => map g (f x)) l.
Proof. induction l as [|x l IH]; simpl; [reflexivity|]. rewrite map_app, IH. reflexivity. Qed.

Hypothesis fs_unique : unique_names fs = true.

Lemma sorted_listing_NoDup (p : path) : NoDup (listing fs p).
Proof.
  pose proof (listing_NoDup fs p fs_unique) as H. unfold listing.
  destruct (resolve fs p) as [[c|es]|]; try apply NoDup_nil_2.
  unfold sort_names. rewrite merge_sort_Permutation. exact H.
Qed.

Lemma subdirs_NoDup (p : path) : NoDup (subdirs fs p).
Proof. apply NoDup_List_filter, sorted_listing_NoDup. Qed.

Lemma images_NoDup (p : path) : NoDup (images fs p).
Proof. apply NoDup_List_filter, sorted_listing_NoDup. Qed.

Lemma subcat_paths c cp sc :
  NoDup (map path_of (depth_first_subcat fs c cp sc))
  /\ forall p, In p (map path_of (depth_first_subcat fs c cp sc)) ->
       exists r, p = cp ++ sc :: r.
Proof.
  unfold depth_first_subcat. destruct (subdirs fs (join cp sc)) as [|d ds] eqn:Hs.
  - rewrite paths_of_tuples_in. split; [apply NoDup_joined, images_NoDup|].
    intros p Hp. apply in_map_iff in Hp as (f & <- & _).
    exists [f]. unfold join. rewrite <- app_assoc. reflexivity.
  - rewrite map_flat_map. split.
    + apply NoDup_flat_map_apart.
      * rewrite <- Hs. apply subdirs_NoDup.
      * intros ss _. rewrite paths_of_tuples_in. apply NoDup_joined, images_NoDup.
      * intros x y b _ _ Hx Hy. rewrite paths_of_tuples_in in Hx, Hy.
        apply in_map_iff in Hx as (f & <- & _). apply in_map_iff in Hy as (f' & E & _).
        apply join_inj in E as [E _]. apply join_inj in E as [_ E]. congruence.
    + intros p Hp. apply in_flat_map in Hp as (ss & _ & Hp).
      rewrite paths_of_tuples_in in Hp. apply in_map_iff in Hp as (f & <- & _).
      exists [ss; f]. unfold join. rewrite <- !app_assoc. reflexivity.
Qed.

Lemma category_paths base c :
  NoDup (map path_of (depth_first_category fs base c))
  /\ forall p, In p (map path_of (depth_first_category fs base c)) ->
       exists r, p = base ++ c :: r.
Proof.
  unfold depth_first_category. destruct (subdirs fs (join base c)) as [|d ds] eqn:Hs.
  - rewrite paths_of_tuples_in. split; [apply NoDup_joined, images_NoDup|].
    intros p Hp. apply in_map_iff in Hp as (f & <- & _).
    exists [f]. unfold join. rewrite <- app_assoc. reflexivity.
  - rewrite map_flat_map. split.
    + apply NoDup_flat_map_apart.
      * rewrite <- Hs. apply subdirs_NoDup.
      * intros sc _. apply subcat_paths.
      * intros x y b _ _ Hx Hy.
        apply subcat_paths in Hx as (r & ->). apply subcat_paths in Hy as (r' & E).
        apply app_inv_head in E. congruence.
    + intros p Hp. apply in_flat_map in Hp as (sc & _ & Hp).
      apply subcat_paths in Hp as (r & ->).
      exists (sc :: r). unfold join. rewrite <- app_assoc. reflexivity.
Qed.


End Once.

